(** * Sequentia: sequence classifiers and HMM topologies

    A shallow embedding of the decision layer of the toolkit:
    - [Numpy]: the array operations the sources call, over exact rationals;
    - [Topology]: [models/hmm/topologies.py];
    - [HMMClassifier]: [classifiers/hmm/hmm_classifier.py];
    - [DTWKNN]: [classifiers/dtwknn/dtwknn.py];
    - [Variants]: the freeze/unfreeze methods of
      [models/hmm/variants/gaussian_mixture.py] and [multinomial.py].

    Floating-point numbers are modelled by exact rationals ([Q]); external
    collaborators (the Dirichlet sampler, the forward algorithm, the
    FastDTW distance, [random.choice], [numpy.argpartition], [pickle],
    [sklearn.metrics.confusion_matrix]) are Section variables constrained
    by their documented contracts. *)

From Stdlib Require Import QArith Qabs ZArith Lia Lqa.
From Stdlib Require Import Ascii String DecimalString Decimal DecimalNat Sorted.
From Stdlib Require OrderedTypeEx.
From stdpp Require Import base option list gmap strings.

Local Open Scope Q_scope.

(** ** Array operations *)

Module Numpy.

Abbreviation vector := (list Q).
Abbreviation matrix := (list (list Q)).

(** [np.ones(n)], [np.ones((n, m))], [np.zeros((n, m))]. *)
Definition ones (n : nat) : vector := replicate n 1.
Definition ones2 (n m : nat) : matrix := replicate n (ones m).
Definition zeros2 (n m : nat) : matrix := replicate n (replicate m 0).

(** [a / c] for a scalar [c]. *)
Definition vdiv_scalar (v : vector) (c : Q) : vector := (λ x, x / c) <$> v.
Definition mdiv_scalar (M : matrix) (c : Q) : matrix :=
  (λ r, vdiv_scalar r c) <$> M.

(** Elementwise [A + B] and [A / B] on arrays of one shape. *)
Definition madd (A B : matrix) : matrix := zip_with (zip_with Qplus) A B.
Definition mdiv (A B : matrix) : matrix := zip_with (zip_with Qdiv) A B.

(** [np.triu(M, k)] keeps the entries with [j - i >= k];
    [np.tril(M, k)] keeps those with [j - i <= k]. *)
Definition triu (M : matrix) (k : Z) : matrix :=
  imap (λ i row,
    imap (λ j x, if (k <=? Z.of_nat j - Z.of_nat i)%Z then x else 0) row) M.
Definition tril (M : matrix) (k : Z) : matrix :=
  imap (λ i row,
    imap (λ j x, if (Z.of_nat j - Z.of_nat i <=? k)%Z then x else 0) row) M.

(** [np.tril] applied to a 1-D array of length [n]: the array is broadcast
    against the [n x n] triangular mask. *)
Definition tril_vec (v : vector) (k : Z) : matrix :=
  tril (replicate (length v) v) k.

(** [np.arange(start, stop, step)] for a non-zero integer step. *)
Definition arange (start stop step : Z) : list Z :=
  let len :=
    if (0 <? step)%Z then ((stop - start + step - 1) / step)%Z
    else ((start - stop + (- step) - 1) / (- step))%Z in
  (λ i, (start + Z.of_nat i * step)%Z) <$> seq 0 (Z.to_nat len).

(** [np.tile(v, (reps, 1))]. *)
Definition tile (v : vector) (reps : nat) : matrix := replicate reps v.

(** [M.T] for a rectangular 2-D array. *)
Definition transpose (M : matrix) : matrix :=
  match M with
  | [] => []
  | r :: _ => imap (λ j _, (λ row, nth j row 0) <$> M) r
  end.

(** [v.sum()] and [M.sum(axis=1)]. *)
Definition sum (v : vector) : Q := foldr Qplus 0 v.
Definition sum_axis1 (M : matrix) : vector := sum <$> M.

(** [M.shape == (n, m)] for a 2-D array given by its rows. *)
Definition has_shape (M : matrix) (n m : nat) : bool :=
  (length M =? n)%nat && forallb (λ r, (length r =? m)%nat) M.

(** [np.isclose(a, b)] and [np.allclose(a, b)] with the default tolerances
    [rtol = 1e-05] and [atol = 1e-08]: [|a - b| <= atol + rtol * |b|]. *)
Definition rtol : Q := 1 # 100000.
Definition atol : Q := 1 # 100000000.
Definition isclose (a b : Q) : bool :=
  Qle_bool (Qabs (a - b)) (atol + rtol * Qabs b).
Definition allclose (a b : vector) : bool :=
  forallb id (zip_with isclose a b).
Definition allclose2 (A B : matrix) : bool :=
  forallb id (zip_with allclose A B).

(** [np.diag(M, k)] on a 2-D array: the [k]-th superdiagonal. *)
Definition diag_of (M : matrix) (k : nat) : vector :=
  omap id (imap (λ i row, row !! (i + k)%nat) M).

(** [np.diag(v, k)] on a 1-D array: the square matrix of size
    [len(v) + k] carrying [v] on its [k]-th superdiagonal. *)
Definition diag_mat (v : vector) (k : nat) : matrix :=
  let n := (length v + k)%nat in
  (λ i, (λ j, if (j =? i + k)%nat then nth i v 0 else 0) <$> seq 0 n)
    <$> seq 0 n.

(** [np.all(M > 0)]. *)
Definition all_positive (M : matrix) : bool :=
  forallb (forallb (λ x, negb (Qle_bool x 0))) M.

(** The [n x m] array whose entry [(i, j)] is [f i j], and the entry
    [M[i][j]] of an array. *)
Definition table (n m : nat) (f : nat → nat → Q) : matrix :=
  (λ i, f i <$> seq 0 m) <$> seq 0 n.
Definition entry (M : matrix) (i j : nat) : option Q :=
  r ← M !! i; r !! j.

(** Entrywise equality of rational arrays. *)
Definition same_vector (a b : vector) : Prop := Forall2 Qeq a b.
Definition same_entries (A B : matrix) : Prop := Forall2 same_vector A B.

(** A row that is zero except for the block [v] starting at column [i]. *)
Definition band (n i : nat) (v : vector) : vector :=
  replicate i 0 ++ v ++ replicate (n - i - length v) 0.

(** [row[i:j] = vals]: the slice is clipped to the row, and [vals] must
    have the slice's length or length one (broadcast). *)
Definition set_slice (row : vector) (i j : nat) (vals : vector)
  : option vector :=
  let j' := (j `min` length row)%nat in
  let len := (j' - i)%nat in
  if (length vals =? len)%nat then
    Some (take i row ++ vals ++ drop (i + len) row)
  else if (length vals =? 1)%nat then
    Some (take i row ++ replicate len (nth 0 vals 0) ++ drop (i + len) row)
  else None.

End Numpy.

(** ** Exceptions and warnings *)

Inductive exn :=
  | TypeError (msg : string)
  | ValueError (msg : string)
  | RuntimeError (msg : string)
  | AssertionError (msg : string)
  | IndexError (msg : string)
  | KeyError (msg : string)
  | ZeroDivisionError.

Inductive result (A : Type) :=
  | Ok (a : A)
  | Raise (e : exn).
Arguments Ok {A} a.
Arguments Raise {A} e.

#[global] Instance result_ret : MRet result := λ A a, Ok a.
#[global] Instance result_bind : MBind result := λ A B f r,
  match r with Ok a => f a | Raise e => Raise e end.

#[global] Instance result_fmap : FMap result := λ A B f r,
  match r with Ok a => Ok (f a) | Raise e => Raise e end.

Definition is_ok {A} (r : result A) : bool :=
  match r with Ok _ => true | Raise _ => false end.

Definition of_option {A} (e : exn) (o : option A) : result A :=
  match o with Some a => Ok a | None => Raise e end.

Definition Qnat (n : nat) : Q := inject_Z (Z.of_nat n).

(** ** Topologies ([models/hmm/topologies.py]) *)

Module Topology.
Import Numpy.

Inductive kind := Ergodic | LeftRight | Linear.

Definition name (k : kind) : string :=
  match k with
  | Ergodic => "ergodic"
  | LeftRight => "left-right"
  | Linear => "linear"
  end.

(** The lookup table [_topologies]. *)
Definition _topologies : gmap string kind :=
  list_to_map ((λ k, (name k, k)) <$> [Ergodic; LeftRight; Linear]).

Definition broadcast_error : exn :=
  ValueError "could not broadcast input array".

(** [for i, row in enumerate(transitions): row[...] = ...], threading a
    state through the iterations. *)
Fixpoint for_rows {St : Type}
    (body : nat → vector → St → result (vector * St))
    (i : nat) (M : matrix) (s : St) : result (matrix * St) :=
  match M with
  | [] => Ok ([], s)
  | row :: M' =>
      '(row', s') ← body i row s;
      '(M'', s'') ← for_rows body (S i) M' s';
      Ok (row' :: M'', s'')
  end.

Definition uniform_start_probs (n : nat) : vector :=
  vdiv_scalar (ones n) (Qnat n).

Definition uniform_transitions (k : kind) (n : nat) : result matrix :=
  match k with
  | Ergodic => Ok (mdiv_scalar (ones2 n n) (Qnat n))
  | LeftRight =>
      let upper_ones := triu (ones2 n n) 0 in
      let upper_divisors :=
        triu (transpose
                (tile (inject_Z <$> arange (Z.of_nat n) 0 (-1)) n)) 0 in
      let lower_ones := tril_vec (ones n) (-1) in
      Ok (mdiv upper_ones (madd upper_divisors lower_ones))
  | Linear =>
      '(T, _) ← for_rows (λ i row (_ : unit),
          let size := (2 `min` (n - i))%nat in
          row' ← of_option broadcast_error
                   (set_slice row i (i + size)
                      (vdiv_scalar (ones size) (Qnat size)));
          Ok (row', tt)) 0%nat (zeros2 n n) tt;
      Ok T
  end.

Section Random.
(** The random state and its Dirichlet sampler
    [random_state.dirichlet(alpha)]. *)
Context {rng : Type} (dirichlet : rng → vector → vector * rng).

(** [random_state.dirichlet(alpha, size=k)]: [k] successive samples. *)
Fixpoint dirichlet_size (k : nat) (alpha : vector) (s : rng)
  : matrix * rng :=
  match k with
  | O => ([], s)
  | S k' =>
      let '(v, s1) := dirichlet s alpha in
      let '(M, s2) := dirichlet_size k' alpha s1 in
      (v :: M, s2)
  end.

Definition random_start_probs (n : nat) (s : rng) : vector * rng :=
  let '(M, s') := dirichlet_size 1 (ones n) s in (concat M, s').

Definition random_transitions (k : kind) (n : nat) (s : rng)
  : result (matrix * rng) :=
  match k with
  | Ergodic => Ok (dirichlet_size n (ones n) s)
  | LeftRight =>
      for_rows (λ i row s,
        let '(v, s') := dirichlet s (ones (n - i)) in
        row' ← of_option broadcast_error
                 (set_slice row i (length row) v);
        Ok (row', s')) 0%nat (zeros2 n n) s
  | Linear =>
      for_rows (λ i row s,
        let size := (2 `min` (n - i))%nat in
        let '(v, s') := dirichlet s (ones size) in
        row' ← of_option broadcast_error
                 (set_slice row i (i + size) v);
        Ok (row', s')) 0%nat (zeros2 n n) s
  end.
End Random.

Definition zero_warning : string :=
  "Zero probabilities in ergodic transition matrix - these transition probabilities will not be learned".

Definition check_start_probs (n : nat) (initial : vector) : result vector :=
  if negb (length initial =? n)%nat then
    Raise (ValueError "Initial state distribution must be of shape (n_states,)")
  else if negb (isclose (sum initial) 1) then
    Raise (ValueError "Initial state distribution must sum to one")
  else Ok initial.

(** [_Topology.check_transitions]. *)
Definition base_check_transitions (n : nat) (T : matrix) : result matrix :=
  if negb (has_shape T n n) then
    Raise (ValueError "Transition matrix must be of shape (n_states, n_states)")
  else if negb (allclose (sum_axis1 T) (ones n)) then
    Raise (ValueError "Transition probabilities out of each state must sum to one")
  else Ok T.

(** [_LeftRightTopology.check_transitions]. *)
Definition leftright_check_transitions (n : nat) (T : matrix)
  : result matrix :=
  _ ← base_check_transitions n T;
  if negb (allclose2 T (triu T 0)) then
    Raise (ValueError "Left-right transition matrix must be upper-triangular")
  else Ok T.

(** [_LinearTopology.check_transitions]; its [super()] is the left-right
    topology. *)
Definition linear_check_transitions (n : nat) (T : matrix)
  : result matrix :=
  _ ← leftright_check_transitions n T;
  if negb (allclose2 T (madd (diag_mat (diag_of T 0) 0)
                             (diag_mat (diag_of T 1) 1))) then
    Raise (ValueError "Linear transition matrix must only consist of a diagonal and upper diagonal")
  else Ok T.

(** [check_transitions] of each topology: the validated matrix together
    with the warnings emitted on the way. *)
Definition check_transitions (k : kind) (n : nat) (T : matrix)
  : result (matrix * list string) :=
  match k with
  | Ergodic =>
      _ ← base_check_transitions n T;
      if negb (all_positive T) then Ok (T, [zero_warning]) else Ok (T, [])
  | LeftRight => T' ← leftright_check_transitions n T; Ok (T', [])
  | Linear => T' ← linear_check_transitions n T; Ok (T', [])
  end.

(** *** Validation conditions, as the specification words them *)

(** [np.isclose(a, b)] as a proposition. *)
Definition close (a b : Q) : Prop :=
  Qabs (a - b) <= atol + rtol * Qabs b.

Definition shape_ok (n : nat) (T : matrix) : Prop :=
  length T = n ∧ Forall (λ r, length r = n) T.

Definition rows_normalised (T : matrix) : Prop :=
  Forall (λ r, close (sum r) 1) T.

(** The positions a topology requires to be zero. *)
Definition outside_pattern (k : kind) (i j : nat) : Prop :=
  match k with
  | Ergodic => False
  | LeftRight => (j < i)%nat
  | Linear => (j < i)%nat ∨ (i + 1 < j)%nat
  end.

Definition pattern_exact (k : kind) (T : matrix) : Prop :=
  ∀ i j q, entry T i j = Some q → outside_pattern k i j → q == 0.

Definition pattern_within_tolerance (k : kind) (T : matrix) : Prop :=
  ∀ i j q, entry T i j = Some q → outside_pattern k i j → Qabs q <= atol.

Definition raises {A} (r : result A) : Prop := ∃ e, r = Raise e.

(** *** Descriptions of generated matrices *)

(** The entries of the uniform left-right matrix, as the array
    expression computes them. *)
Definition lr_entries (n i j : nat) : Q :=
  (if (0 <=? Z.of_nat j - Z.of_nat i)%Z then 1 else 0) /
  ((if (0 <=? Z.of_nat j - Z.of_nat i)%Z
    then inject_Z (Z.of_nat n - Z.of_nat i) else 0) +
   (if (Z.of_nat j - Z.of_nat i <=? -1)%Z then 1 else 0)).

(** Rows made of a block that sums to one, starting on the diagonal. *)
Definition banded_rows (n : nat) (w : nat → nat) (T : matrix) : Prop :=
  length T = n ∧
  ∀ i r, T !! i = Some r →
    ∃ v, r = band n i v ∧ length v = w i ∧ (i + w i ≤ n)%nat ∧
         close (sum v) 1.

End Topology.

(** ** Shared helpers: batches, label encoding, argmax *)

Module Py.

(** Consecutive sub-lists of the given sizes. *)
Fixpoint split_sizes {A} (sizes : list nat) (l : list A) : list (list A) :=
  match sizes with
  | [] => []
  | k :: ks => take k l :: split_sizes ks (drop k l)
  end.

(** [np.array_split(l, n)]: [len(l) % n] chunks of size [len(l) // n + 1]
    followed by chunks of size [len(l) // n]. *)
Definition array_split {A} (l : list A) (n : nat) : result (list (list A)) :=
  if (n =? 0)%nat then
    Raise (ValueError "number sections must be larger than 0.")
  else
    let each := (length l / n)%nat in
    let extras := (length l mod n)%nat in
    Ok (split_sizes
          (replicate extras (S each) ++ replicate (n - extras) each) l).

(** [l[:k]]: a stop beyond the end is clipped to the length, a negative
    stop counts from the end. *)
Definition slice_to {A} (k : Z) (l : list A) : list A :=
  let n := Z.of_nat (length l) in
  take (Z.to_nat (if (k <? 0)%Z then Z.max 0 (k + n) else Z.min k n)) l.

(** numpy's conversion of a Python integer to an index ([intp]): an
    integer that fits a signed 64-bit number is kept, one that fits only
    an unsigned 64-bit number wraps around to a negative index, and a
    larger one does not make an integer array. *)
Definition to_intp (k : Z) : result Z :=
  if (- 2 ^ 63 <=? k)%Z && (k <? 2 ^ 63)%Z then Ok k
  else if (2 ^ 63 <=? k)%Z && (k <? 2 ^ 64)%Z then Ok (k - 2 ^ 64)%Z
  else Raise (TypeError "Partition index must be integer").

(** [np.argmax]: index of the first occurrence of the maximum. *)
Fixpoint argmax_from (best_i : nat) (best : Q) (i : nat) (l : list Q)
  : nat :=
  match l with
  | [] => best_i
  | x :: l' =>
      if Qle_bool x best then argmax_from best_i best (S i) l'
      else argmax_from i x (S i) l'
  end.

Definition argmax (l : list Q) : result nat :=
  match l with
  | [] => Raise (ValueError "attempt to get argmax of an empty sequence")
  | x :: l' => Ok (argmax_from 0 x 1 l')
  end.

(** [np.unique] on labels: sorted, without duplicates. *)
Fixpoint insert_unique (s : string) (l : list string) : list string :=
  match l with
  | [] => [s]
  | x :: l' =>
      match String.compare s x with
      | Lt => s :: l
      | Eq => l
      | Gt => x :: insert_unique s l'
      end
  end.

Definition unique (l : list string) : list string :=
  foldr insert_unique [] l.

(** [sklearn.preprocessing.LabelEncoder], given by its [classes_]. *)
Fixpoint index_of (s : string) (l : list string) : option nat :=
  match l with
  | [] => None
  | x :: l' => if String.eqb s x then Some 0%nat else S <$> index_of s l'
  end.

Definition unseen : exn := ValueError "y contains previously unseen labels".

Definition transform (classes : list string) (s : string) : result nat :=
  of_option unseen (index_of s classes).

Definition inverse_transform (classes : list string) (i : nat)
  : result string :=
  of_option unseen (classes !! i).

(** Modelled from the spec: the validator's [restricted_integer] is not
    part of the sources at hand; an integer that fails the restriction is
    rejected at the call that introduces it. *)
Definition restricted_integer (x : Z) (p : Z → bool) (desc : string)
  : result Z :=
  if p x then Ok x else Raise (ValueError desc).

(** The validation of [n_jobs], then
    [cpu_count() if n_jobs == -1 else n_jobs]. *)
Definition resolve_jobs (cpu_count : nat) (n_jobs : Z) : result nat :=
  _ ← restricted_integer n_jobs (λ x, (x =? -1)%Z || (0 <? x)%Z)
        "number of jobs";
  Ok (if (n_jobs =? -1)%Z then cpu_count else Z.to_nat n_jobs).

(** [np.sum(np.diag(cm))] and [np.sum(cm)] of an integer matrix. *)
Definition trace (cm : list (list nat)) : nat :=
  sum_list (omap id (imap (λ i row, row !! i) cm)).

Definition total (cm : list (list nat)) : nat :=
  sum_list (sum_list <$> cm).

(** [a / b] on numpy integers is a float; a zero divisor gives a
    non-finite value and a warning, not an exception. *)
Inductive np_float :=
  | Finite (q : Q)
  | NonFinite.

Definition true_divide (a b : nat) : np_float :=
  if (b =? 0)%nat then NonFinite else Finite (Qnat a / Qnat b).

(** The table that [sklearn.metrics.confusion_matrix] documents: entry
    [(i, j)] counts the samples whose true value is [labels[i]] and whose
    predicted value is [labels[j]]. *)
Definition pair_counts `{EqDecision A} (y_true y_pred labels : list A)
  : list (list nat) :=
  (λ a, (λ b, length (filter (λ tp, tp = (a, b)) (zip y_true y_pred)))
          <$> labels) <$> labels.

End Py.

(** ** The HMM ensemble classifier ([classifiers/hmm/hmm_classifier.py]) *)

Module HMMClassifier.
Import Numpy Py.

Inductive prior :=
  | Frequency
  | Uniform
  | Explicit (p : list Q).

(** A predicted label: the encoder's index, or the original label. *)
Inductive label_out :=
  | Index (i : nat)
  | Original (l : string).

#[global] Instance label_out_eq_dec : EqDecision label_out.
Proof. solve_decision. Defined.

Section Classifier.
(** Observation sequences, fitted single-class models, the forward
    algorithm [model.forward(x)], [np.log] and [cpu_count()]. *)
Context {obs hmm : Type}.
Context (forward : hmm → obs → Q) (log : Q → Q) (cpu_count : nat).

Record GMMHMM := {
  label : string;
  n_seqs_ : nat;
  fitted : hmm
}.

(** The classifier's attributes; both are absent before [fit]. *)
Record t := {
  _models_ : option (list GMMHMM);
  _encoder_ : option (list string)
}.

Definition __init__ : t := {| _models_ := None; _encoder_ := None |}.

Definition fit (self : t) (models : list GMMHMM) : result t :=
  match models with
  | [] => Raise (RuntimeError "The classifier must be fitted with at least one HMM")
  | _ => Ok {| _models_ := Some models;
               _encoder_ := Some (unique (label <$> models)) |}
  end.

Definition not_fitted : exn :=
  RuntimeError "No models available - the classifier must be fitted first".

Definition models_ (self : t) : result (list GMMHMM) :=
  of_option not_fitted (_models_ self).

Definition classes_ (self : t) : result (list string) :=
  of_option not_fitted (_encoder_ self).

(** The assertions on an explicit prior. *)
Definition check_prior (models : list GMMHMM) (pr : prior)
  : result unit :=
  match pr with
  | Explicit p =>
      if negb (length p =? length models)%nat then
        Raise (AssertionError "There must be a class prior for each HMM or class")
      else if negb (forallb (λ x, Qle_bool 0 x && Qle_bool x 1) p) then
        Raise (AssertionError "Class priors must each be between zero and one")
      else if negb (isclose (sum p) 1) then
        Raise (AssertionError "Class priors must form a probability distribution by summing to one")
      else Ok tt
  | _ => Ok tt
  end.

(** A dict comprehension [{model.label: v(model) for model in models}]:
    later models overwrite earlier ones with the same label. *)
Fixpoint dict_of (v : GMMHMM → result Q) (models : list GMMHMM)
    (d : gmap string Q) : result (gmap string Q) :=
  match models with
  | [] => Ok d
  | m :: ms => x ← v m; dict_of v ms (<[label m := x]> d)
  end.

Definition _get_priors (self : t) (pr : prior)
  : result (gmap string Q) :=
  models ← models_ self;
  match pr with
  | Frequency =>
      let total_seqs := sum_list (n_seqs_ <$> models) in
      dict_of (λ m,
        if (total_seqs =? 0)%nat then Raise ZeroDivisionError
        else Ok (Qnat (n_seqs_ m) / Qnat total_seqs)) models ∅
  | Uniform =>
      dict_of (λ m, Ok (1 / Qnat (length models))) models ∅
  | Explicit p =>
      classes ← classes_ self;
      dict_of (λ m,
        i ← transform classes (label m);
        of_option (IndexError "list index out of range") (p !! i))
        models ∅
  end.

(** The unnormalised log-posteriors of one sequence, in the order of
    [self._models_]. *)
Definition _predict (self : t) (x : obs) (priors : gmap string Q)
  : result vector :=
  models ← models_ self;
  mapM (λ m,
    p ← of_option (KeyError (label m)) (priors !! label m);
    Ok (forward (fitted m) x + log p)) models.

(** [np.stack] refuses an empty list of arrays. *)
Definition stack (rows : list vector) : result matrix :=
  match rows with
  | [] => Raise (ValueError "need at least one array to stack")
  | _ => Ok rows
  end.

Definition _chunk_predict (self : t) (chunk : list obs)
    (priors : gmap string Q) : result matrix :=
  rows ← mapM (λ x, _predict self x priors) chunk;
  stack rows.

(** [np.vstack] of the chunks' score matrices. *)
Definition vstack (parts : list matrix) : result matrix :=
  match parts with
  | [] => Raise (ValueError "need at least one array to concatenate")
  | _ => Ok (concat parts)
  end.

(** [save] pickles the fitted classifier and [load] unpickles it; the
    pickle functions are the library's. *)
Context {blob : Type}.
Context (pickle_dumps : t → blob) (pickle_loads : blob → result t).

Definition save (self : t) : result blob :=
  _ ← models_ self; Ok (pickle_dumps self).

Definition load (b : blob) : result t := pickle_loads b.

Definition _output_single (self : t) (idx : nat) (scores : vector)
    (return_scores original_labels : bool)
  : result (label_out * option vector) :=
  lbl ← (if negb original_labels then Ok (Index idx)
         else classes ← classes_ self;
              Original <$> inverse_transform classes idx);
  Ok (lbl, if return_scores then Some scores else None).

Definition _output_batch (self : t) (idx : list nat) (scores : matrix)
    (return_scores original_labels : bool)
  : result (list label_out * option matrix) :=
  lbls ← (if negb original_labels then Ok (Index <$> idx)
          else classes ← classes_ self;
               mapM (λ i, Original <$> inverse_transform classes i) idx);
  Ok (lbls, if return_scores then Some scores else None).

(** [predict] on a single observation sequence; [n_jobs] only decides
    whether a warning is emitted. *)
Definition predict_single (self : t) (x : obs) (pr : prior)
    (return_scores original_labels : bool) (n_jobs : Z)
  : result (label_out * option vector) :=
  models ← models_ self;
  _ ← check_prior models pr;
  _ ← resolve_jobs cpu_count n_jobs;
  priors ← _get_priors self pr;
  scores ← _predict self x priors;
  labels ← argmax scores;
  _output_single self labels scores return_scores original_labels.

(** [predict] on a list of observation sequences. *)
Definition predict (self : t) (X : list obs) (pr : prior)
    (return_scores original_labels : bool) (n_jobs : Z)
  : result (list label_out * option matrix) :=
  models ← models_ self;
  _ ← check_prior models pr;
  jobs ← resolve_jobs cpu_count n_jobs;
  let n_jobs := (jobs `min` length X)%nat in
  priors ← _get_priors self pr;
  scores ← (if (n_jobs =? 1)%nat then _chunk_predict self X priors
            else
              chunks ← array_split X n_jobs;
              parts ← mapM (λ chunk, _chunk_predict self chunk priors)
                        chunks;
              vstack parts);
  labels ← mapM argmax scores;
  _output_batch self labels scores return_scores original_labels.

(** [sklearn.metrics.confusion_matrix(y_true, y_pred, labels=labels)],
    the library's. *)
Context (confusion_matrix :
  list label_out → list label_out → list label_out →
  result (list (list nat))).

(** Modelled from the spec: the validator's
    [is_observation_sequences_and_labels] is not part of the sources at
    hand; a labeled dataset has as many labels as sequences. *)
Definition is_observation_sequences_and_labels (X : list obs)
    (y : list string) : result (list obs * list string) :=
  if (length X =? length y)%nat then Ok (X, y)
  else Raise (ValueError "Expected the same number of observation sequences and labels").

(** [evaluate]: the accuracy and the confusion matrix of the predicted
    class indices against the encoded labels. *)
Definition evaluate (self : t) (X : list obs) (y : list string)
    (pr : prior) (n_jobs : Z) : result (np_float * list (list nat)) :=
  '(X, y) ← is_observation_sequences_and_labels X y;
  '(predictions, _) ← predict self X pr false false n_jobs;
  classes ← classes_ self;
  y_true ← mapM (transform classes) y;
  labels ← mapM (transform classes) classes;
  cm ← confusion_matrix (Index <$> y_true) predictions (Index <$> labels);
  Ok (true_divide (trace cm) (total cm), cm).

End Classifier.

Arguments GMMHMM hmm : clear implicits.
Arguments t hmm : clear implicits.

(** The prior probability of a model's class: its share of the training
    sequences, [1/M], or the entry of the explicit vector at the class's
    position in sorted label order. *)
Definition prior_value {hmm} (models : list (GMMHMM hmm)) (pr : prior)
    (m : GMMHMM hmm) : Q :=
  match pr with
  | Frequency => Qnat (n_seqs_ m) / Qnat (sum_list (n_seqs_ <$> models))
  | Uniform => 1 / Qnat (length models)
  | Explicit p =>
      default 0 (i ← index_of (label m) (unique (label <$> models)); p !! i)
  end.

(** A classifier as [fit] leaves it. *)
Definition fitted_with {hmm} (self : t hmm) (models : list (GMMHMM hmm))
  : Prop :=
  _models_ self = Some models ∧
  _encoder_ self = Some (unique (label <$> models)).

(** The unnormalised log-posterior of the sequence under a model. *)
Definition score {obs hmm} (forward : hmm → obs → Q) (log : Q → Q)
    (models : list (GMMHMM hmm)) (pr : prior) (x : obs) (m : GMMHMM hmm)
  : Q :=
  forward (fitted m) x + log (prior_value models pr m).

End HMMClassifier.

(** ** The DTW k-NN classifier ([classifiers/dtwknn/dtwknn.py]) *)

Module DTWKNN.
Import Numpy Py.

(** [collections.Counter] over a list: counts keyed by label, in order of
    first occurrence. *)
Fixpoint counter_add (s : string) (c : list (string * nat))
  : list (string * nat) :=
  match c with
  | [] => [(s, 1%nat)]
  | (x, n) :: c' =>
      if String.eqb s x then (x, S n) :: c' else (x, n) :: counter_add s c'
  end.

Definition Counter (l : list string) : list (string * nat) :=
  foldl (λ c s, counter_add s c) [] l.

(** [max] of a sequence of counts; it refuses an empty one. *)
Definition py_max (l : list nat) : result nat :=
  match l with
  | [] => Raise (ValueError "max() arg is an empty sequence")
  | x :: l' => Ok (foldl Nat.max x l')
  end.

(** [str(i)]. *)
Definition str (i : nat) : string := NilEmpty.string_of_uint (Nat.to_uint i).

(** An HDF5 group of datasets: a name-indexed collection whose members
    are iterated in increasing order of their names. *)
Fixpoint create_dataset {A} (name : string) (data : A)
    (g : list (string * A)) : result (list (string * A)) :=
  match g with
  | [] => Ok [(name, data)]
  | (n', d') :: g' =>
      match String.compare name n' with
      | Lt => Ok ((name, data) :: g)
      | Eq => Raise (ValueError "Unable to create dataset (name already exists)")
      | Gt => cons (n', d') <$> create_dataset name data g'
      end
  end.

(** [np.string_(labels)]: the labels as an array of fixed-width ASCII
    byte strings, padded with NUL bytes; reading an element back drops
    its trailing NUL bytes. An empty list is no array: [bytes([])]
    succeeds, so the result is the scalar empty byte string. *)
Inductive bytes_data :=
  | BytesScalar (b : string)
  | BytesArray (l : list string).

Definition NUL : ascii := Ascii.zero.

Definition is_ascii (s : string) : bool :=
  forallb (λ c, (nat_of_ascii c <? 128)%nat) (list_ascii_of_string s).

Definition pad (w : nat) (s : string) : string :=
  (s ++ string_of_list_ascii (replicate (w - String.length s) NUL))%string.

Definition np_string_ (labels : list string) : result bytes_data :=
  match labels with
  | [] => Ok (BytesScalar "")
  | _ =>
      if forallb is_ascii labels then
        let w := foldr Nat.max 1%nat (String.length <$> labels) in
        Ok (BytesArray (pad w <$> labels))
      else Raise (ValueError "'ascii' codec can't encode character")
  end.

Fixpoint strip_nul (s : string) : string :=
  match s with
  | EmptyString => EmptyString
  | String c s' =>
      match strip_nul s' with
      | EmptyString =>
          if Ascii.eqb c NUL then EmptyString else String c EmptyString
      | t => String c t
      end
  end.

(** A Python integer given as the data of a dataset: it is stored when
    it fits a signed or an unsigned 64-bit number; a larger one makes an
    object array, which has no HDF5 type. *)
Definition h5_int (x : Z) : result Z :=
  if (- 2 ^ 63 <=? x)%Z && (x <? 2 ^ 64)%Z then Ok x
  else Raise (TypeError "Object dtype has no native HDF5 equivalent").

(** Iterating over a dataset of byte strings; a scalar dataset cannot
    be iterated. *)
Definition iterate (d : bytes_data) : result (list string) :=
  match d with
  | BytesArray l => Ok l
  | BytesScalar _ => Raise (TypeError "Can't iterate over a scalar dataset")
  end.

(** The layout of a saved classifier. *)
Record h5file (obs : Type) := {
  params_k : Z;
  params_radius : Z;
  data_X : list (string * obs);
  data_y : bytes_data
}.
Arguments params_k {obs} _.
Arguments params_radius {obs} _.
Arguments data_X {obs} _.
Arguments data_y {obs} _.

Section Classifier.
(** Observation sequences, base metrics and generator states; the
    distance [fastdtw(x1, x2, radius, dist)[0]]; the selection performed
    by [np.argpartition(a, kth)] for an in-range [kth]; the generator
    step [_randbelow(n)] behind [random.choice]; [cpu_count()]; the
    generator state in which worker process [i] starts; and, further
    down, the [shape] of an observation sequence. *)
Context {obs metric rng : Type}.
Context (fastdtw : obs → obs → Z → metric → Q).
Context (argpartition : list Q → nat → list nat).
Context (randbelow : rng → nat → nat * rng).
Context (cpu_count : nat) (process_state : nat → rng).

Record t := {
  _k : Z;
  _radius : Z;
  _metric : metric;
  _X : option (list obs);
  _y : option (list string)
}.

Definition __init__ (k radius : Z) (m : metric) : result t :=
  k' ← restricted_integer k (λ x, (0 <? x)%Z) "number of neighbors";
  r' ← restricted_integer radius (λ x, (0 <? x)%Z) "radius parameter";
  Ok {| _k := k'; _radius := r'; _metric := m;
        _X := None; _y := None |}.

(** Modelled from the spec: the validator's
    [observation_sequences_and_labels] is not part of the sources at
    hand; a labeled dataset has as many labels as sequences. *)
Definition observation_sequences_and_labels (X : list obs)
    (y : list string) : result (list obs * list string) :=
  if (length X =? length y)%nat then Ok (X, y)
  else Raise (ValueError "Expected the same number of observation sequences and labels").

Definition fit (self : t) (X : list obs) (y : list string) : result t :=
  '(X', y') ← observation_sequences_and_labels X y;
  Ok {| _k := _k self; _radius := _radius self; _metric := _metric self;
        _X := Some X'; _y := Some y' |}.

Definition fitted_data (msg : string) (self : t)
  : result (list obs * list string) :=
  match _X self, _y self with
  | Some X, Some y => Ok (X, y)
  | _, _ => Raise (RuntimeError msg)
  end.

Definition distance (self : t) (x1 x2 : obs) : Q :=
  fastdtw x1 x2 (_radius self) (_metric self).

(** [np.argpartition(a, kth)]: [kth] is converted to an index, a
    negative index counts from the end, and on a non-empty array the
    index must lie within it. *)
Definition np_argpartition (a : list Q) (kth : Z) : result (list nat) :=
  kth ← to_intp kth;
  let n := Z.of_nat (length a) in
  let kth := if (kth <? 0)%Z then (kth + n)%Z else kth in
  if (n =? 0)%Z then Ok []
  else if (kth <? 0)%Z || (n <=? kth)%Z then
    Raise (ValueError "kth out of bounds")
  else Ok (argpartition a (Z.to_nat kth)).

(** [[self._y[i] for i in idx]]. *)
Definition neighbor_labels (y : list string) (idx : list nat)
  : result (list string) :=
  mapM (λ i, of_option (IndexError "list index out of range") (y !! i)) idx.

Definition find_modes (self : t) (y : list string) (distances : list Q)
  : result (list string) :=
  part ← np_argpartition distances (_k self);
  let idx := slice_to (_k self) part in
  labels ← neighbor_labels y idx;
  let counter := Counter labels in
  max_count ← py_max (snd <$> counter);
  Ok (fst <$> filter (λ kv, snd kv = max_count) counter).

(** [random.choice(seq)]: [seq[_randbelow(len(seq))]]. *)
Definition choice (s : rng) (modes : list string) : result (string * rng) :=
  match modes with
  | [] => Raise (IndexError "Cannot choose from an empty sequence")
  | _ =>
      let '(i, s') := randbelow s (length modes) in
      x ← of_option (IndexError "list index out of range") (modes !! i);
      Ok (x, s')
  end.

(** Classify one sequence, given the generator state. *)
Definition classify (self : t) (X : list obs) (y : list string)
    (o : obs) (s : rng) : result (string * rng) :=
  let distances := (λ x, distance self o x) <$> X in
  modes ← find_modes self y distances;
  choice s modes.

(** The loop [for O in X: ...; labels.append(random.choice(modes))]. *)
Fixpoint classify_all (self : t) (X : list obs) (y : list string)
    (batch : list obs) (s : rng) : result (list string * rng) :=
  match batch with
  | [] => Ok ([], s)
  | o :: batch' =>
      '(l, s1) ← classify self X y o s;
      '(ls, s2) ← classify_all self X y batch' s1;
      Ok (l :: ls, s2)
  end.

Definition predict_not_fitted : string :=
  "The classifier needs to be fitted before predictions are made".

(** [predict] on a single observation sequence. *)
Definition predict_single (self : t) (o : obs) (n_jobs : Z) (s : rng)
  : result (string * rng) :=
  '(X, y) ← fitted_data predict_not_fitted self;
  _ ← resolve_jobs cpu_count n_jobs;
  classify self X y o s.

(** [parallel_predict(process, X_chunk)], run in worker [process] with
    that worker's own generator. *)
Definition parallel_predict (self : t) (X : list obs) (y : list string)
    (process : nat) (X_chunk : list obs) : result (list string) :=
  fst <$> classify_all self X y X_chunk (process_state process).

(** The [shape] of an observation sequence. *)
Context (shape : obs → list nat).

Definition same_shape (batch : list obs) : bool :=
  match batch with
  | [] => true
  | o :: batch' => forallb (λ o', bool_decide (shape o' = shape o)) batch'
  end.

(** [np.array_split(X, n)] on a list of sequences: once the number of
    sections is checked, the list is converted to one array, which numpy
    (from version 1.24 on) refuses unless the sequences all have the
    same shape; the chunks of the array are then the chunks of the
    list. *)
Definition array_split_sequences (batch : list obs) (n : nat)
  : result (list (list obs)) :=
  chunks ← array_split batch n;
  if same_shape batch then Ok chunks
  else Raise (ValueError "setting an array element with a sequence. The requested array has an inhomogeneous shape").

(** [predict] on a list of observation sequences: the labels and the
    caller's generator state afterwards. *)
Definition predict (self : t) (batch : list obs) (n_jobs : Z) (s : rng)
  : result (list string * rng) :=
  '(X, y) ← fitted_data predict_not_fitted self;
  jobs ← resolve_jobs cpu_count n_jobs;
  if (n_jobs =? 1)%Z then classify_all self X y batch s
  else
    X_chunks ← array_split_sequences batch jobs;
    labels ← mapM (λ ic, parallel_predict self X y (S ic.1) ic.2)
               (imap pair X_chunks);
    Ok (concat labels, s).

Definition save_not_fitted : string :=
  "The classifier needs to be fitted before it can be saved".

(** [for i, x in enumerate(self._X): X.create_dataset(str(i), data=x)]. *)
Fixpoint create_datasets (i : nat) (X : list obs)
    (g : list (string * obs)) : result (list (string * obs)) :=
  match X with
  | [] => Ok g
  | x :: X' => g' ← create_dataset (str i) x g; create_datasets (S i) X' g'
  end.

Definition save (self : t) : result (h5file obs) :=
  '(X, y) ← fitted_data save_not_fitted self;
  k ← h5_int (_k self);
  radius ← h5_int (_radius self);
  g ← create_datasets 0 X [];
  ys ← np_string_ y;
  Ok {| params_k := k; params_radius := radius;
        data_X := g; data_y := ys |}.

(** [load] with the default encoding; the labels written by [save]
    are ASCII, which UTF-8 decodes to themselves. *)
Definition load (f : h5file obs) (m : metric) : result t :=
  clf ← __init__ (params_k f) (params_radius f) m;
  y ← iterate (data_y f);
  Ok {| _k := _k clf; _radius := _radius clf; _metric := _metric clf;
        _X := Some (snd <$> data_X f);
        _y := Some (strip_nul <$> y) |}.

(** [sklearn.metrics.confusion_matrix(y_true, y_pred, labels=labels)],
    the library's; [labels] may be [None]. *)
Context (confusion_matrix :
  list string → list string → option (list string) →
  result (list (list nat))).

(** [evaluate]: the accuracy and the confusion matrix of the predicted
    labels against the given ones. *)
Definition evaluate (self : t) (X : list obs) (y : list string)
    (labels : option (list string)) (n_jobs : Z) (s : rng)
  : result (np_float * list (list nat) * rng) :=
  '(X, y) ← observation_sequences_and_labels X y;
  '(predictions, s') ← predict self X n_jobs s;
  cm ← confusion_matrix y predictions labels;
  Ok (true_divide (trace cm) (total cm), cm, s').

End Classifier.

Arguments t {obs} metric.

(** *** Descriptions used by the specification *)

(** [counter[s]]: the count of a label, zero when it is absent. *)
Fixpoint counter_get (c : list (string * nat)) (s : string) : nat :=
  match c with
  | [] => 0
  | (x, n) :: c' => if String.eqb s x then n else counter_get c' s
  end.

(** The number of occurrences of a label among the neighbours. *)
Definition occurrences (s : string) (l : list string) : nat :=
  length (filter (λ x, x = s) l).

(** The query [o] has the single modal label [l] among its neighbours. *)
Definition single_mode {obs metric : Type}
    (fastdtw : obs → obs → Z → metric → Q)
    (argpartition : list Q → nat → list nat)
    (self : t metric) (X : list obs) (y : list string)
    (o : obs) (l : string) : Prop :=
  find_modes argpartition self y ((λ x, distance fastdtw self o x) <$> X)
  = Ok [l].

(** The contract of [np.argpartition(a, kth)]: the result lists every
    index once, and no element placed at or before position [kth]
    exceeds an element placed at or after it. *)
Definition partitioned (a : list Q) (kth : nat) (idx : list nat) : Prop :=
  idx ≡ₚ seq 0 (length a) ∧
  ∀ p q ip iq, (p ≤ kth)%nat → (kth ≤ q)%nat →
    idx !! p = Some ip → idx !! q = Some iq →
    nth ip a 0 <= nth iq a 0.

End DTWKNN.

(** ** Freezing parameters ([models/hmm/variants]) *)

Module Variants.

Inductive variant := GaussianMixtureHMM | MultinomialHMM.

(** [_defaults.hmmlearn_kwargs["params"]] of each variant. *)
Definition default_params (v : variant) : string :=
  match v with
  | GaussianMixtureHMM => "stmcw"
  | MultinomialHMM => "ste"
  end.

(** [set(params)]. *)
Definition set_of (params : string) : gset ascii :=
  list_to_set (list_ascii_of_string params).

(** The attributes of a model that [fit] consults when it decides which
    parameters are initialised and trained. *)
Record HMM := {
  _skip_init_params : gset ascii;
  _skip_params : gset ascii;
  hmmlearn_init_params : string;
  hmmlearn_params : string
}.

(** [set(kwargs['params']) - self._skip_params] in [fit]: the parameters
    handed to the Baum-Welch algorithm for training. *)
Definition trained_params (self : HMM) : gset ascii :=
  set_of (hmmlearn_params self) ∖ _skip_params self.

Section Base.
(** [HMM.freeze] of the base class, reached through [super()]. *)
Context (HMM_freeze : string → HMM → HMM).

Definition freeze (v : variant) (params : option string) (self : HMM)
  : HMM :=
  HMM_freeze (default (default_params v) params) self.

Definition unfreeze (v : variant) (params : option string) (self : HMM)
  : HMM :=
  HMM_freeze (default (default_params v) params) self.
End Base.

(** Modelled from the spec: the base class is not part of the sources at
    hand; freezing marks the given parameters so that training skips
    them. *)
Definition base_freeze (params : string) (self : HMM) : HMM :=
  {| _skip_init_params := _skip_init_params self;
     _skip_params := _skip_params self ∪ set_of params;
     hmmlearn_init_params := hmmlearn_init_params self;
     hmmlearn_params := hmmlearn_params self |}.

End Variants.

(** ** Concrete inputs *)

Module Inputs.

(** A row-stochastic [2 x 2] matrix with a tiny entry below the diagonal. *)
Definition almost_triangular : list (list Q) :=
  [[1; 0]; [1 # 1000000000; 999999999 # 1000000000]].

(** A row-stochastic [2 x 2] matrix with a zero entry. *)
Definition with_zero : list (list Q) := [[1; 0]; [1 # 2; 1 # 2]].

(** Fitted models that report the log-likelihood they carry, whatever
    the sequence. *)
Definition const_forward (h : Q) (x : unit) : Q := h.

Definition model (l : string) (ll : Q) : HMMClassifier.GMMHMM Q :=
  {| HMMClassifier.label := l; HMMClassifier.n_seqs_ := 1;
     HMMClassifier.fitted := ll |}.

(** Three models given to [fit] in the order c, a, b; the models of b
    and c are equally likely, the model of a far less. *)
Definition models_cab : list (HMMClassifier.GMMHMM Q) :=
  [model "c" 0; model "a" (-5); model "b" 0].

(** Two models given to [fit] in the order b, a; the model of b is the
    more likely one. *)
Definition models_ba : list (HMMClassifier.GMMHMM Q) :=
  [model "b" 0; model "a" (-5)].

(** One-dimensional sequences of a single frame, compared by absolute
    difference. *)
Definition abs_distance (x1 x2 : Z) (radius : Z) (m : unit) : Q :=
  inject_Z (Z.abs (x1 - x2)).

(** Each of them is an array of one frame with one feature. *)
Definition frame_shape (x : Z) : list nat := [1%nat; 1%nat].

(** One-dimensional sequences of several frames, compared by the
    absolute difference of their sums. *)
Definition frames_shape (x : list Z) : list nat := [length x; 1%nat].

Definition sum_distance (x1 x2 : list Z) (radius : Z) (m : unit) : Q :=
  inject_Z (Z.abs (foldr Z.add 0%Z x1 - foldr Z.add 0%Z x2)).

(** A selection that sorts the indices by their values, keeping equal
    values in index order. *)
Fixpoint insert_by (a : list Q) (i : nat) (l : list nat) : list nat :=
  match l with
  | [] => [i]
  | j :: l' =>
      if Qle_bool (nth i a 0) (nth j a 0) then i :: l
      else j :: insert_by a i l'
  end.

Definition argsort (a : list Q) (kth : nat) : list nat :=
  foldr (insert_by a) [] (seq 0 (length a)).

(** A generator whose state counts its draws and whose draw below [n]
    is the count modulo [n]. *)
Definition counting_randbelow (s n : nat) : nat * nat :=
  ((s mod n)%nat, S s).

(** The ensemble fitted on the models c, a, b. *)
Definition fitted_cab : HMMClassifier.t Q :=
  {| HMMClassifier._models_ := Some models_cab;
     HMMClassifier._encoder_ :=
       Some (Py.unique (HMMClassifier.label <$> models_cab)) |}.

(** A k-NN classifier over such sequences, constructed and fitted. *)
Definition knn (k : Z) (X : list Z) (y : list string)
  : result (DTWKNN.t unit) :=
  c ← DTWKNN.__init__ k 1 tt; DTWKNN.fit c X y.

(** One neighbour, three references labelled a, b, a. *)
Definition three_refs : DTWKNN.t unit :=
  {| DTWKNN._k := 1; DTWKNN._radius := 1; DTWKNN._metric := tt;
     DTWKNN._X := Some [0; 5; 9]%Z;
     DTWKNN._y := Some ["a"; "b"; "a"]%string |}.

(** One neighbour, a single reference. *)
Definition one_ref : DTWKNN.t unit :=
  {| DTWKNN._k := 1; DTWKNN._radius := 1; DTWKNN._metric := tt;
     DTWKNN._X := Some [0%Z]; DTWKNN._y := Some ["a"%string] |}.

(** Two neighbours, three references labelled a, b, c; a query at [1] is
    equally close to the first two. *)
Definition tied_refs : DTWKNN.t unit :=
  {| DTWKNN._k := 2; DTWKNN._radius := 1; DTWKNN._metric := tt;
     DTWKNN._X := Some [0; 2; 10]%Z;
     DTWKNN._y := Some ["a"; "b"; "c"]%string |}.

(** One neighbour, three references of one, two and one frames labelled
    a, b, a. *)
Definition frames_refs : DTWKNN.t unit :=
  {| DTWKNN._k := 1; DTWKNN._radius := 1; DTWKNN._metric := tt;
     DTWKNN._X := Some [[0]; [2; 3]; [9]]%Z;
     DTWKNN._y := Some ["a"; "b"; "a"]%string |}.

(** Worker processes whose generators all start from the count one. *)
Definition workers_at_one (process : nat) : nat := 1%nat.

(** Eleven references [0..10], labelled l0..l10. *)
Definition refs11 : list Z := Z.of_nat <$> seq 0 11.
Definition labels11 : list string :=
  (λ i, ("l" ++ DTWKNN.str i)%string) <$> seq 0 11.

(** A Gaussian-mixture model with nothing skipped, and the same model
    after its transition probabilities were frozen. *)
Definition fresh_hmm : Variants.HMM :=
  {| Variants._skip_init_params := ∅; Variants._skip_params := ∅;
     Variants.hmmlearn_init_params := "stmcw";
     Variants.hmmlearn_params := "stmcw" |}.

Definition frozen_transitions : Variants.HMM :=
  Variants.base_freeze "t" fresh_hmm.

(** A stand-in for the logarithm. *)
Definition log_stub (q : Q) : Q := q - 1.

(** A sampler that always returns the centre of the simplex and counts
    its draws. *)
Definition flat_dirichlet (s : nat) (alpha : list Q) : list Q * nat :=
  (replicate (length alpha) (1 / Qnat (length alpha)), S s).

(** A matrix whose rows sum to one although one entry is negative. *)
Definition with_negative : list (list Q) := [[2; -1]; [1 # 2; 1 # 2]].

(** Three models given to [fit] in increasing label order; the models of
    b and c are equally likely, the model of a far less. *)
Definition models_abc : list (HMMClassifier.GMMHMM Q) :=
  [model "a" (-5); model "b" 0; model "c" 0].

Definition fitted_abc : HMMClassifier.t Q :=
  {| HMMClassifier._models_ := Some models_abc;
     HMMClassifier._encoder_ :=
       Some (Py.unique (HMMClassifier.label <$> models_abc)) |}.

(** Two models of the same class; the second is the more likely one. *)
Definition models_aa : list (HMMClassifier.GMMHMM Q) :=
  [model "a" (-5); model "a" 0].

(** A confusion matrix computed by counting pairs, over class indices
    and over labels. *)
Definition index_confusion_matrix
    (y_true y_pred labels : list HMMClassifier.label_out)
  : result (list (list nat)) :=
  Ok (Py.pair_counts y_true y_pred labels).

Definition label_confusion_matrix (y_true y_pred : list string)
    (labels : option (list string)) : result (list (list nat)) :=
  Ok (Py.pair_counts y_true y_pred
        (default (Py.unique (y_true ++ y_pred)) labels)).

End Inputs.

(** * Properties *)

(** ** Facts about the array operations *)

Section NumpyFacts.
Import Numpy.

Lemma replicate_fmap_seq {A} (x : A) (n s : nat) :
  replicate n x = (λ _, x) <$> seq s n.
Proof.
  revert s; induction n as [|n IH]; intros s; [done|].
  cbn [replicate seq]. rewrite fmap_cons. f_equal. apply IH.
Qed.

Lemma imap_fmap_seq {A B} (f : nat → A → B) (g : nat → A) (n : nat) :
  imap f (g <$> seq 0 n) = (λ i, f i (g i)) <$> seq 0 n.
Proof.
  apply list_eq; intros i.
  rewrite list_lookup_imap, !list_lookup_fmap.
  destruct (decide (i < n)%nat) as [Hi|Hi].
  - by rewrite lookup_seq_lt.
  - by rewrite lookup_seq_ge by lia.
Qed.

Lemma zip_with_fmap_seq {A B C} (f : A → B → C) (g : nat → A)
    (h : nat → B) (l : list nat) :
  zip_with f (g <$> l) (h <$> l) = (λ i, f (g i) (h i)) <$> l.
Proof.
  induction l as [|x l IH]; [done|].
  rewrite !fmap_cons. cbn [zip_with]. by rewrite IH.
Qed.

Lemma table_length n m f : length (table n m f) = n.
Proof. unfold table. by rewrite length_fmap, length_seq. Qed.

Lemma table_lookup n m f i :
  (i < n)%nat → table n m f !! i = Some (f i <$> seq 0 m).
Proof.
  intros Hi. unfold table. by rewrite list_lookup_fmap, lookup_seq_lt.
Qed.

Lemma table_entry n m f i j :
  (i < n)%nat → (j < m)%nat → entry (table n m f) i j = Some (f i j).
Proof.
  intros Hi Hj. unfold entry. rewrite table_lookup by done. simpl.
  by rewrite list_lookup_fmap, lookup_seq_lt.
Qed.

Lemma table_ext n m f g :
  (∀ i j, (i < n)%nat → (j < m)%nat → f i j = g i j) →
  table n m f = table n m g.
Proof.
  intros H. unfold table. apply list_fmap_ext. intros i x Hx.
  apply lookup_seq in Hx as [-> Hi]. apply list_fmap_ext.
  intros j y Hy. apply lookup_seq in Hy as [-> Hj]. by apply H.
Qed.

Lemma replicate2_table {n m} (c : Q) :
  replicate n (replicate m c) = table n m (λ _ _, c).
Proof.
  unfold table. rewrite (replicate_fmap_seq _ n 0).
  by rewrite (replicate_fmap_seq c m 0).
Qed.

Lemma triu_table n m f k :
  triu (table n m f) k =
  table n m (λ i j, if (k <=? Z.of_nat j - Z.of_nat i)%Z then f i j else 0).
Proof.
  unfold triu, table. rewrite imap_fmap_seq. apply list_fmap_ext.
  intros _ i _. by rewrite imap_fmap_seq.
Qed.

Lemma tril_table n m f k :
  tril (table n m f) k =
  table n m (λ i j, if (Z.of_nat j - Z.of_nat i <=? k)%Z then f i j else 0).
Proof.
  unfold tril, table. rewrite imap_fmap_seq. apply list_fmap_ext.
  intros _ i _. by rewrite imap_fmap_seq.
Qed.

Lemma madd_table n m f g :
  madd (table n m f) (table n m g) = table n m (λ i j, f i j + g i j).
Proof.
  unfold madd, table. rewrite zip_with_fmap_seq. apply list_fmap_ext.
  intros _ i _. by rewrite zip_with_fmap_seq.
Qed.

Lemma mdiv_table n m f g :
  mdiv (table n m f) (table n m g) = table n m (λ i j, f i j / g i j).
Proof.
  unfold mdiv, table. rewrite zip_with_fmap_seq. apply list_fmap_ext.
  intros _ i _. by rewrite zip_with_fmap_seq.
Qed.

Lemma mdiv_scalar_table n m f c :
  mdiv_scalar (table n m f) c = table n m (λ i j, f i j / c).
Proof.
  unfold mdiv_scalar, vdiv_scalar, table. rewrite <- list_fmap_compose.
  apply list_fmap_ext. intros _ i _. simpl.
  by rewrite <- list_fmap_compose.
Qed.

Lemma transpose_table n m f :
  (0 < n)%nat → transpose (table n m f) = table m n (λ j i, f i j).
Proof.
  intros Hn. unfold transpose.
  pose proof (table_lookup n m f 0 Hn) as H0.
  destruct (table n m f) as [|r M] eqn:E; [done|].
  simpl in H0. injection H0 as ->. rewrite <- E.
  rewrite imap_fmap_seq. unfold table at 2. apply list_fmap_ext.
  intros j' j Hj. apply lookup_seq in Hj as [-> Hj]. simpl.
  unfold table. rewrite <- list_fmap_compose. apply list_fmap_ext.
  intros _ i _. simpl.
  apply nth_lookup_Some. by rewrite list_lookup_fmap, lookup_seq_lt.
Qed.

Lemma arange_down (n : nat) :
  arange (Z.of_nat n) 0 (-1) = (λ i, (Z.of_nat n - Z.of_nat i)%Z) <$> seq 0 n.
Proof.
  unfold arange. change (0 <? -1)%Z with false. cbv iota.
  replace ((Z.of_nat n - 0 + - -1 - 1) / - -1)%Z with (Z.of_nat n).
  - rewrite Nat2Z.id. apply list_fmap_ext. intros _ i _. lia.
  - change (- -1)%Z with 1%Z. rewrite Z.div_1_r. lia.
Qed.

Lemma has_shape_spec T n m :
  has_shape T n m = true ↔ length T = n ∧ Forall (λ r, length r = m) T.
Proof.
  unfold has_shape. rewrite andb_true_iff, Nat.eqb_eq, forallb_forall.
  rewrite Forall_forall. split; intros [H1 H2]; split; try done.
  - intros r Hr. apply Nat.eqb_eq, H2. by apply list_elem_of_In.
  - intros r Hr. apply Nat.eqb_eq, H2. by apply list_elem_of_In.
Qed.

Lemma fmap_seq_nth {A} (l : list A) (d : A) :
  l = (λ i, nth i l d) <$> seq 0 (length l).
Proof.
  apply list_eq; intros i. rewrite list_lookup_fmap.
  destruct (decide (i < length l)%nat) as [Hi|Hi].
  - rewrite lookup_seq_lt by done. simpl.
    destruct (lookup_lt_is_Some_2 l i Hi) as [x Hx].
    rewrite Hx. f_equal. symmetry. by apply nth_lookup_Some.
  - rewrite lookup_seq_ge by lia. simpl. apply lookup_ge_None. lia.
Qed.

(** An array of shape [(n, m)] is the table of its entries. *)
Lemma table_of_shape T n m :
  has_shape T n m = true →
  T = table n m (λ i j, nth j (nth i T []) 0).
Proof.
  rewrite has_shape_spec. intros [Hn Hm]. unfold table.
  rewrite (fmap_seq_nth T []) at 1. rewrite Hn.
  apply list_fmap_ext. intros i x Hx. apply lookup_seq in Hx as [-> Hi].
  cbn [Nat.add]. assert (length (nth i T []) = m) as Hl.
  { destruct (lookup_lt_is_Some_2 T i) as [r Hr]; [lia|].
    rewrite (nth_lookup_Some _ _ _ _ Hr).
    rewrite Forall_forall in Hm. apply Hm. by eapply list_elem_of_lookup_2. }
  rewrite (fmap_seq_nth (nth i T []) 0) at 1. by rewrite Hl.
Qed.

Lemma has_shape_table n m f : has_shape (table n m f) n m = true.
Proof.
  apply has_shape_spec. split; [apply table_length|].
  unfold table. apply Forall_fmap, Forall_forall. intros i _. simpl.
  by rewrite length_fmap, length_seq.
Qed.

Lemma forallb_id_fmap_seq (p : nat → bool) (l : list nat) :
  forallb id (p <$> l) = true ↔ ∀ i, i ∈ l → p i = true.
Proof.
  rewrite forallb_forall. split.
  - intros H i Hi. apply (H (p i)). apply list_elem_of_In.
    by apply list_elem_of_fmap_2.
  - intros H b Hb. apply list_elem_of_In in Hb.
    apply list_elem_of_fmap in Hb as (i & -> & Hi). by apply H.
Qed.

Lemma elem_of_seq_0 i n : i ∈ seq 0 n ↔ (i < n)%nat.
Proof. rewrite elem_of_seq. lia. Qed.

Lemma allclose_fmap_seq (f g : nat → Q) (m : nat) :
  allclose (f <$> seq 0 m) (g <$> seq 0 m) = true ↔
  ∀ j, (j < m)%nat → isclose (f j) (g j) = true.
Proof.
  unfold allclose. rewrite zip_with_fmap_seq, forallb_id_fmap_seq.
  by setoid_rewrite elem_of_seq_0.
Qed.

Lemma allclose2_table n m f g :
  allclose2 (table n m f) (table n m g) = true ↔
  ∀ i j, (i < n)%nat → (j < m)%nat → isclose (f i j) (g i j) = true.
Proof.
  unfold allclose2, table. rewrite zip_with_fmap_seq, forallb_id_fmap_seq.
  setoid_rewrite elem_of_seq_0. setoid_rewrite allclose_fmap_seq.
  split; [intros H i j Hi Hj|intros H i Hi j Hj]; by apply H.
Qed.

Lemma row_sums_table n m f :
  allclose (sum_axis1 (table n m f)) (ones n) = true ↔
  ∀ i, (i < n)%nat → isclose (sum (f i <$> seq 0 m)) 1 = true.
Proof.
  unfold sum_axis1, table, ones. rewrite <- list_fmap_compose.
  rewrite (replicate_fmap_seq 1 n 0). by rewrite allclose_fmap_seq.
Qed.

Lemma all_positive_table n m f :
  all_positive (table n m f) = true ↔
  ∀ i j, (i < n)%nat → (j < m)%nat → 0 < f i j.
Proof.
  unfold all_positive, table. rewrite forallb_forall. split.
  - intros H i j Hi Hj.
    specialize (H (f i <$> seq 0 m)). rewrite forallb_forall in H.
    assert (negb (Qle_bool (f i j) 0) = true) as Hp.
    { apply H.
      - apply list_elem_of_In, list_elem_of_fmap.
        exists i. split; [done|]. by apply elem_of_seq_0.
      - apply list_elem_of_In, list_elem_of_fmap.
        exists j. split; [done|]. by apply elem_of_seq_0. }
    apply negb_true_iff in Hp. apply Qnot_le_lt. intros Hle.
    apply Qle_bool_iff in Hle. congruence.
  - intros H r Hr. apply list_elem_of_In, list_elem_of_fmap in Hr
      as (i & -> & Hi%elem_of_seq_0).
    apply forallb_forall. intros q Hq.
    apply list_elem_of_In, list_elem_of_fmap in Hq
      as (j & -> & Hj%elem_of_seq_0).
    apply negb_true_iff. destruct (Qle_bool (f i j) 0) eqn:E; [|done].
    apply Qle_bool_iff in E. specialize (H i j Hi Hj).
    exfalso. by apply (Qlt_not_le _ _ H).
Qed.

Lemma isclose_spec a b :
  isclose a b = true ↔ Qabs (a - b) <= atol + rtol * Qabs b.
Proof. unfold isclose. apply Qle_bool_iff. Qed.

Lemma isclose_Qeq a b : a == b → isclose a b = true.
Proof.
  intros H. apply isclose_spec. rewrite H.
  assert (b - b == 0) as -> by ring. change (Qabs 0) with 0.
  pose proof (Qabs_nonneg b). unfold atol, rtol. nra.
Qed.

Lemma isclose_zero q z :
  z == 0 → isclose q z = true ↔ Qabs q <= atol.
Proof.
  intros H. rewrite isclose_spec, H.
  assert (q - 0 == q) as -> by ring. change (Qabs 0) with 0.
  by assert (atol + rtol * 0 == atol) as -> by ring.
Qed.

Lemma omap_fmap_seq_bound (g : nat → Q) (b s len : nat) :
  omap id ((λ i, if decide (i < b)%nat then Some (g i) else None)
             <$> seq s len) =
  g <$> seq s (len `min` (b - s)).
Proof.
  revert s; induction len as [|len IH]; intros s; [done|].
  cbn [seq]. rewrite fmap_cons. cbn [omap list_omap id]. rewrite IH.
  case_decide.
  - replace (S len `min` (b - s))%nat with (S (len `min` (b - S s)))%nat by lia.
    done.
  - replace (S len `min` (b - s))%nat with 0%nat by lia.
    by replace (len `min` (b - S s))%nat with 0%nat by lia.
Qed.

Lemma diag_of_table n f k :
  diag_of (table n n f) k = (λ i, f i (i + k)%nat) <$> seq 0 (n - k).
Proof.
  unfold diag_of, table. rewrite imap_fmap_seq.
  rewrite (list_fmap_ext _
    (λ i, if decide (i < n - k)%nat then Some (f i (i + k)%nat) else None)).
  - rewrite omap_fmap_seq_bound. f_equal. f_equal. lia.
  - intros i' i Hi%lookup_seq. destruct Hi as [-> Hi]. cbn [Nat.add].
    rewrite list_lookup_fmap. case_decide.
    + by rewrite lookup_seq_lt by lia.
    + by rewrite lookup_seq_ge by lia.
Qed.

Lemma diag_mat_fmap_seq (g : nat → Q) len k :
  diag_mat (g <$> seq 0 len) k =
  table (len + k) (len + k)
    (λ i j, if (j =? i + k)%nat then
              if decide (i < len)%nat then g i else 0
            else 0).
Proof.
  unfold diag_mat. rewrite length_fmap, length_seq.
  apply table_ext. intros i j Hi Hj. destruct (j =? i + k)%nat; [|done].
  case_decide.
  - apply nth_lookup_Some. by rewrite list_lookup_fmap, lookup_seq_lt.
  - apply nth_overflow. rewrite length_fmap, length_seq. lia.
Qed.

Lemma Qnat_S n : Qnat (S n) == Qnat n + 1.
Proof.
  unfold Qnat. rewrite Nat2Z.inj_succ, <- Z.add_1_r, inject_Z_plus.
  reflexivity.
Qed.

Lemma Qnat_pos n : (0 < n)%nat → 0 < Qnat n.
Proof.
  intros H. unfold Qnat. change 0 with (inject_Z 0).
  rewrite <- Zlt_Qlt. lia.
Qed.

Lemma sum_app a b : sum (a ++ b) == sum a + sum b.
Proof.
  induction a as [|x a IH]; simpl; [ring|]. rewrite IH. ring.
Qed.

Lemma sum_replicate n c : sum (replicate n c) == Qnat n * c.
Proof.
  induction n as [|n IH]; [unfold Qnat; simpl; ring|].
  cbn [replicate sum foldr]. fold (sum (replicate n c)).
  rewrite IH, Qnat_S. ring.
Qed.

Lemma sum_band n i v : sum (band n i v) == sum v.
Proof.
  unfold band. rewrite !sum_app, !sum_replicate. ring.
Qed.

Lemma sum_fmap_Qeq (f g : nat → Q) (l : list nat) :
  (∀ j, j ∈ l → f j == g j) → sum (f <$> l) == sum (g <$> l).
Proof.
  induction l as [|x l IH]; intros H; [reflexivity|].
  rewrite !fmap_cons. cbn [sum foldr].
  fold (sum (f <$> l)). fold (sum (g <$> l)).
  rewrite (H x) by left. rewrite IH; [reflexivity|].
  intros j Hj. apply H. by right.
Qed.

Lemma sum_fmap_const (c : Q) (l : list nat) :
  sum ((λ _, c) <$> l) == Qnat (length l) * c.
Proof.
  induction l as [|x l IH]; [unfold Qnat; simpl; ring|].
  rewrite fmap_cons. cbn [sum foldr length].
  fold (sum ((λ _, c) <$> l)). rewrite IH, Qnat_S. ring.
Qed.

Lemma length_band n i v :
  (i + length v ≤ n)%nat → length (band n i v) = n.
Proof.
  intros H. unfold band. rewrite !length_app, !length_replicate. lia.
Qed.

Lemma band_lookup_before n i v j :
  (j < i)%nat → band n i v !! j = Some 0.
Proof.
  intros H. unfold band. rewrite lookup_app_l by (rewrite length_replicate; lia).
  by apply lookup_replicate_2.
Qed.

Lemma band_lookup_after n i v j q :
  (i + length v ≤ j)%nat → band n i v !! j = Some q → q = 0.
Proof.
  intros H. unfold band.
  rewrite lookup_app_r by (rewrite length_replicate; lia).
  rewrite lookup_app_r by (rewrite length_replicate; lia).
  by intros [-> _]%lookup_replicate.
Qed.

Global Instance close_proper : Proper (Qeq ==> Qeq ==> iff) Topology.close.
Proof.
  intros a a' Ha b b' Hb. unfold Topology.close. by rewrite Ha, Hb.
Qed.

(** Writing a block of the right length into a row of zeros. *)
Lemma set_slice_zeros n i j v :
  (j ≤ n)%nat → (i + length v = j)%nat →
  set_slice (replicate n 0) i j v = Some (band n i v).
Proof.
  intros Hj Hv. unfold set_slice. rewrite length_replicate.
  replace (j `min` n - i)%nat with (length v) by lia.
  rewrite Nat.eqb_refl. f_equal. unfold band.
  rewrite take_replicate, drop_replicate. do 3 f_equal; lia.
Qed.

Lemma tile_table (g : nat → Q) n m :
  tile (g <$> seq 0 m) n = table n m (λ _ j, g j).
Proof. unfold tile, table. by rewrite (replicate_fmap_seq _ n 0). Qed.

End NumpyFacts.

(** ** Validation of transition matrices *)

Section TopologyFacts.
Import Numpy Topology.

(** Replace an array of known shape by the table of its entries. *)
Ltac as_table T E f :=
  let HT := fresh "HT" in
  pose proof (table_of_shape T _ _ E) as HT;
  set (f := λ i j : nat, nth j (nth i T []) 0) in HT;
  clearbody f; subst T.

Lemma rows_normalised_table n m f :
  rows_normalised (table n m f) ↔
  ∀ i, (i < n)%nat → close (sum (f i <$> seq 0 m)) 1.
Proof.
  unfold rows_normalised, table. rewrite Forall_fmap, Forall_seq.
  split; intros H i Hi; apply H; lia.
Qed.

Lemma entry_table_Some n m f i j q :
  entry (table n m f) i j = Some q ↔ (i < n)%nat ∧ (j < m)%nat ∧ q = f i j.
Proof.
  split.
  - intros H. unfold entry in H.
    destruct (decide (i < n)%nat) as [Hi|Hi].
    + rewrite table_lookup in H by done. simpl in H.
      rewrite list_lookup_fmap in H.
      destruct (decide (j < m)%nat) as [Hj|Hj].
      * rewrite lookup_seq_lt in H by done. simpl in H.
        by injection H as <-.
      * by rewrite lookup_seq_ge in H by lia.
    + rewrite (lookup_ge_None_2 (table n m f) i) in H; [done|].
      rewrite table_length. lia.
  - intros (Hi & Hj & ->). by apply table_entry.
Qed.

Lemma pattern_tol_table k n f :
  pattern_within_tolerance k (table n n f) ↔
  ∀ i j, (i < n)%nat → (j < n)%nat → outside_pattern k i j →
         Qabs (f i j) <= atol.
Proof.
  unfold pattern_within_tolerance. split.
  - intros H i j Hi Hj Ho. apply (H i j); [|done]. by apply table_entry.
  - intros H i j q (Hi & Hj & ->)%entry_table_Some Ho. by apply H.
Qed.

Lemma base_check_value n T T' :
  base_check_transitions n T = Ok T' → T' = T.
Proof.
  unfold base_check_transitions.
  destruct (negb (has_shape T n n)); [done|].
  destruct (negb _); [done|]. by intros [= <-].
Qed.

Lemma base_check_ok n T :
  is_ok (base_check_transitions n T) = true ↔
  shape_ok n T ∧ rows_normalised T.
Proof.
  unfold base_check_transitions.
  destruct (has_shape T n n) eqn:E; simpl.
  - pose proof (proj1 (has_shape_spec _ _ _) E) as Hs.
    as_table T E f. rewrite rows_normalised_table.
    destruct (allclose _ _) eqn:Ea; simpl.
    + split; [intros _|done]. split; [done|].
      intros i Hi. apply isclose_spec.
      by apply (proj1 (row_sums_table n n f) Ea).
    + split; [done|]. intros [_ H].
      assert (allclose (sum_axis1 (table n n f)) (ones n) = true) as Ht.
      { apply row_sums_table. intros i Hi. by apply isclose_spec, H. }
      congruence.
  - split; [done|]. intros [Hs _]. apply has_shape_spec in Hs. congruence.
Qed.

Lemma triu_check_table n f :
  allclose2 (table n n f) (triu (table n n f) 0) = true ↔
  ∀ i j, (i < n)%nat → (j < n)%nat → (j < i)%nat → Qabs (f i j) <= atol.
Proof.
  rewrite triu_table, allclose2_table. split.
  - intros H i j Hi Hj Hji. specialize (H i j Hi Hj).
    destruct (Z.leb_spec 0 (Z.of_nat j - Z.of_nat i)); [lia|].
    by apply (isclose_zero _ 0) in H.
  - intros H i j Hi Hj.
    destruct (Z.leb_spec 0 (Z.of_nat j - Z.of_nat i)).
    + by apply isclose_Qeq.
    + apply (isclose_zero _ 0); [done|]. apply H; lia.
Qed.

Lemma diag_check_table n f :
  allclose2 (table n n f)
    (madd (diag_mat (diag_of (table n n f) 0) 0)
          (diag_mat (diag_of (table n n f) 1) 1)) = true ↔
  ∀ i j, (i < n)%nat → (j < n)%nat → (j < i ∨ i + 1 < j)%nat →
         Qabs (f i j) <= atol.
Proof.
  destruct n as [|n]; [split; [intros _ i j Hi; lia|done]|].
  rewrite !diag_of_table, !diag_mat_fmap_seq.
  replace (S n - 0 + 0)%nat with (S n) by lia.
  replace (S n - 1 + 1)%nat with (S n) by lia.
  rewrite madd_table, allclose2_table.
  assert (∀ i j, (i < S n)%nat → (j < S n)%nat →
    (isclose (f i j)
       ((if (j =? i + 0)%nat
         then if decide (i < S n)%nat then f i (i + 0)%nat else 0 else 0) +
        (if (j =? i + 1)%nat
         then if decide (i < S n - 1)%nat then f i (i + 1)%nat else 0
         else 0)) = true
     ↔ ((j < i ∨ i + 1 < j)%nat → Qabs (f i j) <= atol))) as Hpt.
  { intros i j Hi Hj.
    destruct (Nat.eqb_spec j (i + 0)) as [->|Hne0].
    - destruct (Nat.eqb_spec (i + 0) (i + 1)); [lia|].
      rewrite decide_True by done. split; [intros _ ?; lia|intros _].
      apply isclose_Qeq. ring.
    - destruct (Nat.eqb_spec j (i + 1)) as [->|Hne1].
      + rewrite decide_True by lia. split; [intros _ ?; lia|intros _].
        apply isclose_Qeq. ring.
      + rewrite (isclose_zero _ (0 + 0)) by ring.
        split; [intros H _; done|intros H; apply H; lia]. }
  split.
  - intros H i j Hi Hj. apply Hpt; [done..|]. by apply H.
  - intros H i j Hi Hj. apply Hpt; [done..|]. by apply H.
Qed.

Lemma leftright_check_value n T T' :
  leftright_check_transitions n T = Ok T' → T' = T.
Proof.
  unfold leftright_check_transitions.
  destruct (base_check_transitions n T); simpl; [|done].
  destruct (negb _); [done|]. by intros [= <-].
Qed.

Lemma leftright_check_ok n T :
  is_ok (leftright_check_transitions n T) = true ↔
  shape_ok n T ∧ rows_normalised T ∧ pattern_within_tolerance LeftRight T.
Proof.
  unfold leftright_check_transitions.
  pose proof (base_check_ok n T) as Hb.
  destruct (base_check_transitions n T) as [T'|e]; simpl in *.
  - destruct Hb as [Hb _]. destruct (Hb eq_refl) as [Hs Hr].
    pose proof (proj2 (has_shape_spec _ _ _) Hs) as E.
    as_table T E f. rewrite pattern_tol_table.
    destruct (allclose2 _ _) eqn:Ea; simpl.
    + split; [intros _|done]. split; [done|split; [done|]].
      intros i j Hi Hj Ho. by apply (proj1 (triu_check_table n f) Ea).
    + split; [done|]. intros (_ & _ & Hp).
      apply triu_check_table in Hp. congruence.
  - split; [done|]. intros (Hs & Hr & _).
    destruct Hb as [_ Hb]. by discriminate Hb.
Qed.

Lemma linear_check_value n T T' :
  linear_check_transitions n T = Ok T' → T' = T.
Proof.
  unfold linear_check_transitions.
  destruct (leftright_check_transitions n T); simpl; [|done].
  destruct (negb _); [done|]. by intros [= <-].
Qed.

Lemma linear_check_ok n T :
  is_ok (linear_check_transitions n T) = true ↔
  shape_ok n T ∧ rows_normalised T ∧ pattern_within_tolerance Linear T.
Proof.
  unfold linear_check_transitions.
  pose proof (leftright_check_ok n T) as Hb.
  destruct (leftright_check_transitions n T) as [T'|e]; simpl in *.
  - destruct Hb as [Hb _]. destruct (Hb eq_refl) as (Hs & Hr & Hl).
    pose proof (proj2 (has_shape_spec _ _ _) Hs) as E.
    as_table T E f. rewrite pattern_tol_table.
    destruct (allclose2 _ _) eqn:Ea; simpl.
    + split; [intros _|done]. split; [done|split; [done|]].
      intros i j Hi Hj Ho. by apply (proj1 (diag_check_table n f) Ea).
    + split; [done|]. intros (_ & _ & Hp).
      apply diag_check_table in Hp. congruence.
  - split; [done|]. intros (Hs & Hr & Hp).
    destruct Hb as [_ Hb]. discriminate Hb. split; [done|split; [done|]].
    intros i j q Hq Ho. apply (Hp i j q Hq). by left.
Qed.

(** The three validators accept exactly the arrays of the right shape
    whose rows sum to one and whose off-pattern entries vanish, each
    within the comparison tolerance. *)
Lemma check_ok_iff k n T :
  is_ok (check_transitions k n T) = true ↔
  shape_ok n T ∧ rows_normalised T ∧ pattern_within_tolerance k T.
Proof.
  destruct k; unfold check_transitions.
  - pose proof (base_check_ok n T) as Hb.
    destruct (base_check_transitions n T); simpl in *.
    + split; [intros _|by destruct (negb _)].
      destruct Hb as [Hb _]. destruct (Hb eq_refl).
      split; [done|split; [done|]]. by intros i j q _ [].
    + split; [done|]. intros (Hs & Hr & _). by apply Hb.
  - pose proof (leftright_check_ok n T) as Hb.
    by destruct (leftright_check_transitions n T).
  - pose proof (linear_check_ok n T) as Hb.
    by destruct (linear_check_transitions n T).
Qed.

Lemma check_value k n T r :
  check_transitions k n T = Ok r → r.1 = T.
Proof.
  destruct k; unfold check_transitions.
  - destruct (base_check_transitions n T); simpl; [|done].
    by destruct (negb _); intros [= <-].
  - destruct (leftright_check_transitions n T) eqn:E; simpl; [|done].
    intros [= <-]. by apply leftright_check_value in E.
  - destruct (linear_check_transitions n T) eqn:E; simpl; [|done].
    intros [= <-]. by apply linear_check_value in E.
Qed.

Lemma is_ok_false_raises {A} (r : result A) :
  is_ok r = false ↔ raises r.
Proof.
  destruct r; simpl; split; try done.
  - by intros [e' ?].
  - by eexists.
Qed.

End TopologyFacts.

Section ValidationClaims.
Import Numpy Topology Inputs.

(** C8, as stated, fails: with "the zero-pattern is violated" read as
    "some entry outside the pattern is not zero", the left-right
    validator would have to reject [almost_triangular], whose entry
    below the diagonal is [1e-9]; it accepts it. *)
Lemma check_transitions_exact_pattern_counterexample :
  ¬ (raises (check_transitions LeftRight 2 almost_triangular) ↔
     (¬ shape_ok 2 almost_triangular ∨
      ¬ rows_normalised almost_triangular ∨
      ¬ pattern_exact LeftRight almost_triangular)).
Proof.
  intros [_ H]. destruct H as [e He].
  - right; right. intros Hp.
    specialize (Hp 1%nat 0%nat (1 # 1000000000) eq_refl).
    simpl in Hp. specialize (Hp ltac:(lia)). discriminate Hp.
  - vm_compute in He. discriminate He.
Qed.

(** C8 (amended): validation raises exactly when the shape is not
    [(n, n)], some row does not sum to one within tolerance, or some
    entry outside the topology's pattern exceeds the absolute tolerance
    [1e-8]; and an ergodic matrix of the right shape with valid row sums
    and an entry equal to zero is returned together with a warning. *)
Theorem check_transitions_raises_iff k n T :
  (raises (check_transitions k n T) ↔
     ¬ shape_ok n T ∨ ¬ rows_normalised T ∨
     ¬ pattern_within_tolerance k T) ∧
  (k = Ergodic → shape_ok n T → rows_normalised T →
   (∃ i j q, entry T i j = Some q ∧ q == 0) →
   check_transitions k n T = Ok (T, [zero_warning])).
Proof.
  split.
  - rewrite <- is_ok_false_raises. pose proof (check_ok_iff k n T) as Hc.
    split.
    + intros Hf. destruct (has_shape T n n) eqn:Es.
      * apply has_shape_spec in Es.
        destruct (is_ok (base_check_transitions n T)) eqn:Eb.
        -- apply base_check_ok in Eb as [_ Hr]. right; right. intros Hp.
           destruct Hc as [_ Hc]. rewrite Hc in Hf; done.
        -- right; left. intros Hr.
           assert (is_ok (base_check_transitions n T) = true)
             by by apply base_check_ok.
           congruence.
      * left. intros Hs%has_shape_spec. congruence.
    + intros Hn. destruct (is_ok (check_transitions k n T)); [|done].
      destruct Hc as [Hc _]. destruct (Hc eq_refl) as (? & ? & ?).
      by destruct Hn as [Hn|[Hn|Hn]].
  - intros -> Hs Hr (i & j & q & Hq & Hz). unfold check_transitions.
    assert (is_ok (base_check_transitions n T) = true) as Hb
      by by apply base_check_ok.
    destruct (base_check_transitions n T); [simpl|done].
    destruct (all_positive T) eqn:Ep; [|done]. exfalso.
    pose proof (proj2 (has_shape_spec _ _ _) Hs) as E.
    pose proof (table_of_shape T _ _ E) as HT. rewrite HT in Ep, Hq.
    apply entry_table_Some in Hq as (Hi & Hj & ->).
    pose proof (proj1 (all_positive_table _ _ _) Ep i j Hi Hj) as Hpos.
    rewrite Hz in Hpos. by apply (Qlt_irrefl 0).
Qed.

Lemma check_transitions_raises_iff_witness :
  check_transitions Ergodic 2 with_zero = Ok (with_zero, [zero_warning]).
Proof.
  apply (check_transitions_raises_iff Ergodic 2 with_zero).
  - reflexivity.
  - split; [reflexivity|]. repeat constructor.
  - repeat constructor; vm_compute; discriminate.
  - exists 0%nat, 1%nat, 0. split; reflexivity.
Defined.

End ValidationClaims.

(** ** Generation of transition matrices *)

Section GenerationFacts.
Import Numpy Topology.

Lemma for_rows_spec {St} (body : nat → vector → St → result (vector * St))
    (P : nat → vector → Prop) (M : matrix) :
  ∀ i0 s,
  (∀ i row s, (i0 ≤ i)%nat → M !! (i - i0)%nat = Some row →
     ∃ row' s', body i row s = Ok (row', s') ∧ P i row') →
  ∃ M' s', for_rows body i0 M s = Ok (M', s') ∧ length M' = length M ∧
           ∀ k r, M' !! k = Some r → P (i0 + k)%nat r.
Proof.
  induction M as [|row M IH]; intros i0 s H.
  - exists [], s. split; [done|]. split; [done|].
    intros k r. by rewrite lookup_nil.
  - destruct (H i0 row s) as (row' & s1 & Hb & HP);
      [lia|by rewrite Nat.sub_diag|].
    destruct (IH (S i0) s1) as (M' & s2 & Hf & Hl & HM).
    { intros i r s' Hi Hr. apply H; [lia|].
      by replace (i - i0)%nat with (S (i - S i0)) by lia. }
    exists (row' :: M'), s2. cbn [for_rows]. rewrite Hb. simpl.
    rewrite Hf. simpl. split; [done|]. split; [by rewrite Hl|].
    intros [|k] r; simpl.
    + intros [= <-]. by rewrite Nat.add_0_r.
    + intros Hr. replace (i0 + S k)%nat with (S i0 + k)%nat by lia.
      by apply HM.
Qed.

Lemma uniform_leftright_table n :
  (0 < n)%nat →
  uniform_transitions LeftRight n = Ok (table n n (lr_entries n)).
Proof.
  intros Hn. unfold uniform_transitions. f_equal.
  unfold ones2, ones, tril_vec. rewrite length_replicate.
  rewrite arange_down, <- list_fmap_compose, tile_table.
  rewrite transpose_table by done.
  rewrite !replicate2_table, !triu_table, tril_table, madd_table, mdiv_table.
  done.
Qed.

Lemma lr_entries_eq n i j :
  (i < n)%nat →
  lr_entries n i j == if (i <=? j)%nat then 1 / Qnat (n - i) else 0.
Proof.
  intros Hi. unfold lr_entries.
  destruct (Nat.leb_spec i j).
  - destruct (Z.leb_spec 0 (Z.of_nat j - Z.of_nat i)); [|lia].
    destruct (Z.leb_spec (Z.of_nat j - Z.of_nat i) (-1)); [lia|].
    unfold Qnat. rewrite Nat2Z.inj_sub by lia.
    assert (¬ inject_Z (Z.of_nat n - Z.of_nat i) == 0) as Hnz.
    { change 0 with (inject_Z 0). rewrite inject_Z_injective. lia. }
    by field.
  - destruct (Z.leb_spec 0 (Z.of_nat j - Z.of_nat i)); [lia|].
    destruct (Z.leb_spec (Z.of_nat j - Z.of_nat i) (-1)); [|lia].
    reflexivity.
Qed.

Lemma sum_step (c : Q) (i n : nat) :
  (i ≤ n)%nat →
  sum ((λ j, if (i <=? j)%nat then c else 0) <$> seq 0 n)
  == Qnat (n - i) * c.
Proof.
  intros Hi. replace n with (i + (n - i))%nat at 1 by lia.
  rewrite seq_app, fmap_app, sum_app. cbn [Nat.add].
  rewrite (sum_fmap_Qeq _ (λ _, 0)), (sum_fmap_Qeq _ (λ _, c) (seq i _)).
  - rewrite !sum_fmap_const, !length_seq. ring.
  - intros j Hj%elem_of_seq. by destruct (Nat.leb_spec i j); [|lia].
  - intros j Hj%elem_of_seq. by destruct (Nat.leb_spec i j); [lia|].
Qed.

Lemma Qnat_inv_sum n : (0 < n)%nat → Qnat n * (1 / Qnat n) == 1.
Proof.
  intros Hn. pose proof (Qnat_pos n Hn) as Hp.
  assert (¬ Qnat n == 0) by (intros E; rewrite E in Hp; by apply (Qlt_irrefl 0)).
  by field.
Qed.

Lemma close_one (x : Q) : x == 1 → close x 1.
Proof.
  intros ->. unfold close. vm_compute. discriminate.
Qed.

Lemma banded_rows_valid k n w T :
  banded_rows n w T →
  (k = Linear → ∀ i, (w i ≤ 2)%nat) →
  shape_ok n T ∧ rows_normalised T ∧ pattern_within_tolerance k T.
Proof.
  intros [Hl Hr] Hk. split; [split; [done|]|split].
  - apply Forall_lookup. intros i r Hi.
    destruct (Hr i r Hi) as (v & -> & Hv & Hw & _).
    apply length_band. lia.
  - apply Forall_lookup. intros i r Hi.
    destruct (Hr i r Hi) as (v & -> & _ & _ & Hc). by rewrite sum_band.
  - intros i j q Hq Ho. unfold entry in Hq.
    destruct (T !! i) as [r|] eqn:Hi; [simpl in Hq|done].
    destruct (Hr i r Hi) as (v & -> & Hv & Hw & _).
    assert (q = 0) as ->; [|vm_compute; discriminate].
    assert ((j < i)%nat → q = 0) as Hlow.
    { intros Hji. rewrite band_lookup_before in Hq by done. congruence. }
    destruct k; simpl in Ho; [done|by apply Hlow|].
    destruct Ho as [?|Ho]; [by apply Hlow|].
    apply (band_lookup_after n i v j); [|done].
    specialize (Hk eq_refl i). lia.
Qed.

Lemma checked k n T :
  shape_ok n T ∧ rows_normalised T ∧ pattern_within_tolerance k T →
  ∃ ws, check_transitions k n T = Ok (T, ws).
Proof.
  intros H%check_ok_iff.
  destruct (check_transitions k n T) as [[T' ws]|e] eqn:E; [|done].
  apply check_value in E as Hv. simpl in Hv. subst T'. by exists ws.
Qed.

End GenerationFacts.

Section UniformGeneration.
Import Numpy Topology.

Lemma uniform_ergodic_table n :
  uniform_transitions Ergodic n = Ok (table n n (λ _ _, 1 / Qnat n)).
Proof.
  unfold uniform_transitions, ones2, ones.
  by rewrite replicate2_table, mdiv_scalar_table.
Qed.

Lemma uniform_linear_rows n :
  ∃ T, uniform_transitions Linear n = Ok T ∧ length T = n ∧
    ∀ i r, T !! i = Some r →
      (i < n)%nat ∧
      r = band n i (replicate (2 `min` (n - i))
                      (1 / Qnat (2 `min` (n - i)))).
Proof.
  unfold uniform_transitions.
  edestruct (for_rows_spec
    (λ i row (_ : unit),
       row' ← of_option broadcast_error
                (set_slice row i (i + 2 `min` (n - i))
                   (vdiv_scalar (ones (2 `min` (n - i)))
                      (Qnat (2 `min` (n - i)))));
       Ok (row', ()))
    (λ i r, (i < n)%nat ∧
            r = band n i (replicate (2 `min` (n - i))
                            (1 / Qnat (2 `min` (n - i)))))
    (zeros2 n n) 0%nat ()) as (T & [] & Hf & Hl & HT).
  - intros i row [] _ Hrow. rewrite Nat.sub_0_r in Hrow.
    apply lookup_replicate in Hrow as [-> Hi].
    unfold vdiv_scalar, ones. rewrite fmap_replicate.
    rewrite set_slice_zeros; [|lia|rewrite length_replicate; lia].
    simpl. eauto.
  - exists T. rewrite Hf. simpl. split; [done|].
    unfold zeros2 in Hl. rewrite length_replicate in Hl. split; [done|].
    intros i r Hr. by apply (HT i r).
Qed.

Lemma uniform_block_sum w : (0 < w)%nat →
  close (sum (replicate w (1 / Qnat w))) 1.
Proof.
  intros Hw. apply close_one. rewrite sum_replicate.
  by apply Qnat_inv_sum.
Qed.

Lemma uniform_linear_banded n :
  ∃ T, uniform_transitions Linear n = Ok T ∧
       banded_rows n (λ i, 2 `min` (n - i))%nat T.
Proof.
  destruct (uniform_linear_rows n) as (T & HT & Hl & Hr).
  exists T. split; [done|]. split; [done|]. intros i r Hi.
  destruct (Hr i r Hi) as [Hlt ->]. eexists. split; [done|].
  rewrite length_replicate. split; [done|]. split; [lia|].
  apply uniform_block_sum. lia.
Qed.

Lemma uniform_valid k n :
  (1 ≤ n)%nat →
  ∃ T, uniform_transitions k n = Ok T ∧
       shape_ok n T ∧ rows_normalised T ∧ pattern_within_tolerance k T.
Proof.
  intros Hn. destruct k.
  - eexists. split; [apply uniform_ergodic_table|].
    split; [apply has_shape_spec, has_shape_table|]. split.
    + apply rows_normalised_table. intros i Hi. apply close_one.
      rewrite sum_fmap_const, length_seq. apply Qnat_inv_sum. lia.
    + by intros i j q _ [].
  - eexists. split; [by apply uniform_leftright_table|].
    split; [apply has_shape_spec, has_shape_table|]. split.
    + apply rows_normalised_table. intros i Hi. apply close_one.
      rewrite (sum_fmap_Qeq _
        (λ j, if (i <=? j)%nat then 1 / Qnat (n - i) else 0)).
      * rewrite sum_step by lia. apply Qnat_inv_sum. lia.
      * intros j _. by apply lr_entries_eq.
    + apply pattern_tol_table. intros i j Hi Hj Ho. simpl in Ho.
      rewrite lr_entries_eq by done.
      destruct (Nat.leb_spec i j); [lia|]. vm_compute. discriminate.
  - destruct (uniform_linear_banded n) as (T & HT & Hb).
    exists T. split; [done|].
    apply (banded_rows_valid Linear n _ T Hb). intros _ i. lia.
Qed.

End UniformGeneration.

Section RandomGeneration.
Import Numpy Topology.

Context {rng : Type} (dirichlet : rng → vector → vector * rng).

(** The sampler's contract: a sample has the length of its parameter
    vector and sums to one, within the comparison tolerance. *)
Hypothesis dirichlet_simplex : ∀ s alpha,
  alpha ≠ [] →
  length (dirichlet s alpha).1 = length alpha ∧
  close (sum (dirichlet s alpha).1) 1.

Lemma dirichlet_size_rows k alpha s :
  alpha ≠ [] →
  length (dirichlet_size dirichlet k alpha s).1 = k ∧
  Forall (λ v, length v = length alpha ∧ close (sum v) 1)
    (dirichlet_size dirichlet k alpha s).1.
Proof.
  intros Ha. revert s. induction k as [|k IH]; intros s; [by split|].
  cbn [dirichlet_size].
  pose proof (dirichlet_simplex s alpha Ha) as Hd.
  destruct (dirichlet s alpha) as [v s1]. specialize (IH s1).
  destruct (dirichlet_size dirichlet k alpha s1) as [M s2].
  simpl in *. destruct IH as [IH1 IH2]. split; [by rewrite IH1|].
  by constructor.
Qed.

Lemma random_banded n (w : nat → nat) s
    (slice_end : nat → vector → nat) :
  (∀ i, (i < n)%nat → (0 < w i)%nat ∧ (i + w i ≤ n)%nat) →
  (∀ i row, (i < n)%nat → length row = n →
     slice_end i row = (i + w i)%nat) →
  ∃ T s',
    for_rows (λ i row s,
      let '(v, s') := dirichlet s (ones (w i)) in
      row' ← of_option broadcast_error (set_slice row i (slice_end i row) v);
      Ok (row', s')) 0%nat (zeros2 n n) s = Ok (T, s') ∧
    banded_rows n w T.
Proof.
  intros Hw Hend.
  edestruct (for_rows_spec
    (λ i row s,
      let '(v, s') := dirichlet s (ones (w i)) in
      row' ← of_option broadcast_error (set_slice row i (slice_end i row) v);
      Ok (row', s'))
    (λ i r, ∃ v, r = band n i v ∧ length v = w i ∧ (i + w i ≤ n)%nat ∧
                 close (sum v) 1)
    (zeros2 n n) 0%nat s) as (T & s' & Hf & Hl & HT).
  - intros i row s0 _ Hrow. rewrite Nat.sub_0_r in Hrow.
    apply lookup_replicate in Hrow as [-> Hi].
    destruct (Hw i Hi) as [Hpos Hle].
    assert (ones (w i) ≠ []) as Hne.
    { unfold ones. destruct (w i); [lia|done]. }
    pose proof (dirichlet_simplex s0 (ones (w i)) Hne) as [Hlen Hsum].
    destruct (dirichlet s0 (ones (w i))) as [v s1]. simpl in *.
    unfold ones in Hlen. rewrite length_replicate in Hlen.
    rewrite Hend by (by rewrite ?length_replicate).
    rewrite set_slice_zeros by lia. simpl.
    exists (band n i v), s1. split; [done|]. by exists v.
  - exists T, s'. split; [done|]. unfold zeros2 in Hl.
    rewrite length_replicate in Hl. split; [done|].
    intros i r Hr. by apply (HT i r).
Qed.

Lemma random_valid k n s :
  (1 ≤ n)%nat →
  ∃ T s', random_transitions dirichlet k n s = Ok (T, s') ∧
    shape_ok n T ∧ rows_normalised T ∧ pattern_within_tolerance k T.
Proof.
  intros Hn. destruct k; unfold random_transitions.
  - assert (ones n ≠ []) as Hne.
    { unfold ones. destruct n; [lia|done]. }
    pose proof (dirichlet_size_rows n (ones n) s Hne) as [Hl Hr].
    destruct (dirichlet_size dirichlet n (ones n) s) as [T s'].
    simpl in *. exists T, s'. split; [done|].
    unfold ones in Hr. rewrite length_replicate in Hr.
    split; [split; [done|]|split].
    + eapply Forall_impl; [exact Hr|]. by intros v [? _].
    + eapply Forall_impl; [exact Hr|]. by intros v [_ ?].
    + by intros i j q _ [].
  - destruct (random_banded n (λ i, n - i)%nat s (λ _ row, length row))
      as (T & s' & Hf & Hb).
    + intros i Hi. lia.
    + intros i row Hi ->. lia.
    + exists T, s'. split; [done|].
      by apply (banded_rows_valid LeftRight n _ T Hb).
  - destruct (random_banded n (λ i, 2 `min` (n - i))%nat s
                (λ i _, i + 2 `min` (n - i))%nat) as (T & s' & Hf & Hb).
    + intros i Hi. lia.
    + done.
    + exists T, s'. split; [done|].
      apply (banded_rows_valid Linear n _ T Hb). intros _ i. lia.
Qed.

End RandomGeneration.

Section GenerationClaims.
Import Numpy Topology Inputs.

Lemma flat_dirichlet_simplex s alpha :
  alpha ≠ [] →
  length (flat_dirichlet s alpha).1 = length alpha ∧
  close (sum (flat_dirichlet s alpha).1) 1.
Proof.
  intros Ha. unfold flat_dirichlet. simpl. rewrite length_replicate.
  split; [done|]. apply uniform_block_sum. destruct alpha; [done|simpl; lia].
Qed.

(** C6: for every topology and every [n >= 1], the uniform transition
    matrix and every random transition matrix (drawn with a sampler whose
    samples have the requested length and sum to one within tolerance)
    are produced without error and pass [check_transitions] for the same
    topology and [n]. *)
Theorem generated_transitions_validate {rng}
    (dirichlet : rng → vector → vector * rng) :
  (∀ s alpha, alpha ≠ [] →
     length (dirichlet s alpha).1 = length alpha ∧
     close (sum (dirichlet s alpha).1) 1) →
  ∀ k n, (1 ≤ n)%nat →
    (∃ T ws, uniform_transitions k n = Ok T ∧
             check_transitions k n T = Ok (T, ws)) ∧
    (∀ s, ∃ T s' ws, random_transitions dirichlet k n s = Ok (T, s') ∧
                     check_transitions k n T = Ok (T, ws)).
Proof.
  intros Hd k n Hn. split.
  - destruct (uniform_valid k n Hn) as (T & HT & Hv).
    destruct (checked k n T Hv) as [ws Hws]. by exists T, ws.
  - intros s. destruct (random_valid dirichlet Hd k n s Hn)
      as (T & s' & HT & Hv).
    destruct (checked k n T Hv) as [ws Hws]. by exists T, s', ws.
Qed.

Lemma generated_transitions_validate_witness :
  (1 ≤ 3)%nat ∧
  (∃ T ws, uniform_transitions Linear 3 = Ok T ∧
           check_transitions Linear 3 T = Ok (T, ws)) ∧
  (∀ s, ∃ T s' ws,
     random_transitions flat_dirichlet Linear 3 s = Ok (T, s') ∧
     check_transitions Linear 3 T = Ok (T, ws)).
Proof.
  split; [lia|].
  apply (generated_transitions_validate flat_dirichlet
           flat_dirichlet_simplex Linear 3).
  lia.
Defined.

Lemma same_entries_table n m f g :
  (∀ i j, (i < n)%nat → (j < m)%nat → f i j == g i j) →
  same_entries (table n m f) (table n m g).
Proof.
  intros H. unfold same_entries, table. apply Forall2_fmap.
  apply Forall_Forall2_diag, Forall_seq. intros i Hi.
  unfold same_vector. apply Forall2_fmap.
  apply Forall_Forall2_diag, Forall_seq. intros j Hj. apply H; lia.
Qed.

Lemma band_lookup_in n i v j :
  (i ≤ j)%nat → (j < i + length v)%nat →
  band n i v !! j = v !! (j - i)%nat.
Proof.
  intros H1 H2. unfold band.
  rewrite lookup_app_r by (rewrite length_replicate; lia).
  rewrite length_replicate. apply lookup_app_l. lia.
Qed.

(** The entries of the uniform linear matrix. *)
Lemma uniform_linear_entries n i j q :
  (i < n)%nat → (j < n)%nat →
  band n i (replicate (2 `min` (n - i))
              (1 / Qnat (2 `min` (n - i)))) !! j = Some q →
  q == if (S i =? n)%nat then (if (j =? i)%nat then 1 else 0)
       else if (j =? i)%nat || (j =? i + 1)%nat then 1 # 2 else 0.
Proof.
  intros Hi Hj Hq.
  destruct (decide (j < i)%nat) as [Hlow|Hlow].
  { rewrite band_lookup_before in Hq by done. injection Hq as <-.
    destruct (Nat.eqb_spec j i); [lia|].
    destruct (Nat.eqb_spec j (i + 1)); [lia|].
    by destruct (S i =? n)%nat. }
  destruct (decide (j < i + 2 `min` (n - i))%nat) as [Hin|Hout].
  - rewrite band_lookup_in in Hq by (rewrite ?length_replicate; lia).
    apply lookup_replicate in Hq as [-> _].
    destruct (Nat.eqb_spec (S i) n) as [E|E].
    + replace (2 `min` (n - i))%nat with 1%nat in * by lia.
      destruct (Nat.eqb_spec j i); [|lia]. reflexivity.
    + replace (2 `min` (n - i))%nat with 2%nat in * by lia.
      destruct (Nat.eqb_spec j i); [reflexivity|].
      destruct (Nat.eqb_spec j (i + 1)); [reflexivity|lia].
  - apply band_lookup_after in Hq; [|rewrite length_replicate; lia].
    subst q. destruct (Nat.eqb_spec (S i) n) as [E|E].
    + replace (2 `min` (n - i))%nat with 1%nat in * by lia.
      destruct (Nat.eqb_spec j i); [lia|]. reflexivity.
    + replace (2 `min` (n - i))%nat with 2%nat in * by lia.
      destruct (Nat.eqb_spec j i); [lia|].
      destruct (Nat.eqb_spec j (i + 1)); [lia|]. reflexivity.
Qed.

(** C7: for every [n >= 1], uniform generation yields the initial
    distribution with every entry [1/n], the ergodic matrix with every
    entry [1/n], the left-right matrix whose row [i] is [1/(n-i)] on
    columns [i..n-1] and zero elsewhere, and the linear matrix whose row
    [i] is [1/2] on columns [i] and [i+1] (one on column [i] in the last
    row) and zero elsewhere. *)
Theorem uniform_generation_exact n :
  (1 ≤ n)%nat →
  same_vector (uniform_start_probs n) (replicate n (1 / Qnat n)) ∧
  (∃ T, uniform_transitions Ergodic n = Ok T ∧
        same_entries T (table n n (λ _ _, 1 / Qnat n))) ∧
  (∃ T, uniform_transitions LeftRight n = Ok T ∧
        same_entries T
          (table n n (λ i j,
             if (i <=? j)%nat then 1 / Qnat (n - i) else 0))) ∧
  (∃ T, uniform_transitions Linear n = Ok T ∧
        same_entries T
          (table n n (λ i j,
             if (S i =? n)%nat then (if (j =? i)%nat then 1 else 0)
             else if (j =? i)%nat || (j =? i + 1)%nat then 1 # 2
                  else 0))).
Proof.
  intros Hn. split; [|split; [|split]].
  - unfold uniform_start_probs, vdiv_scalar, ones.
    rewrite fmap_replicate. apply Forall_Forall2_diag, Forall_forall.
    by intros q _.
  - eexists. split; [apply uniform_ergodic_table|].
    by apply same_entries_table.
  - eexists. split; [by apply uniform_leftright_table|].
    apply same_entries_table. intros i j Hi Hj. by apply lr_entries_eq.
  - destruct (uniform_linear_rows n) as (T & HT & Hl & Hr).
    exists T. split; [done|].
    apply Forall2_same_length_lookup_2; [by rewrite table_length|].
    intros i r r' Hi Hi'. destruct (Hr i r Hi) as [Hlt ->].
    rewrite table_lookup in Hi' by done. injection Hi' as <-.
    apply Forall2_same_length_lookup_2.
    { rewrite length_fmap, length_seq. apply length_band.
      rewrite length_replicate. lia. }
    intros j q q' Hq Hq'.
    assert (j < n)%nat as Hj.
    { apply lookup_lt_Some in Hq'.
      by rewrite length_fmap, length_seq in Hq'. }
    rewrite list_lookup_fmap, lookup_seq_lt in Hq' by done.
    injection Hq' as <-. by apply (uniform_linear_entries n i j q).
Qed.

Lemma uniform_generation_exact_witness :
  (1 ≤ 3)%nat ∧
  same_vector (uniform_start_probs 3) (replicate 3 (1 / Qnat 3)) ∧
  (∃ T, uniform_transitions Ergodic 3 = Ok T ∧
        same_entries T (table 3 3 (λ _ _, 1 / Qnat 3))) ∧
  (∃ T, uniform_transitions LeftRight 3 = Ok T ∧
        same_entries T
          (table 3 3 (λ i j,
             if (i <=? j)%nat then 1 / Qnat (3 - i) else 0))) ∧
  (∃ T, uniform_transitions Linear 3 = Ok T ∧
        same_entries T
          (table 3 3 (λ i j,
             if (S i =? 3)%nat then (if (j =? i)%nat then 1 else 0)
             else if (j =? i)%nat || (j =? i + 1)%nat then 1 # 2
                  else 0))).
Proof.
  split; [lia|]. apply (uniform_generation_exact 3). lia.
Defined.

End GenerationClaims.

(** ** The error monad *)

Section ResultFacts.

Lemma mapM_Ok_fmap {A B} (f : A → result B) (g : A → B) (l : list A) :
  (∀ x, x ∈ l → f x = Ok (g x)) → mapM f l = Ok (g <$> l).
Proof.
  induction l as [|x l IH]; intros H; [done|].
  cbn [mapM]. rewrite (H x) by left. simpl.
  rewrite IH by (intros y Hy; apply H; by right). done.
Qed.

Lemma mapM_app {A B} (f : A → result B) (l1 l2 : list A) :
  mapM f (l1 ++ l2) =
  r1 ← mapM f l1; r2 ← mapM f l2; Ok (r1 ++ r2).
Proof.
  induction l1 as [|x l1 IH].
  - simpl. by destruct (mapM f l2).
  - cbn [app mapM]. destruct (f x); simpl; [|done]. rewrite IH.
    destruct (mapM f l1); simpl; [|done]. by destruct (mapM f l2).
Qed.

Lemma mapM_Ok_length {A B} (f : A → result B) (l : list A) (r : list B) :
  mapM f l = Ok r → length r = length l.
Proof.
  revert r; induction l as [|x l IH]; intros r.
  - by intros [= <-].
  - cbn [mapM]. destruct (f x); simpl; [|done].
    destruct (mapM f l) as [r'|]; simpl; [|done].
    intros [= <-]. simpl. by rewrite (IH r').
Qed.

End ResultFacts.

(** ** Splitting a batch into chunks *)

Section ChunkFacts.
Import Py.
Local Open Scope nat_scope.

Lemma split_sizes_concat {A} (sizes : list nat) (l : list A) :
  sum_list sizes = length l → concat (split_sizes sizes l) = l.
Proof.
  revert l; induction sizes as [|k ks IH]; intros l H; simpl in *.
  - symmetry. by apply nil_length_inv.
  - rewrite IH; [apply take_drop|]. rewrite length_drop. lia.
Qed.

Lemma split_sizes_length {A} (sizes : list nat) (l : list A) :
  length (split_sizes sizes l) = length sizes.
Proof.
  revert l; induction sizes as [|k ks IH]; intros l; simpl; [done|].
  by rewrite IH.
Qed.

Lemma split_sizes_nonempty {A} (sizes : list nat) (l : list A) :
  sum_list sizes = length l → Forall (λ k, 0 < k)%nat sizes →
  Forall (λ c, c ≠ []) (split_sizes sizes l).
Proof.
  revert l; induction sizes as [|k ks IH]; intros l H Hpos; simpl in *.
  - constructor.
  - inversion Hpos as [|? ? Hk Hks]; subst. constructor.
    + intros E. apply (f_equal length) in E.
      rewrite length_take in E. simpl in E. lia.
    + apply IH; [|done]. rewrite length_drop. lia.
Qed.

Lemma chunk_sizes_sum (len n : nat) :
  (0 < n)%nat →
  sum_list (replicate (len mod n) (S (len / n)) ++
            replicate (n - len mod n) (len / n)) = len.
Proof.
  intros Hn. rewrite sum_list_with_app, !sum_list_replicate.
  pose proof (Nat.div_mod len n ltac:(lia)) as Hd.
  pose proof (Nat.mod_upper_bound len n ltac:(lia)) as Hm.
  nia.
Qed.

(** [np.array_split] cuts a batch into [n] contiguous chunks whose
    concatenation is the batch; no chunk is empty when [n <= len]. *)
Lemma array_split_spec {A} (l : list A) (n : nat) :
  (0 < n)%nat →
  ∃ chunks, array_split l n = Ok chunks ∧ concat chunks = l ∧
            length chunks = n ∧
            ((n ≤ length l)%nat → Forall (λ c, c ≠ []) chunks).
Proof.
  intros Hn. unfold array_split.
  destruct (Nat.eqb_spec n 0); [lia|].
  eexists. split; [done|].
  pose proof (chunk_sizes_sum (length l) n Hn) as Hs.
  split; [by apply split_sizes_concat|]. split.
  - rewrite split_sizes_length, length_app, !length_replicate.
    pose proof (Nat.mod_upper_bound (length l) n ltac:(lia)). lia.
  - intros Hle. apply split_sizes_nonempty; [done|].
    apply Forall_app. split; apply Forall_replicate; [lia|].
    apply Nat.div_str_pos. lia.
Qed.

Lemma take_nonempty {A} (k : nat) (l : list A) :
  0 < k → l ≠ [] → take k l ≠ [].
Proof. intros Hk Hl. destruct k; [lia|]. by destruct l. Qed.

(** The first chunk of a non-empty batch is not empty. *)
Lemma array_split_first_nonempty {A} (l : list A) (n : nat) :
  0 < n → l ≠ [] →
  ∃ c chunks, array_split l n = Ok (c :: chunks) ∧ c ≠ [].
Proof.
  intros Hn Hl. unfold array_split.
  destruct (Nat.eqb_spec n 0); [lia|].
  assert (0 < length l) as Hlen by (destruct l; [done|simpl; lia]).
  pose proof (Nat.div_mod (length l) n ltac:(lia)) as Hd.
  destruct (length l mod n) as [|e] eqn:Em.
  - destruct n as [|n']; [lia|]. cbn [replicate app split_sizes Nat.sub].
    do 2 eexists. split; [done|]. apply take_nonempty; [nia|done].
  - cbn [replicate app split_sizes].
    do 2 eexists. split; [done|]. apply take_nonempty; [lia|done].
Qed.

End ChunkFacts.

(** ** Batch scoring in the ensemble classifier *)

Section HMMBatchFacts.
Import Numpy Py HMMClassifier.
Context {obs hmm : Type}.
Context (forward : hmm → obs → Q) (log : Q → Q) (cpu_count : nat).

Lemma mapM_concat {A B} (f : A → result B) (chunks : list (list A)) :
  mapM f (concat chunks) =
  parts ← mapM (mapM f) chunks; Ok (concat parts).
Proof.
  induction chunks as [|c chunks IH]; [done|].
  cbn [concat mapM]. rewrite mapM_app, IH.
  destruct (mapM f c); simpl; [|done].
  by destruct (mapM (mapM f) chunks).
Qed.

Lemma mapM_ext_in {A B} (f g : A → result B) (l : list A) :
  (∀ x, x ∈ l → f x = g x) → mapM f l = mapM g l.
Proof.
  induction l as [|x l IH]; intros H; [done|].
  cbn [mapM]. rewrite (H x) by left.
  rewrite IH by (intros y Hy; apply H; by right). done.
Qed.

Lemma stack_mapM {A} (f : A → result vector) (c : list A) :
  c ≠ [] → (rows ← mapM f c; stack rows) = mapM f c.
Proof.
  intros Hc. destruct (mapM f c) as [rows|] eqn:E; [simpl|done].
  apply mapM_Ok_length in E. destruct rows; [|done].
  destruct c; [done|simpl in E; lia].
Qed.

(** Scoring the chunks one by one and stacking the results is scoring
    the whole batch. *)
Lemma chunked_scores (f : obs → result vector) (chunks : list (list obs)) :
  chunks ≠ [] → Forall (λ c, c ≠ []) chunks →
  (parts ← mapM (λ c, rows ← mapM f c; stack rows) chunks; vstack parts)
  = (rows ← mapM f (concat chunks); stack rows).
Proof.
  intros Hne Hall.
  rewrite (mapM_ext_in _ (mapM f)).
  2:{ intros c Hc. apply stack_mapM. rewrite Forall_forall in Hall.
      by apply Hall. }
  rewrite stack_mapM.
  2:{ destruct chunks as [|c chunks]; [done|].
      inversion Hall as [|? ? Hc _]; subst. by destruct c. }
  rewrite mapM_concat.
  destruct (mapM (mapM f) chunks) as [parts|] eqn:E; [simpl|done].
  apply mapM_Ok_length in E. destruct parts; [|done].
  destruct chunks; [done|simpl in E; lia].
Qed.

(** The score matrix does not depend on the number of jobs. *)
Lemma scores_any_jobs (self : t hmm) (X : list obs) priors (jobs : nat) :
  (1 ≤ jobs)%nat → X ≠ [] →
  (if (jobs `min` length X =? 1)%nat
   then _chunk_predict forward log self X priors
   else
     chunks ← array_split X (jobs `min` length X);
     parts ← mapM (λ chunk, _chunk_predict forward log self chunk priors)
               chunks;
     vstack parts)
  = _chunk_predict forward log self X priors.
Proof.
  intros Hj HX. destruct (Nat.eqb_spec (jobs `min` length X) 1); [done|].
  assert (0 < length X)%nat by (destruct X; [done|simpl; lia]).
  destruct (array_split_spec X (jobs `min` length X)) as
    (chunks & -> & Hc & Hl & Hn); [lia|]. simpl.
  unfold _chunk_predict. rewrite chunked_scores.
  - by rewrite Hc.
  - destruct chunks; [simpl in Hl; lia|done].
  - apply Hn. lia.
Qed.

Lemma scores_empty_batch (self : t hmm) priors (jobs : nat) :
  (if (jobs `min` 0 =? 1)%nat
   then _chunk_predict forward log self [] priors
   else
     chunks ← array_split ([] : list obs) (jobs `min` 0);
     parts ← mapM (λ chunk, _chunk_predict forward log self chunk priors)
               chunks;
     vstack parts)
  = Raise (ValueError "number sections must be larger than 0.").
Proof. by rewrite Nat.min_0_r. Qed.

Lemma resolve_jobs_pos (n_jobs : Z) :
  (1 ≤ cpu_count)%nat → (n_jobs = -1 ∨ 0 < n_jobs)%Z →
  ∃ jobs, resolve_jobs cpu_count n_jobs = Ok jobs ∧ (1 ≤ jobs)%nat.
Proof.
  intros Hc Hv. unfold resolve_jobs, restricted_integer.
  destruct (Z.eqb_spec n_jobs (-1)); [by eexists|].
  destruct (Z.ltb_spec 0 n_jobs); [|lia]. eexists. split; [done|lia].
Qed.

(** The ensemble's predictions (labels and scores) are the same for any
    two admissible numbers of jobs. *)
Lemma hmm_predict_jobs (self : t hmm) (X : list obs) pr rs ol
    (n1 n2 : Z) :
  (1 ≤ cpu_count)%nat →
  (n1 = -1 ∨ 0 < n1)%Z → (n2 = -1 ∨ 0 < n2)%Z →
  predict forward log cpu_count self X pr rs ol n1 =
  predict forward log cpu_count self X pr rs ol n2.
Proof.
  intros Hc H1 H2. unfold predict.
  destruct (models_ self) as [models|]; simpl; [|done].
  destruct (check_prior models pr); simpl; [|done].
  destruct (resolve_jobs_pos n1 Hc H1) as (j1 & -> & Hj1).
  destruct (resolve_jobs_pos n2 Hc H2) as (j2 & -> & Hj2). simpl.
  destruct (_get_priors self pr) as [priors|]; simpl; [|done].
  destruct X as [|x X].
  - by rewrite !scores_empty_batch.
  - by rewrite !scores_any_jobs.
Qed.

End HMMBatchFacts.

(** ** [argmax] and the label encoder *)

Section ArgmaxFacts.
Import Py.

Lemma Qle_bool_false x y : Qle_bool x y = false ↔ y < x.
Proof.
  split.
  - intros H. apply Qnot_le_lt. intros Hle%Qle_bool_iff. congruence.
  - intros H. destruct (Qle_bool x y) eqn:E; [|done].
    apply Qle_bool_iff in E. exfalso. by apply (Qlt_not_le _ _ H).
Qed.

Lemma argmax_from_spec (pre l : list Q) (best_i : nat) (best : Q) :
  pre !! best_i = Some best →
  (∀ j y, pre !! j = Some y → y <= best) →
  (∀ j y, (j < best_i)%nat → pre !! j = Some y → y < best) →
  let r := argmax_from best_i best (length pre) l in
  ∃ m, (pre ++ l) !! r = Some m ∧
       (∀ j y, (pre ++ l) !! j = Some y → y <= m) ∧
       (∀ j y, (j < r)%nat → (pre ++ l) !! j = Some y → y < m).
Proof.
  revert pre best_i best. induction l as [|x l IH];
    intros pre best_i best Hb Hle Hlt; simpl.
  - exists best. rewrite app_nil_r. done.
  - assert (pre ++ x :: l = (pre ++ [x]) ++ l) as ->
      by by rewrite <- app_assoc.
    replace (S (length pre)) with (length (pre ++ [x]))
      by (rewrite length_app; simpl; lia).
    destruct (Qle_bool x best) eqn:E.
    + apply Qle_bool_iff in E. apply IH.
      * apply lookup_app_l_Some. done.
      * intros j y [Hy|[_ Hy]]%lookup_app_Some; [by eapply Hle|].
        destruct (j - length pre)%nat; [|done]. by injection Hy as <-.
      * intros j y Hj [Hy|[Hge Hy]]%lookup_app_Some; [by eapply Hlt|].
        apply lookup_lt_Some in Hb. lia.
    + apply Qle_bool_false in E. apply IH.
      * rewrite lookup_app_r by lia. by rewrite Nat.sub_diag.
      * intros j y [Hy|[_ Hy]]%lookup_app_Some.
        -- apply Qlt_le_weak. eapply Qle_lt_trans; [by eapply Hle|done].
        -- destruct (j - length pre)%nat; [|done]. injection Hy as <-.
           apply Qle_refl.
      * intros j y Hj [Hy|[Hge Hy]]%lookup_app_Some; [|lia].
        eapply Qle_lt_trans; [by eapply Hle|done].
Qed.

(** [argmax] returns the first index at which the maximum is attained. *)
Lemma argmax_spec (l : list Q) :
  l ≠ [] →
  ∃ i m, argmax l = Ok i ∧ l !! i = Some m ∧
         (∀ j y, l !! j = Some y → y <= m) ∧
         (∀ j y, (j < i)%nat → l !! j = Some y → y < m).
Proof.
  destruct l as [|x l]; [done|]. intros _. simpl.
  destruct (argmax_from_spec [x] l 0 x) as (m & H1 & H2 & H3).
  - done.
  - intros [|j] y; [|done]. intros [= <-]. apply Qle_refl.
  - intros j y Hj. lia.
  - exists (argmax_from 0 x 1 l), m. done.
Qed.

Lemma compare_Lt_neq s t : String.compare s t = Lt → s ≠ t.
Proof.
  intros H ->. pose proof (String.compare_antisym t t) as E.
  rewrite H in E. discriminate E.
Qed.

(** Labels listed in strictly increasing order are their own encoding. *)
Lemma unique_sorted (l : list string) :
  Sorted (λ s t, String.compare s t = Lt) l → unique l = l.
Proof.
  induction 1 as [|x l Hs IH Hhd]; [done|].
  unfold unique in *. cbn [foldr]. rewrite IH.
  destruct Hhd as [|y l' Hxy]; [done|]. simpl. by rewrite Hxy.
Qed.

Lemma index_of_Some s l i :
  index_of s l = Some i → l !! i = Some s.
Proof.
  revert i; induction l as [|x l IH]; intros i; simpl; [done|].
  destruct (String.eqb_spec s x) as [->|Hne].
  - by intros [= <-].
  - destruct (index_of s l) as [k|]; simpl; [|done].
    intros [= <-]. simpl. by apply IH.
Qed.

Lemma index_of_elem s l :
  s ∈ l → ∃ i, index_of s l = Some i.
Proof.
  induction l as [|y l IH]; [by intros ?%elem_of_nil|].
  intros [->|Hin]%elem_of_cons; simpl.
  - rewrite String.eqb_refl. by eexists.
  - destruct (String.eqb s y); [by eexists|].
    destruct (IH Hin) as [i ->]. by eexists.
Qed.

Lemma elem_of_insert_unique s x l :
  s ∈ insert_unique x l ↔ s = x ∨ s ∈ l.
Proof.
  induction l as [|y l IH]; simpl.
  - rewrite list_elem_of_singleton.
    split; [by left|]. by intros [?|?%elem_of_nil].
  - destruct (String.compare x y) eqn:E.
    + apply String.compare_eq_iff in E as ->.
      split; [by right|]. intros [->|?]; [left|done].
    + apply elem_of_cons.
    + rewrite !elem_of_cons, IH. tauto.
Qed.

Lemma elem_of_unique s l : s ∈ unique l ↔ s ∈ l.
Proof.
  induction l as [|x l IH]; [done|].
  unfold unique in *. cbn [foldr].
  by rewrite elem_of_insert_unique, IH, elem_of_cons.
Qed.

Lemma length_insert_unique x l :
  (length (insert_unique x l) ≤ S (length l))%nat.
Proof.
  induction l as [|y l IH]; simpl; [lia|].
  destruct (String.compare x y); simpl; lia.
Qed.

Lemma length_unique l : (length (unique l) ≤ length l)%nat.
Proof.
  induction l as [|x l IH]; [done|].
  unfold unique in *. cbn [foldr length].
  pose proof (length_insert_unique x (foldr insert_unique [] l)). lia.
Qed.

End ArgmaxFacts.

(** ** Scores and decisions of the ensemble classifier *)

Section HMMScoreFacts.
Import Numpy Py HMMClassifier.
Context {obs hmm : Type}.
Context (forward : hmm → obs → Q) (log : Q → Q) (cpu_count : nat).

Lemma dict_of_spec (v : GMMHMM hmm → result Q) (g : GMMHMM hmm → Q)
    (ms : list (GMMHMM hmm)) (d : gmap string Q) :
  (∀ m, m ∈ ms → v m = Ok (g m)) →
  NoDup (label <$> ms) →
  ∃ d', dict_of v ms d = Ok d' ∧
        (∀ m, m ∈ ms → d' !! label m = Some (g m)) ∧
        (∀ k, k ∉ label <$> ms → d' !! k = d !! k).
Proof.
  revert d. induction ms as [|m ms IH]; intros d Hv Hnd.
  - exists d. split; [done|]. split; [|done]. by intros m ?%elem_of_nil.
  - rewrite fmap_cons in Hnd. apply NoDup_cons in Hnd as [Hm Hnd].
    destruct (IH (<[label m := g m]> d)) as (d' & Hd & Hin & Hout);
      [intros m' Hm'; apply Hv; by right|done|].
    exists d'. cbn [dict_of]. rewrite (Hv m) by left. simpl.
    split; [done|]. split.
    + intros m' [->|Hm']%elem_of_cons; [|by apply Hin].
      rewrite Hout by done. apply lookup_insert_eq.
    + intros k Hk. rewrite ?fmap_cons in Hk.
      apply not_elem_of_cons in Hk as [Hne Hk].
      rewrite Hout by done. by apply lookup_insert_ne.
Qed.

Lemma length_insert_unique_fresh x l :
  x ∉ l → length (insert_unique x l) = S (length l).
Proof.
  induction l as [|y l IH]; intros Hx; simpl; [done|].
  apply not_elem_of_cons in Hx as [Hne Hx].
  destruct (String.compare x y) eqn:E; simpl.
  - by apply String.compare_eq_iff in E.
  - done.
  - by rewrite IH.
Qed.

Lemma length_unique_NoDup l : NoDup l → length (unique l) = length l.
Proof.
  induction 1 as [|x l Hx Hnd IH]; [done|].
  unfold unique in *. cbn [foldr length].
  rewrite length_insert_unique_fresh; [by rewrite IH|].
  fold (unique l). by rewrite elem_of_unique.
Qed.

Lemma fit_fitted_with (self0 self : t hmm) models :
  fit self0 models = Ok self → fitted_with self models ∧ models ≠ [].
Proof.
  unfold fit. destruct models as [|m ms]; [done|].
  intros [= <-]. by split.
Qed.

Lemma get_priors_spec (self : t hmm) models pr :
  fitted_with self models →
  NoDup (label <$> models) →
  check_prior models pr = Ok () →
  (pr = Frequency → sum_list (n_seqs_ <$> models) ≠ 0%nat) →
  ∃ d, _get_priors self pr = Ok d ∧
       ∀ m, m ∈ models → d !! label m = Some (prior_value models pr m).
Proof.
  intros [Hm He] Hnd Hp Hf. unfold _get_priors, models_, classes_.
  rewrite Hm, He. simpl. destruct pr as [| |p]; simpl.
  - destruct (dict_of_spec
      (λ m, if (sum_list (n_seqs_ <$> models) =? 0)%nat
            then Raise ZeroDivisionError
            else Ok (Qnat (n_seqs_ m) / Qnat (sum_list (n_seqs_ <$> models))))
      (prior_value models Frequency) models ∅) as (d & Hd & Hin & _);
      [|done|by exists d].
    intros m _. destruct (Nat.eqb_spec (sum_list (n_seqs_ <$> models)) 0);
      [by destruct Hf|done].
  - destruct (dict_of_spec (λ _, Ok (1 / Qnat (length models)))
      (prior_value models Uniform) models ∅) as (d & Hd & Hin & _);
      [done|done|by exists d].
  - destruct (dict_of_spec
      (λ m, i ← transform (unique (label <$> models)) (label m);
            of_option (IndexError "list index out of range") (p !! i))
      (prior_value models (Explicit p)) models ∅) as (d & Hd & Hin & _);
      [|done|by exists d].
    intros m Hin. unfold transform, prior_value.
    destruct (index_of_elem (label m) (unique (label <$> models)))
      as [i Hi].
    { apply elem_of_unique. by apply list_elem_of_fmap_2. }
    rewrite Hi. simpl. apply index_of_Some, lookup_lt_Some in Hi.
    rewrite length_unique_NoDup, length_fmap in Hi by done.
    unfold check_prior in Hp.
    destruct (Nat.eqb_spec (length p) (length models)) as [Hl|];
      [|done].
    destruct (lookup_lt_is_Some_2 p i) as [q Hq]; [lia|].
    by rewrite Hq.
Qed.

Lemma predict_scores (self : t hmm) models pr x d :
  fitted_with self models →
  (∀ m, m ∈ models → d !! label m = Some (prior_value models pr m)) →
  _predict forward log self x d =
  Ok (score forward log models pr x <$> models).
Proof.
  intros [Hm _] Hd. unfold _predict, models_. rewrite Hm. simpl.
  apply mapM_Ok_fmap. intros m Hin. by rewrite (Hd m Hin).
Qed.

(** On a fitted classifier with distinct labels, single-sequence
    prediction takes the argmax of the models' scores, listed in the
    order in which the models were given to [fit]. *)
Lemma predict_single_unfold (self : t hmm) models pr x rs ol n_jobs :
  fitted_with self models →
  NoDup (label <$> models) →
  check_prior models pr = Ok () →
  (pr = Frequency → sum_list (n_seqs_ <$> models) ≠ 0%nat) →
  is_ok (resolve_jobs cpu_count n_jobs) = true →
  predict_single forward log cpu_count self x pr rs ol n_jobs =
  i ← argmax (score forward log models pr x <$> models);
  _output_single self i (score forward log models pr x <$> models) rs ol.
Proof.
  intros Hfit Hnd Hp Hf Hn. unfold predict_single, models_.
  rewrite (proj1 Hfit). simpl. rewrite Hp. simpl.
  destruct (resolve_jobs cpu_count n_jobs) as [j|]; [simpl|done].
  destruct (get_priors_spec self models pr Hfit Hnd Hp Hf) as (d & -> & Hd).
  simpl. by rewrite (predict_scores self models pr x d Hfit Hd).
Qed.

(** When the models are given in increasing label order, the predicted
    label is the label of the first model whose score is maximal. *)
Lemma predict_single_sorted (self : t hmm) models pr x rs n_jobs :
  fitted_with self models → models ≠ [] →
  NoDup (label <$> models) →
  Sorted (λ s t, String.compare s t = Lt) (label <$> models) →
  check_prior models pr = Ok () →
  (pr = Frequency → sum_list (n_seqs_ <$> models) ≠ 0%nat) →
  is_ok (resolve_jobs cpu_count n_jobs) = true →
  ∃ i m,
    models !! i = Some m ∧
    predict_single forward log cpu_count self x pr rs true n_jobs =
      Ok (Original (label m),
          if rs then Some (score forward log models pr x <$> models)
          else None) ∧
    (∀ j m', models !! j = Some m' →
       score forward log models pr x m' <= score forward log models pr x m) ∧
    (∀ j m', (j < i)%nat → models !! j = Some m' →
       score forward log models pr x m' < score forward log models pr x m).
Proof.
  intros Hfit Hne Hnd Hs Hp Hf Hn.
  rewrite (predict_single_unfold self models pr x rs true n_jobs) by done.
  destruct (argmax_spec (score forward log models pr x <$> models))
    as (i & mx & -> & Hi & Hmax & Hfirst); [by destruct models|].
  rewrite list_lookup_fmap in Hi.
  destruct (models !! i) as [m|] eqn:Hm; [|done]. injection Hi as <-.
  exists i, m. split; [done|]. split; [|split].
  - simpl. unfold _output_single, classes_. rewrite (proj2 Hfit). simpl.
    rewrite (unique_sorted _ Hs). unfold inverse_transform.
    by rewrite list_lookup_fmap, Hm.
  - intros j m' Hj. apply (Hmax j). by rewrite list_lookup_fmap, Hj.
  - intros j m' Hlt Hj. apply (Hfirst j); [done|].
    by rewrite list_lookup_fmap, Hj.
Qed.

End HMMScoreFacts.

Section HMMDecisionClaims.
Import Numpy Py HMMClassifier Inputs.

(** C2, at models fitted in the order c, a, b: the classes b and c tie
    for the highest score, and [predict] returns a, the label at the
    winning model's position in sorted label order. *)
Theorem tie_break_unsorted_models (log : Q → Q) (cpu_count : nat) :
  ∃ self s_c s_a s_b,
    fit __init__ models_cab = Ok self ∧
    classes_ self = Ok ["a"; "b"; "c"]%string ∧
    predict_single const_forward log cpu_count self () Uniform true true 1
      = Ok (Original "a", Some [s_c; s_a; s_b]) ∧
    s_c == s_b ∧ s_a < s_c.
Proof.
  do 4 eexists. split; [reflexivity|]. split; [reflexivity|]. split.
  - rewrite (predict_single_unfold const_forward log cpu_count _ models_cab).
    + unfold models_cab. rewrite !fmap_cons, !fmap_nil.
      unfold score, const_forward, model, prior_value. cbn [fitted label].
      set (l := log _). cbn [argmax argmax_from].
      assert (Qle_bool (-5 + l) (0 + l) = true) as ->
        by (apply Qle_bool_iff; lra).
      assert (Qle_bool (0 + l) (0 + l) = true) as ->
        by (apply Qle_bool_iff; lra).
      reflexivity.
    + split; reflexivity.
    + apply (@bool_decide_unpack _ (NoDup_dec _)). vm_compute. exact I.
    + reflexivity.
    + discriminate.
    + reflexivity.
  - split; [reflexivity|]. simpl. lra.
Qed.

(** C3, at models fitted in the order b, a: the score of b is the
    higher one, and [predict] returns a. *)
Theorem map_decision_unsorted_models (log : Q → Q) (cpu_count : nat) :
  ∃ self s_b s_a,
    fit __init__ models_ba = Ok self ∧
    classes_ self = Ok ["a"; "b"]%string ∧
    predict_single const_forward log cpu_count self () Uniform true true 1
      = Ok (Original "a", Some [s_b; s_a]) ∧
    s_b = score const_forward log models_ba Uniform () (model "b" 0) ∧
    s_a = score const_forward log models_ba Uniform () (model "a" (-5)) ∧
    s_a < s_b.
Proof.
  do 3 eexists. split; [reflexivity|]. split; [reflexivity|].
  split; [|split; [|split]].
  - rewrite (predict_single_unfold const_forward log cpu_count _ models_ba).
    + change (score const_forward log models_ba Uniform () <$> models_ba)
        with [score const_forward log models_ba Uniform () (model "b" 0);
              score const_forward log models_ba Uniform ()
                (model "a" (-5))].
      cbn [argmax argmax_from].
      assert (Qle_bool
                (score const_forward log models_ba Uniform () (model "a" (-5)))
                (score const_forward log models_ba Uniform () (model "b" 0))
              = true) as ->.
      { apply Qle_bool_iff. unfold score, prior_value, const_forward, model.
        cbn [fitted]. lra. }
      reflexivity.
    + split; reflexivity.
    + apply (@bool_decide_unpack _ (NoDup_dec _)). vm_compute. exact I.
    + reflexivity.
    + discriminate.
    + reflexivity.
  - reflexivity.
  - reflexivity.
  - unfold score, prior_value, const_forward, model. cbn [fitted]. lra.
Qed.

End HMMDecisionClaims.

(** ** Tallying neighbour labels *)

Section CounterFacts.
Import DTWKNN.
Local Open Scope nat_scope.

Lemma counter_get_add_same s c :
  counter_get (counter_add s c) s = S (counter_get c s).
Proof.
  induction c as [|[x n] c IH]; simpl.
  - by rewrite String.eqb_refl.
  - destruct (String.eqb_spec s x) as [->|Hne]; simpl.
    + by rewrite String.eqb_refl.
    + destruct (String.eqb_spec s x); [done|]. apply IH.
Qed.

Lemma counter_get_add_other s t c :
  t ≠ s → counter_get (counter_add s c) t = counter_get c t.
Proof.
  intros Hne. induction c as [|[x n] c IH]; simpl.
  - by destruct (String.eqb_spec t s).
  - destruct (String.eqb_spec s x) as [->|Hsx]; simpl.
    + by destruct (String.eqb_spec t x).
    + destruct (String.eqb_spec t x); [done|]. apply IH.
Qed.

Lemma counter_add_keys s t c :
  t ∈ (counter_add s c).*1 ↔ t = s ∨ t ∈ c.*1.
Proof.
  induction c as [|[x n] c IH]; simpl.
  - rewrite list_elem_of_singleton. split; [by left|].
    by intros [?|?%elem_of_nil].
  - destruct (String.eqb_spec s x) as [->|Hsx]; simpl.
    + rewrite elem_of_cons. tauto.
    + rewrite !elem_of_cons, IH. tauto.
Qed.

Lemma counter_add_NoDup s c :
  NoDup c.*1 → NoDup (counter_add s c).*1.
Proof.
  induction c as [|[x n] c IH]; simpl; intros Hnd.
  - apply NoDup_singleton.
  - apply NoDup_cons in Hnd as [Hx Hnd].
    destruct (String.eqb_spec s x) as [->|Hsx]; simpl.
    + by apply NoDup_cons.
    + apply NoDup_cons. split; [|by apply IH].
      rewrite counter_add_keys. intros [->|?]; done.
Qed.

Lemma counter_add_positive s c :
  Forall (λ kv, 0 < kv.2) c → Forall (λ kv, 0 < kv.2) (counter_add s c).
Proof.
  induction c as [|[x n] c IH]; simpl; intros Hp.
  - repeat constructor.
  - inversion Hp as [|? ? Hn Hc]; subst.
    destruct (String.eqb s x); constructor; simpl in *; auto with lia.
Qed.

Lemma occurrences_snoc s t l :
  occurrences t (l ++ [s]) =
  occurrences t l + (if decide (s = t) then 1 else 0).
Proof.
  unfold occurrences. rewrite filter_app, length_app. f_equal.
  rewrite filter_cons, filter_nil. by case_decide.
Qed.

(** The counts after consuming a list of labels. *)
Lemma Counter_fold (l pre : list string) (c : list (string * nat)) :
  NoDup c.*1 → Forall (λ kv, 0 < kv.2) c →
  (∀ t, counter_get c t = occurrences t pre) →
  (∀ t, t ∈ c.*1 ↔ t ∈ pre) →
  let c' := foldl (λ c s, counter_add s c) c l in
  NoDup c'.*1 ∧ Forall (λ kv, 0 < kv.2) c' ∧
  (∀ t, counter_get c' t = occurrences t (pre ++ l)) ∧
  (∀ t, t ∈ c'.*1 ↔ t ∈ pre ++ l).
Proof.
  revert pre c. induction l as [|s l IH]; intros pre c Hnd Hpos Hget Hkeys.
  - simpl. by rewrite app_nil_r.
  - cbn [foldl]. replace (pre ++ s :: l) with ((pre ++ [s]) ++ l)
      by by rewrite <- app_assoc.
    apply IH.
    + by apply counter_add_NoDup.
    + by apply counter_add_positive.
    + intros t. rewrite occurrences_snoc.
      destruct (decide (s = t)) as [->|Hne].
      * rewrite counter_get_add_same, Hget. lia.
      * rewrite counter_get_add_other, Hget by done. lia.
    + intros t. rewrite counter_add_keys, Hkeys, elem_of_app,
        list_elem_of_singleton. tauto.
Qed.

Lemma Counter_spec (l : list string) :
  NoDup (Counter l).*1 ∧ Forall (λ kv, 0 < kv.2) (Counter l) ∧
  (∀ t, counter_get (Counter l) t = occurrences t l) ∧
  (∀ t, t ∈ (Counter l).*1 ↔ t ∈ l).
Proof.
  apply (Counter_fold l [] []); by try constructor.
Qed.

Lemma counter_get_elem c t n :
  NoDup c.*1 → (t, n) ∈ c → counter_get c t = n.
Proof.
  induction c as [|[x m] c IH]; simpl; intros Hnd Hin.
  - by apply elem_of_nil in Hin.
  - apply NoDup_cons in Hnd as [Hx Hnd].
    apply elem_of_cons in Hin as [[= -> ->]|Hin].
    + by rewrite String.eqb_refl.
    + destruct (String.eqb_spec t x) as [->|Hne]; [|by apply IH].
      exfalso. apply Hx. apply list_elem_of_fmap. by exists (x, n).
Qed.

Lemma counter_elem_get c t :
  t ∈ c.*1 → (t, counter_get c t) ∈ c.
Proof.
  induction c as [|[x m] c IH]; simpl; intros Hin.
  - by apply elem_of_nil in Hin.
  - destruct (String.eqb_spec t x) as [->|Hne]; [by left|].
    apply elem_of_cons in Hin as [?|Hin]; [done|]. right. by apply IH.
Qed.

Lemma foldl_max_spec (x : nat) (l : list nat) :
  let m := foldl Nat.max x l in
  m ∈ x :: l ∧ ∀ y, y ∈ x :: l → y ≤ m.
Proof.
  revert x. induction l as [|z l IH]; intros x; simpl.
  - split; [by left|]. intros y ?%list_elem_of_singleton. lia.
  - destruct (IH (x `max` z)) as [Hin Hmax]. split.
    + apply elem_of_cons in Hin as [Hm|Hin]; [|by do 2 right].
      rewrite Hm. destruct (Nat.max_spec x z) as [[_ ->]|[_ ->]];
        [right|]; by left.
    + intros y Hy. apply elem_of_cons in Hy as [->|Hy].
      * etrans; [|apply Hmax; by left]. lia.
      * apply elem_of_cons in Hy as [->|Hy].
        -- etrans; [|apply Hmax; by left]. lia.
        -- apply Hmax. by right.
Qed.

Lemma occurrences_not_in t l : t ∉ l → occurrences t l = 0.
Proof.
  unfold occurrences. induction l as [|x l IH]; intros Hn; [done|].
  apply not_elem_of_cons in Hn as [Hne Hn].
  rewrite filter_cons_False by (intros ->; done). by apply IH.
Qed.

Lemma py_max_spec (l : list nat) :
  l ≠ [] → ∃ m, py_max l = Ok m ∧ m ∈ l ∧ ∀ y, y ∈ l → y ≤ m.
Proof.
  destruct l as [|x l]; [done|]. intros _. eexists. split; [done|].
  apply foldl_max_spec.
Qed.

(** The modal labels of a non-empty list of neighbour labels: each label
    whose count is maximal, once. *)
Lemma modes_spec (nl : list string) :
  nl ≠ [] →
  ∃ mx modes,
    py_max ((Counter nl).*2) = Ok mx ∧
    modes = (filter (λ kv, kv.2 = mx) (Counter nl)).*1 ∧
    NoDup modes ∧ modes ≠ [] ∧
    ∀ t, t ∈ modes ↔
         t ∈ nl ∧ ∀ t', occurrences t' nl ≤ occurrences t nl.
Proof.
  intros Hne. destruct (Counter_spec nl) as (Hnd & Hpos & Hget & Hkeys).
  destruct (py_max_spec (Counter nl).*2) as (mx & Hpy & Hmx & Hle).
  { destruct nl as [|s nl]; [done|].
    assert (s ∈ (Counter (s :: nl)).*1) as Hs by (apply Hkeys; by left).
    intros Hnil. destruct (Counter (s :: nl)); [|done].
    by apply elem_of_nil in Hs. }
  exists mx, (filter (λ kv, kv.2 = mx) (Counter nl)).*1.
  split; [done|]. split; [done|].
  assert (∀ t, t ∈ (filter (λ kv, kv.2 = mx) (Counter nl)).*1 ↔
               t ∈ nl ∧ occurrences t nl = mx) as Hmodes.
  { intros t. rewrite list_elem_of_fmap. split.
    - intros ([t' k] & -> & [Hk Hin]%list_elem_of_filter). simpl in *.
      split.
      + apply Hkeys. apply list_elem_of_fmap. by exists (t', k).
      + rewrite <- Hget. subst k. by apply counter_get_elem.
    - intros [Hin Hocc]. exists (t, mx). split; [done|].
      apply list_elem_of_filter. split; [done|].
      rewrite <- Hocc, <- Hget. apply counter_elem_get. by apply Hkeys. }
  assert (∀ t', occurrences t' nl ≤ mx) as Hall.
  { intros t'. destruct (decide (t' ∈ nl)) as [Hin|Hnin].
    - apply Hle. rewrite <- Hget. apply list_elem_of_fmap.
      exists (t', counter_get (Counter nl) t'). split; [done|].
      apply counter_elem_get. by apply Hkeys.
    - rewrite occurrences_not_in by done. lia. }
  split; [|split].
  - apply NoDup_fmap_fst.
    + intros t k1 k2 [_ H1]%list_elem_of_filter [_ H2]%list_elem_of_filter.
      rewrite <- (counter_get_elem _ _ _ Hnd H1).
      by rewrite <- (counter_get_elem _ _ _ Hnd H2).
    + apply NoDup_filter. by eapply NoDup_fmap_1.
  - apply list_elem_of_fmap in Hmx as ([t k] & Hk & Hin). simpl in Hk.
    intros Hnil. assert (t ∈ (filter (λ kv, kv.2 = mx) (Counter nl)).*1)
      as Ht.
    { apply list_elem_of_fmap. exists (t, k). split; [done|].
      apply list_elem_of_filter. by split. }
    rewrite Hnil in Ht. by apply elem_of_nil in Ht.
  - intros t. rewrite Hmodes. split.
    + intros [Hin Hocc]. split; [done|]. intros t'. rewrite Hocc. apply Hall.
    + intros [Hin Hmax]. split; [done|]. apply Nat.le_antisymm; [apply Hall|].
      apply list_elem_of_fmap in Hmx as ([t' k] & -> & Hin').
      rewrite <- (counter_get_elem _ _ _ Hnd Hin'), Hget. apply Hmax.
Qed.

End CounterFacts.

(** ** Selecting and classifying in the k-NN classifier *)

Section KNNFacts.
Import Numpy Py DTWKNN.
Context {obs metric rng : Type}.
Context (fastdtw : obs → obs → Z → metric → Q).
Context (argpartition : list Q → nat → list nat).
Context (randbelow : rng → nat → nat * rng).
Context (cpu_count : nat) (process_state : nat → rng).

(** The first [k] entries of a partition around position [k] are [k]
    distinct valid indices, none of them farther than an index left
    out. *)
Lemma selection_spec (d : list Q) (k : nat) (part : list nat) :
  partitioned d k part → (k < length d)%nat →
  length (take k part) = k ∧ NoDup (take k part) ∧
  ∀ i, i ∈ take k part →
    (i < length d)%nat ∧
    ∀ j, (j < length d)%nat → j ∉ take k part → nth i d 0 <= nth j d 0.
Proof.
  intros [Hperm Hord] Hk.
  assert (length part = length d) as Hlen
    by by rewrite Hperm, length_seq.
  assert (NoDup part) as Hnd by (rewrite Hperm; apply NoDup_seq).
  split; [apply length_take_le; lia|]. split.
  { apply (sublist_NoDup _ part Hnd), sublist_take. }
  intros i (p & Hp & Hpk)%elem_of_take. split.
  - assert (i ∈ seq 0 (length d)) as Hi.
    { rewrite <- Hperm. by eapply list_elem_of_lookup_2. }
    apply elem_of_seq in Hi. lia.
  - intros j Hj Hnot.
    assert (j ∈ part) as Hin.
    { rewrite Hperm. apply elem_of_seq. lia. }
    apply list_elem_of_lookup in Hin as [q Hq].
    apply (Hord p q); [lia| |done|done].
    destruct (decide (k ≤ q)%nat) as [|Hlt]; [done|].
    exfalso. apply Hnot. apply elem_of_take. exists q. split; [done|lia].
Qed.

Lemma neighbor_labels_ok (y : list string) (idx : list nat) :
  (∀ i, i ∈ idx → (i < length y)%nat) →
  neighbor_labels y idx = Ok ((λ i, nth i y ""%string) <$> idx) ∧
  Forall2 (λ i l, y !! i = Some l) idx ((λ i, nth i y ""%string) <$> idx).
Proof.
  intros Hidx. split.
  - apply mapM_Ok_fmap. intros i Hi.
    destruct (lookup_lt_is_Some_2 y i (Hidx i Hi)) as [l Hl].
    rewrite Hl. simpl. f_equal. symmetry. by apply nth_lookup_Some.
  - apply Forall2_fmap_r, Forall_Forall2_diag, Forall_forall.
    intros i Hi. destruct (lookup_lt_is_Some_2 y i (Hidx i Hi)) as [l Hl].
    rewrite Hl. f_equal. symmetry. by apply nth_lookup_Some.
Qed.

(** A non-negative stop takes that many leading elements. *)
Lemma slice_to_take {A} (k : Z) (l : list A) :
  (0 ≤ k)%Z → slice_to k l = take (Z.to_nat k) l.
Proof.
  intros Hk. unfold slice_to. destruct (Z.ltb_spec k 0); [lia|].
  destruct (Z.le_gt_cases k (Z.of_nat (length l))).
  - by rewrite Z.min_l.
  - rewrite Z.min_r by lia. rewrite Nat2Z.id.
    rewrite !take_ge; [done|lia|lia].
Qed.

(** An index below [2^63] is converted to itself. *)
Lemma to_intp_index (k : Z) : (0 ≤ k < 2 ^ 63)%Z → to_intp k = Ok k.
Proof.
  intros Hk. unfold to_intp.
  destruct (Z.leb_spec (- 2 ^ 63) k); [|lia].
  destruct (Z.ltb_spec k (2 ^ 63)); [done|lia].
Qed.

Lemma np_argpartition_in_range (d : list Q) (k : Z) :
  (0 ≤ k < 2 ^ 63)%Z → (k < Z.of_nat (length d))%Z →
  np_argpartition argpartition d k = Ok (argpartition d (Z.to_nat k)).
Proof.
  intros Hk Hlt. unfold np_argpartition. rewrite to_intp_index by done.
  cbn [mbind result_bind].
  assert ((k <? 0)%Z = false) as E0 by (apply Z.ltb_ge; lia).
  assert ((Z.of_nat (length d) =? 0)%Z = false) as En
    by (apply Z.eqb_neq; lia).
  assert ((Z.of_nat (length d) <=? k)%Z = false) as Ek
    by (apply Z.leb_gt; lia).
  rewrite E0. cbv beta iota zeta. by rewrite En, E0, Ek.
Qed.

(** An index at or beyond the length is refused, unless the conversion
    wraps it back into the array. *)
Lemma np_argpartition_out_of_range (d : list Q) (k : Z) :
  d ≠ [] → (Z.of_nat (length d) ≤ k)%Z →
  ¬ (2 ^ 64 - Z.of_nat (length d) ≤ k < 2 ^ 64)%Z →
  ∃ e, np_argpartition argpartition d k = Raise e.
Proof.
  intros Hd Hk Hw. unfold np_argpartition, to_intp.
  assert (0 < Z.of_nat (length d))%Z as Hn by (destruct d; [done|simpl; lia]).
  assert ((Z.of_nat (length d) =? 0)%Z = false) as En
    by (apply Z.eqb_neq; lia).
  rewrite (proj2 (Z.leb_le (- 2 ^ 63) k)) by lia.
  destruct (Z.ltb_spec k (2 ^ 63)); cbn [andb mbind result_bind].
  - assert ((k <? 0)%Z = false) as E0 by (apply Z.ltb_ge; lia).
    rewrite E0. cbv beta iota zeta. rewrite En, E0.
    rewrite (proj2 (Z.leb_le _ k)) by lia. by eexists.
  - rewrite (proj2 (Z.leb_le (2 ^ 63) k)) by lia.
    destruct (Z.ltb_spec k (2 ^ 64)); cbn [andb mbind result_bind];
      [|by eexists].
    rewrite (proj2 (Z.ltb_lt (k - 2 ^ 64) 0)) by lia.
    cbv beta iota zeta. rewrite En.
    rewrite (proj2 (Z.ltb_lt (k - 2 ^ 64 + Z.of_nat (length d)) 0)) by lia.
    by eexists.
Qed.

(** [find_modes] on a classifier with fewer neighbours than references. *)
Lemma find_modes_spec (self : @t obs metric) (y : list string)
    (d : list Q) :
  let k := Z.to_nat (_k self) in
  let idx := take k (argpartition d k) in
  partitioned d k (argpartition d k) →
  (0 < k)%nat → (k < length d)%nat → (_k self < 2 ^ 63)%Z →
  length d = length y →
  ∃ nl modes,
    np_argpartition argpartition d (_k self) = Ok (argpartition d k) ∧
    slice_to (_k self) (argpartition d k) = idx ∧
    neighbor_labels y idx = Ok nl ∧
    Forall2 (λ i l, y !! i = Some l) idx nl ∧
    find_modes argpartition self y d = Ok modes ∧
    NoDup modes ∧ modes ≠ [] ∧
    ∀ t, t ∈ modes ↔
         t ∈ nl ∧ ∀ t', (occurrences t' nl ≤ occurrences t nl)%nat.
Proof.
  intros k idx Hpart Hk0 Hk Hk63 Hlen.
  destruct (selection_spec d k _ Hpart Hk) as (Hl & Hnd & Hsel).
  destruct (neighbor_labels_ok y idx) as [Hmap Hf2].
  { intros i Hi. rewrite <- Hlen. by apply Hsel. }
  set (nl := (λ i, nth i y ""%string) <$> idx) in *.
  destruct (modes_spec nl) as (mx & modes & Hmx & -> & Hnd' & Hne & Hm).
  { intros E. apply (f_equal length) in E. unfold nl in E.
    rewrite length_fmap in E. fold idx in Hl. simpl in E. lia. }
  assert (np_argpartition argpartition d (_k self) = Ok (argpartition d k))
    as Hpartition by (apply np_argpartition_in_range; lia).
  assert (slice_to (_k self) (argpartition d k) = idx) as Hslice
    by (apply slice_to_take; lia).
  exists nl, (filter (λ kv, kv.2 = mx) (Counter nl)).*1.
  do 4 (split; [done|]). split; [|done].
  unfold find_modes. rewrite Hpartition. cbn [mbind result_bind].
  rewrite Hslice, Hmap. cbn [mbind result_bind]. by rewrite Hmx.
Qed.

Lemma choice_spec (s : rng) (modes : list string) :
  modes ≠ [] →
  ((randbelow s (length modes)).1 < length modes)%nat →
  ∃ l, modes !! (randbelow s (length modes)).1 = Some l ∧
       choice randbelow s modes = Ok (l, (randbelow s (length modes)).2).
Proof.
  intros Hne Hlt. destruct (lookup_lt_is_Some_2 _ _ Hlt) as [l Hl].
  exists l. split; [done|]. unfold choice.
  destruct modes as [|m modes]; [done|].
  destruct (randbelow s (length (m :: modes))) as [i s'].
  simpl in *. by rewrite Hl.
Qed.

Lemma predict_single_classify (self : t metric) X y o n_jobs s :
  _X self = Some X → _y self = Some y →
  is_ok (resolve_jobs cpu_count n_jobs) = true →
  predict_single fastdtw argpartition randbelow cpu_count self o n_jobs s
  = classify fastdtw argpartition randbelow self X y o s.
Proof.
  intros HX Hy Hn. unfold predict_single, fitted_data.
  rewrite HX, Hy. simpl.
  by destruct (resolve_jobs cpu_count n_jobs).
Qed.

(** With at least as many neighbours as references, [find_modes] fails:
    in [np.argpartition], or, without any reference, in [max]. *)
Lemma find_modes_too_many_neighbors (self : @t obs metric) y d :
  (Z.of_nat (length d) ≤ _k self)%Z →
  ¬ (2 ^ 64 - Z.of_nat (length d) ≤ _k self < 2 ^ 64)%Z →
  ∃ e, find_modes argpartition self y d = Raise e.
Proof.
  intros Hk Hw. unfold find_modes. destruct d as [|x d].
  - unfold np_argpartition. destruct (to_intp (_k self)); [|by eexists].
    change (Z.of_nat (length (@nil Q)) =? 0)%Z with true.
    cbn [mbind result_bind]. unfold slice_to. rewrite take_nil. by eexists.
  - destruct (np_argpartition_out_of_range (x :: d) (_k self))
      as [e ->]; [done..|]. by eexists.
Qed.

Lemma classify_too_many_neighbors (self : t metric) X y o s :
  (Z.of_nat (length X) ≤ _k self)%Z →
  ¬ (2 ^ 64 - Z.of_nat (length X) ≤ _k self < 2 ^ 64)%Z →
  ∃ e, classify fastdtw argpartition randbelow self X y o s = Raise e.
Proof.
  intros Hk Hw. unfold classify.
  destruct (find_modes_too_many_neighbors self y
              ((λ x, distance fastdtw self o x) <$> X)) as [e ->];
    [by rewrite length_fmap..|]. by eexists.
Qed.

Lemma classify_all_too_many_neighbors (self : t metric) X y batch s :
  (Z.of_nat (length X) ≤ _k self)%Z →
  ¬ (2 ^ 64 - Z.of_nat (length X) ≤ _k self < 2 ^ 64)%Z →
  batch ≠ [] →
  ∃ e, classify_all fastdtw argpartition randbelow self X y batch s
       = Raise e.
Proof.
  intros Hk Hw Hb. destruct batch as [|o batch]; [done|]. cbn [classify_all].
  destruct (classify_too_many_neighbors self X y o s Hk Hw) as [e ->].
  by eexists.
Qed.

Lemma predict_too_many_neighbors (shape : obs → list nat)
    (self : t metric) X y batch n_jobs s :
  _X self = Some X → _y self = Some y →
  (Z.of_nat (length X) ≤ _k self)%Z →
  ¬ (2 ^ 64 - Z.of_nat (length X) ≤ _k self < 2 ^ 64)%Z →
  batch ≠ [] →
  (1 ≤ cpu_count)%nat → (n_jobs = -1 ∨ 0 < n_jobs)%Z →
  ∃ e, predict fastdtw argpartition randbelow cpu_count process_state shape
         self batch n_jobs s = Raise e.
Proof.
  intros HX Hy Hk Hw Hb Hc Hn. unfold predict, fitted_data.
  rewrite HX, Hy. simpl.
  destruct (resolve_jobs_pos cpu_count n_jobs Hc Hn) as (jobs & -> & Hj).
  simpl. destruct (Z.eqb_spec n_jobs 1).
  - by apply classify_all_too_many_neighbors.
  - unfold array_split_sequences.
    destruct (array_split_first_nonempty batch jobs) as (c & cs & -> & Hne);
      [lia|done|].
    cbn [mbind result_bind].
    destruct (same_shape shape batch); [|by eexists].
    cbn [imap mapM mbind result_bind].
    change (parallel_predict fastdtw argpartition randbelow process_state
              self X y (S (0%nat, c).1) (0%nat, c).2)
      with (fst <$> classify_all fastdtw argpartition randbelow self X y c
                      (process_state 1%nat)).
    destruct (classify_all_too_many_neighbors self X y c (process_state 1%nat)
                Hk Hw Hne) as [e ->].
    by eexists.
Qed.

End KNNFacts.

(** ** A selection that meets the contract of [np.argpartition] *)

Section ArgsortFacts.
Import DTWKNN Inputs.

Lemma insert_by_perm (a : list Q) (i : nat) (l : list nat) :
  insert_by a i l ≡ₚ i :: l.
Proof.
  induction l as [|j l IH]; simpl; [done|].
  destruct (Qle_bool (nth i a 0) (nth j a 0)); [done|].
  rewrite IH. apply Permutation_swap.
Qed.

Lemma argsort_fold_perm (a : list Q) (l : list nat) :
  foldr (insert_by a) [] l ≡ₚ l.
Proof.
  induction l as [|i l IH]; simpl; [done|].
  by rewrite insert_by_perm, IH.
Qed.

Lemma insert_by_sorted (a : list Q) (i : nat) (l : list nat) :
  StronglySorted (λ x y, nth x a 0 <= nth y a 0) l →
  StronglySorted (λ x y, nth x a 0 <= nth y a 0) (insert_by a i l).
Proof.
  induction 1 as [|j l Hs IH Hj]; simpl; [repeat constructor|].
  destruct (Qle_bool (nth i a 0) (nth j a 0)) eqn:E.
  - apply Qle_bool_iff in E. constructor; [by constructor|].
    constructor; [done|]. eapply Forall_impl; [exact Hj|].
    intros y Hy. simpl in Hy. by apply (Qle_trans _ (nth j a 0)).
  - apply Qle_bool_false in E. constructor; [done|].
    rewrite insert_by_perm. constructor; [|done]. by apply Qlt_le_weak.
Qed.

Lemma argsort_fold_sorted (a : list Q) (l : list nat) :
  StronglySorted (λ x y, nth x a 0 <= nth y a 0) (foldr (insert_by a) [] l).
Proof.
  induction l as [|i l IH]; simpl; [constructor|].
  by apply insert_by_sorted.
Qed.

Lemma sorted_lookup_le (a : list Q) (l : list nat) (p q x y : nat) :
  StronglySorted (λ x y, nth x a 0 <= nth y a 0) l →
  (p ≤ q)%nat → l !! p = Some x → l !! q = Some y →
  nth x a 0 <= nth y a 0.
Proof.
  intros Hs. revert p q. induction Hs as [|j l Hs IH Hj]; intros p q Hpq.
  - by rewrite lookup_nil.
  - destruct p as [|p], q as [|q]; simpl; try lia.
    + intros [= <-] [= <-]. apply Qle_refl.
    + intros [= <-] Hy. rewrite Forall_forall in Hj. apply Hj.
      by eapply list_elem_of_lookup_2.
    + apply IH. lia.
Qed.

(** Sorting the indices by their values partitions them around every
    position. *)
Lemma argsort_partitioned (a : list Q) (kth : nat) :
  partitioned a kth (argsort a kth).
Proof.
  unfold partitioned, argsort. split; [apply argsort_fold_perm|].
  intros p q ip iq Hp Hq Hip Hiq.
  eapply (sorted_lookup_le a _ p q);
    [apply argsort_fold_sorted|lia|exact Hip|exact Hiq].
Qed.

End ArgsortFacts.

Section KNNClaims.
Import Numpy Py DTWKNN Inputs.

Lemma NoDup_all_eq (l : string) (m : list string) :
  NoDup m → m ≠ [] → (∀ t, t ∈ m → t = l) → m = [l].
Proof.
  intros Hnd Hne Hall. destruct m as [|a m]; [done|].
  assert (a = l) as -> by (apply Hall; by left).
  destruct m as [|b m]; [done|].
  assert (b = l) as -> by (apply Hall; right; by left).
  apply NoDup_cons in Hnd as [Hl _]. exfalso. apply Hl. by left.
Qed.

(** C5, at a classifier with one neighbour fitted on a single reference:
    the nearest reference exists, yet [predict] returns no label, for
    any query and any generator state; [np.argpartition(distances, 1)]
    refuses position 1 of a single distance. *)
Theorem knn_single_reference_counterexample :
  ∃ self, knn 1 [0%Z] ["a"%string] = Ok self ∧
    ∀ s, ¬ ∃ l s',
      predict_single abs_distance argsort counting_randbelow 1
        self 0%Z 1 s = Ok (l, s').
Proof.
  eexists. split; [reflexivity|]. intros s (l & s' & H).
  vm_compute in H. discriminate H.
Qed.

(** X24: on a fitted classifier whose number of neighbours [k] is
    positive, smaller than the number of references and below [2^63],
    [predict] on a single sequence selects [k] distinct references none
    of which is farther from the query than a reference left out,
    tallies their labels, and returns the element that the generator's
    draw below [len(modes)] picks from the duplicate-free list of the
    labels with the highest tally; a label with the strictly highest
    tally is the only candidate and is returned whatever the draw. *)
Theorem knn_predict_modal_label {obs metric rng : Type}
    (fastdtw : obs → obs → Z → metric → Q)
    (argpartition : list Q → nat → list nat)
    (randbelow : rng → nat → nat * rng) (cpu_count : nat)
    (self : t metric) (X : list obs) (y : list string) (o : obs)
    (n_jobs : Z) (s : rng) :
  let k := Z.to_nat (_k self) in
  let d := (λ x, distance fastdtw self o x) <$> X in
  _X self = Some X → _y self = Some y → length X = length y →
  (0 < k)%nat → (k < length X)%nat → (_k self < 2 ^ 63)%Z →
  is_ok (resolve_jobs cpu_count n_jobs) = true →
  partitioned d k (argpartition d k) →
  (∀ n, (0 < n)%nat → ((randbelow s n).1 < n)%nat) →
  ∃ part idx nl modes,
    np_argpartition argpartition d (_k self) = Ok part ∧
    idx = slice_to (_k self) part ∧
    (length idx = k ∧ NoDup idx ∧
     ∀ i, i ∈ idx →
       (i < length X)%nat ∧
       ∀ j, (j < length X)%nat → j ∉ idx → nth i d 0 <= nth j d 0) ∧
    neighbor_labels y idx = Ok nl ∧
    Forall2 (λ i l, y !! i = Some l) idx nl ∧
    find_modes argpartition self y d = Ok modes ∧
    NoDup modes ∧
    (∀ t, t ∈ modes ↔
          t ∈ nl ∧ ∀ t', (occurrences t' nl ≤ occurrences t nl)%nat) ∧
    (∃ l, modes !! (randbelow s (length modes)).1 = Some l ∧
          predict_single fastdtw argpartition randbelow cpu_count
            self o n_jobs s
          = Ok (l, (randbelow s (length modes)).2)) ∧
    (∀ l, l ∈ nl →
          (∀ t', t' ≠ l → (occurrences t' nl < occurrences l nl)%nat) →
          modes = [l] ∧
          predict_single fastdtw argpartition randbelow cpu_count
            self o n_jobs s
          = Ok (l, (randbelow s 1%nat).2)).
Proof.
  intros k d HX Hy Hlen Hk0 Hk Hk63 Hn Hpart Hrand.
  assert (length d = length X) as Hd by apply length_fmap.
  destruct (find_modes_spec argpartition self y d)
    as (nl & modes & Hap & Hsl & Hnl & Hf2 & Hfm & Hnd & Hne & Hm);
    [done|done|lia|done|lia|].
  destruct (selection_spec d k _ Hpart) as (Hl & Hndi & Hsel); [lia|].
  assert (∀ s0, classify fastdtw argpartition randbelow self X y o s0
                = choice randbelow s0 modes) as Hcl.
  { intros s0. unfold classify. fold d. by rewrite Hfm. }
  exists (argpartition d k), (take k (argpartition d k)), nl, modes.
  split; [done|]. split; [done|]. split.
  { split; [done|]. split; [done|]. intros i Hi.
    destruct (Hsel i Hi) as [Hi1 Hi2]. split; [lia|].
    intros j Hj. apply Hi2. lia. }
  split; [done|]. split; [done|]. split; [done|]. split; [done|].
  split; [done|]. split.
  - destruct (choice_spec randbelow s modes Hne) as (l & Hl1 & Hl2).
    { apply Hrand. destruct modes; [done|simpl; lia]. }
    exists l. split; [done|].
    rewrite (predict_single_classify _ _ _ _ self X y) by done.
    by rewrite Hcl.
  - intros l Hin Hstrict.
    assert (modes = [l]) as ->.
    { apply NoDup_all_eq; [done|done|]. intros t [Ht Hmax]%Hm.
      destruct (decide (t = l)) as [|Hne']; [done|].
      specialize (Hstrict t Hne'). specialize (Hmax l). lia. }
    split; [done|].
    rewrite (predict_single_classify _ _ _ _ self X y) by done.
    rewrite Hcl. unfold choice. specialize (Hrand 1%nat ltac:(lia)).
    simpl. destruct (randbelow s 1%nat) as [i s']. simpl in *.
    by replace i with 0%nat by lia.
Qed.

Lemma counting_randbelow_bound (s n : nat) :
  (0 < n)%nat → ((counting_randbelow s n).1 < n)%nat.
Proof. intros Hn. simpl. apply Nat.mod_upper_bound. lia. Qed.

(** The scenario of one neighbour among references labelled a, b, a:
    the query equal to the b-labelled reference is classified b. *)
Lemma knn_predict_modal_label_witness :
  predict_single abs_distance argsort counting_randbelow 1
    three_refs 5%Z 1 0%nat = Ok ("b"%string, 1%nat).
Proof.
  destruct (knn_predict_modal_label abs_distance argsort
              counting_randbelow 1 three_refs [0; 5; 9]%Z
              ["a"; "b"; "a"]%string 5%Z 1 0%nat)
    as (part & idx & nl & modes & Hap & Hidx & _ & Hnl & _ & _ & _ & _ & _
        & Huniq).
  - reflexivity.
  - reflexivity.
  - reflexivity.
  - vm_compute. lia.
  - vm_compute. lia.
  - reflexivity.
  - reflexivity.
  - apply argsort_partitioned.
  - intros n Hn. by apply counting_randbelow_bound.
  - vm_compute in Hap. injection Hap as <-.
    vm_compute in Hidx. subst idx.
    vm_compute in Hnl. injection Hnl as <-.
    destruct (Huniq "b"%string) as [_ Hp].
    + by left.
    + intros t' Hne. unfold occurrences.
      rewrite filter_cons_False by done. rewrite filter_cons_True by done.
      simpl. lia.
    + exact Hp.
Defined.

End KNNClaims.

Section KNNSafetyClaims.
Import Numpy Py DTWKNN Inputs.

(** C10, as stated, fails for a number of neighbours that numpy's
    conversion to a signed 64-bit index wraps around: with
    [k = 2^64 - 1] and three references, [k >= N], the position asked
    of [np.argpartition] is [-1], the last one, and [predict] returns a
    label. *)
Lemma knn_wrapped_neighbor_count_counterexample :
  ∃ self, knn (2 ^ 64 - 1)%Z [0; 5; 9]%Z ["a"; "b"; "a"]%string = Ok self ∧
    _X self = Some [0; 5; 9]%Z ∧
    (Z.of_nat (length [0; 5; 9]%Z) ≤ _k self)%Z ∧
    predict_single abs_distance argsort counting_randbelow 1
      self 5%Z 1 0%nat = Ok ("a"%string, 1%nat).
Proof.
  eexists. split; [vm_compute; reflexivity|]. split; [reflexivity|].
  split; [vm_compute; discriminate|]. vm_compute. reflexivity.
Qed.

(** C10 (amended): construction and [fit] accept any [k >= 1] whatever
    the number [N] of references; with [k >= N], [predict] raises on
    every query and on every non-empty batch, unless
    [2^64 - N <= k < 2^64], where the index conversion wraps [k] back
    into the array; with [0 < k < N] and [k < 2^63],
    [np.argpartition] returns, every neighbour index selected from its
    result is a valid index into the stored labels, the lookup of the
    neighbour labels returns [k] labels, and [find_modes] returns. *)
Theorem knn_neighbor_count_safety {obs metric rng : Type}
    (fastdtw : obs → obs → Z → metric → Q)
    (argpartition : list Q → nat → list nat)
    (randbelow : rng → nat → nat * rng) (cpu_count : nat) :
  (∀ (k radius : Z) (m : metric) (X : list obs) (y : list string),
     (1 ≤ k)%Z → (1 ≤ radius)%Z → length X = length y →
     ∃ c self, __init__ k radius m = Ok c ∧ fit c X y = Ok self ∧
               _k self = k ∧ _X self = Some X ∧ _y self = Some y) ∧
  (∀ (self : t metric) X y (o : obs) n_jobs (s : rng),
     _X self = Some X → _y self = Some y →
     (Z.of_nat (length X) ≤ _k self)%Z →
     ¬ (2 ^ 64 - Z.of_nat (length X) ≤ _k self < 2 ^ 64)%Z →
     is_ok (resolve_jobs cpu_count n_jobs) = true →
     ∃ e, predict_single fastdtw argpartition randbelow cpu_count
            self o n_jobs s = Raise e) ∧
  (∀ (process_state : nat → rng) (shape : obs → list nat)
     (self : t metric) X y (batch : list obs) n_jobs (s : rng),
     _X self = Some X → _y self = Some y →
     (Z.of_nat (length X) ≤ _k self)%Z →
     ¬ (2 ^ 64 - Z.of_nat (length X) ≤ _k self < 2 ^ 64)%Z →
     batch ≠ [] →
     (1 ≤ cpu_count)%nat → (n_jobs = -1 ∨ 0 < n_jobs)%Z →
     ∃ e, predict fastdtw argpartition randbelow cpu_count process_state
            shape self batch n_jobs s = Raise e) ∧
  (∀ (self : t metric) X y (o : obs),
     _X self = Some X → _y self = Some y → length X = length y →
     let k := Z.to_nat (_k self) in
     let d := (λ x, distance fastdtw self o x) <$> X in
     (0 < k)%nat → (k < length X)%nat → (_k self < 2 ^ 63)%Z →
     partitioned d k (argpartition d k) →
     ∃ part nl,
       np_argpartition argpartition d (_k self) = Ok part ∧
       (∀ i, i ∈ slice_to (_k self) part →
             (i < length y)%nat ∧ is_Some (y !! i)) ∧
       neighbor_labels y (slice_to (_k self) part) = Ok nl ∧
       length nl = k ∧
       is_ok (find_modes argpartition self y d) = true).
Proof.
  split; [|split; [|split]].
  - intros k radius m X y Hk Hr Hlen.
    unfold __init__, restricted_integer.
    destruct (Z.ltb_spec 0 k); [|lia].
    destruct (Z.ltb_spec 0 radius); [|lia]. simpl.
    eexists. eexists. split; [done|].
    unfold fit, observation_sequences_and_labels.
    rewrite Hlen, Nat.eqb_refl. simpl. done.
  - intros self X y o n_jobs s HX Hy Hk Hw Hn.
    rewrite (predict_single_classify _ _ _ _ self X y) by done.
    by apply classify_too_many_neighbors.
  - intros process_state shape self X y batch n_jobs s HX Hy Hk Hw Hb Hc Hn.
    by apply (predict_too_many_neighbors _ _ _ _ _ shape self X y).
  - intros self X y o HX Hy Hlen k d Hk0 Hk Hk63 Hpart.
    assert (length d = length X) as Hd by apply length_fmap.
    destruct (find_modes_spec argpartition self y d)
      as (nl & modes & Hap & Hsl & Hnl & Hf2 & Hfm & _);
      [done|done|lia|done|lia|].
    destruct (selection_spec d k _ Hpart) as (Hl & _ & Hsel); [lia|].
    exists (argpartition d k), nl. split; [done|]. subst k. rewrite Hsl.
    split; [|split; [done|split]].
    + intros i Hi. destruct (Hsel i Hi) as [Hlt _].
      rewrite Hd, Hlen in Hlt. split; [done|].
      by apply lookup_lt_is_Some_2.
    + apply Forall2_length in Hf2. by rewrite <- Hf2.
    + by rewrite Hfm.
Qed.

Lemma knn_neighbor_count_safety_witness :
  (∃ c self, __init__ 3 1 tt = Ok c ∧
             fit c [0%Z] ["a"%string] = Ok self ∧
             _k self = 3%Z ∧ _X self = Some [0%Z] ∧
             _y self = Some ["a"%string]) ∧
  (∃ e, predict_single abs_distance argsort counting_randbelow 1
          one_ref 0%Z 1 0%nat = Raise e) ∧
  (∃ e, predict abs_distance argsort counting_randbelow 1 workers_at_one
          frame_shape one_ref [0; 3]%Z 4 0%nat = Raise e) ∧
  (∃ part nl,
     np_argpartition argsort
       ((λ x, distance abs_distance three_refs 5%Z x) <$> [0; 5; 9]%Z)
       (_k three_refs) = Ok part ∧
     (∀ i, i ∈ slice_to (_k three_refs) part →
           (i < length ["a"; "b"; "a"]%string)%nat ∧
           is_Some (["a"; "b"; "a"]%string !! i)) ∧
     neighbor_labels ["a"; "b"; "a"]%string
       (slice_to (_k three_refs) part) = Ok nl ∧
     length nl = Z.to_nat (_k three_refs) ∧
     is_ok (find_modes argsort three_refs ["a"; "b"; "a"]%string
              ((λ x, distance abs_distance three_refs 5%Z x)
                 <$> [0; 5; 9]%Z)) = true).
Proof.
  pose proof (knn_neighbor_count_safety (obs:=Z) (metric:=unit)
                abs_distance argsort counting_randbelow 1)
    as (Hfit & Hraise & Hbatch & Hidx).
  split; [|split; [|split]].
  - apply Hfit; [lia|lia|reflexivity].
  - apply (Hraise one_ref [0%Z] ["a"%string]);
      [reflexivity|reflexivity|vm_compute; discriminate
      |intros [H _]; vm_compute in H; exact (H eq_refl)|reflexivity].
  - apply (Hbatch workers_at_one frame_shape one_ref [0%Z] ["a"%string]);
      [reflexivity|reflexivity|vm_compute; discriminate
      |intros [H _]; vm_compute in H; exact (H eq_refl)|done|lia|lia].
  - apply (Hidx three_refs [0; 5; 9]%Z ["a"; "b"; "a"]%string 5%Z);
      [reflexivity|reflexivity|reflexivity|vm_compute; lia|vm_compute; lia
      |reflexivity|].
    apply argsort_partitioned.
Defined.

End KNNSafetyClaims.

(** ** Batches in the k-NN classifier *)

Section KNNBatchFacts.
Import Numpy Py DTWKNN.
Context {obs metric rng : Type}.
Context (fastdtw : obs → obs → Z → metric → Q).
Context (argpartition : list Q → nat → list nat).
Context (randbelow : rng → nat → nat * rng).
Context (cpu_count : nat) (process_state : nat → rng).
Context (shape : obs → list nat).
Context (self : @t obs metric) (X : list obs) (y : list string).

Local Abbreviation single_mode :=
  (DTWKNN.single_mode fastdtw argpartition self X y).

Hypothesis randbelow_bound :
  ∀ s n, (0 < n)%nat → ((randbelow s n).1 < n)%nat.

Lemma classify_single_mode o l s :
  single_mode o l →
  classify fastdtw argpartition randbelow self X y o s
  = Ok (l, (randbelow s 1%nat).2).
Proof using randbelow_bound.
  intros Hm. unfold classify. unfold DTWKNN.single_mode in Hm. rewrite Hm.
  simpl. pose proof (randbelow_bound s 1%nat ltac:(lia)) as Hb.
  destruct (randbelow s 1%nat) as [i s']. simpl in *.
  by replace i with 0%nat by lia.
Qed.

Lemma classify_all_single_mode batch s :
  Forall (λ o, ∃ l, single_mode o l) batch →
  ∃ labels s',
    classify_all fastdtw argpartition randbelow self X y batch s
    = Ok (labels, s') ∧
    Forall2 single_mode batch labels.
Proof using randbelow_bound.
  revert s. induction batch as [|o batch IH]; intros s Hall.
  - exists [], s. by split.
  - inversion Hall as [|? ? [l Hl] Hrest]; subst.
    destruct (IH (randbelow s 1%nat).2 Hrest) as (ls & s' & Hc & Hf).
    exists (l :: ls), s'. cbn [classify_all].
    rewrite (classify_single_mode o l s Hl). simpl. rewrite Hc. simpl.
    split; [done|]. by constructor.
Qed.

Lemma single_mode_functional batch l1 l2 :
  Forall2 single_mode batch l1 → Forall2 single_mode batch l2 → l1 = l2.
Proof.
  intros H1. revert l2. induction H1 as [|o l b ls Hl _ IH];
    intros l2 H2; inversion H2 as [|? l' ? ls' Hl' Hrest]; subst; [done|].
  unfold DTWKNN.single_mode in Hl, Hl'. rewrite Hl in Hl'.
  injection Hl' as <-. f_equal. by apply IH.
Qed.

Lemma workers_single_mode (tasks : list (nat * list obs)) :
  Forall (Forall (λ o, ∃ l, single_mode o l)) tasks.*2 →
  ∃ labelss,
    mapM (λ ic, parallel_predict fastdtw argpartition randbelow
                  process_state self X y (S ic.1) ic.2) tasks
    = Ok labelss ∧
    Forall2 single_mode (concat tasks.*2) (concat labelss).
Proof using randbelow_bound.
  induction tasks as [|[i c] tasks IH]; intros Hall.
  - exists []. split; [done|]. constructor.
  - rewrite fmap_cons in Hall.
    inversion Hall as [|? ? Hc Hrest]; subst.
    destruct (IH Hrest) as (lss & Hm & Hf).
    destruct (classify_all_single_mode c (process_state (S i)) Hc)
      as (ls & s' & Hcl & Hfl).
    exists (ls :: lss). cbn [mapM].
    change (parallel_predict fastdtw argpartition randbelow process_state
              self X y (S (i, c).1) (i, c).2)
      with (fst <$> classify_all fastdtw argpartition randbelow self X y c
                      (process_state (S i))).
    rewrite Hcl. simpl. rewrite Hm. simpl. split; [done|].
    by apply Forall2_app.
Qed.

Lemma imap_pair_snd {A} (l : list A) : (imap pair l).*2 = l.
Proof.
  apply list_eq. intros i. rewrite list_lookup_fmap, list_lookup_imap.
  by destruct (l !! i).
Qed.

Lemma Forall_concat_chunks {A} (P : A → Prop) (chunks : list (list A)) :
  Forall P (concat chunks) → Forall (Forall P) chunks.
Proof.
  induction chunks as [|c chunks IH]; simpl; [constructor|].
  intros [? ?]%Forall_app. constructor; auto.
Qed.

(** With a single modal label for every query, the labels of a batch do
    not depend on the number of jobs; more than one job needs sequences
    of one shape. *)
Lemma knn_predict_single_mode batch n_jobs s :
  _X self = Some X → _y self = Some y →
  (1 ≤ cpu_count)%nat → (n_jobs = -1 ∨ 0 < n_jobs)%Z →
  (n_jobs = 1%Z ∨ same_shape shape batch = true) →
  Forall (λ o, ∃ l, single_mode o l) batch →
  ∃ labels,
    Forall2 single_mode batch labels ∧
    fst <$> predict fastdtw argpartition randbelow cpu_count process_state
              shape self batch n_jobs s
    = Ok labels.
Proof using randbelow_bound.
  intros HX Hy Hc Hn Hshape Hall. unfold predict, fitted_data.
  rewrite HX, Hy. simpl.
  destruct (resolve_jobs_pos cpu_count n_jobs Hc Hn) as (jobs & -> & Hj).
  simpl. destruct (Z.eqb_spec n_jobs 1).
  - destruct (classify_all_single_mode batch s Hall)
      as (labels & s' & -> & Hf).
    by exists labels.
  - destruct Hshape as [|Hshape]; [done|]. unfold array_split_sequences.
    destruct (array_split_spec batch jobs) as (chunks & -> & Hcat & _);
      [lia|]. cbn [mbind result_bind]. rewrite Hshape. simpl.
    destruct (workers_single_mode (imap pair chunks))
      as (lss & -> & Hf).
    { rewrite imap_pair_snd. apply Forall_concat_chunks.
      by rewrite Hcat. }
    rewrite imap_pair_snd, Hcat in Hf. simpl. by exists (concat lss).
Qed.

(** With more than one job, a batch of sequences that differ in shape
    is refused by [np.array_split]. *)
Lemma knn_predict_ragged batch n_jobs s :
  _X self = Some X → _y self = Some y →
  (1 ≤ cpu_count)%nat → (n_jobs = -1 ∨ 1 < n_jobs)%Z →
  same_shape shape batch = false →
  predict fastdtw argpartition randbelow cpu_count process_state
    shape self batch n_jobs s
  = Raise (ValueError "setting an array element with a sequence. The requested array has an inhomogeneous shape").
Proof.
  intros HX Hy Hc Hn Hshape. unfold predict, fitted_data.
  rewrite HX, Hy. simpl.
  destruct (resolve_jobs_pos cpu_count n_jobs Hc) as (jobs & -> & Hj); [lia|].
  simpl. destruct (Z.eqb_spec n_jobs 1); [lia|].
  unfold array_split_sequences.
  destruct (array_split_spec batch jobs) as (chunks & -> & _); [lia|].
  cbn [mbind result_bind]. by rewrite Hshape.
Qed.

End KNNBatchFacts.

Section ParallelClaims.
Import Numpy Py Inputs.

(** C4, as stated, fails for the k-NN classifier: a query tied between
    two labels is settled by the generator of the process that handles
    it, and a worker's draw may differ from the caller's. *)
Lemma knn_parallel_tie_counterexample :
  fst <$> DTWKNN.predict abs_distance argsort counting_randbelow 1
            workers_at_one frame_shape tied_refs [1%Z] 1 0%nat
  ≠ fst <$> DTWKNN.predict abs_distance argsort counting_randbelow 1
              workers_at_one frame_shape tied_refs [1%Z] 4 0%nat.
Proof. intros H. vm_compute in H. discriminate H. Qed.

(** C4 (amended): for the ensemble classifier, every state and every
    batch, [predict] returns the same labels and the same score matrix
    for any two admissible numbers of jobs; for the k-NN classifier,
    [predict] returns the same labels for any two admissible numbers of
    jobs on a batch of sequences of one shape in which every query has
    a single modal label. *)
Theorem predict_parallel_serial
    {obs hmm seqs metric rng : Type}
    (forward : hmm → obs → Q) (log : Q → Q)
    (fastdtw : seqs → seqs → Z → metric → Q)
    (argpartition : list Q → nat → list nat)
    (randbelow : rng → nat → nat * rng)
    (process_state : nat → rng) (cpu_count : nat)
    (shape : seqs → list nat) :
  (1 ≤ cpu_count)%nat →
  (∀ (self : HMMClassifier.t hmm) (X : list obs) pr rs ol (n1 n2 : Z),
     (n1 = -1 ∨ 0 < n1)%Z → (n2 = -1 ∨ 0 < n2)%Z →
     HMMClassifier.predict forward log cpu_count self X pr rs ol n1 =
     HMMClassifier.predict forward log cpu_count self X pr rs ol n2) ∧
  (∀ (self : DTWKNN.t metric) (X : list seqs) (y : list string)
     (batch : list seqs) (n1 n2 : Z) (s : rng),
     DTWKNN._X self = Some X → DTWKNN._y self = Some y →
     (n1 = -1 ∨ 0 < n1)%Z → (n2 = -1 ∨ 0 < n2)%Z →
     (∀ s n, (0 < n)%nat → ((randbelow s n).1 < n)%nat) →
     DTWKNN.same_shape shape batch = true →
     Forall (λ o, ∃ l, DTWKNN.single_mode fastdtw argpartition self X y o l)
       batch →
     ∃ labels,
       fst <$> DTWKNN.predict fastdtw argpartition randbelow cpu_count
                 process_state shape self batch n1 s = Ok labels ∧
       fst <$> DTWKNN.predict fastdtw argpartition randbelow cpu_count
                 process_state shape self batch n2 s = Ok labels).
Proof.
  intros Hc. split.
  - intros self X pr rs ol n1 n2 H1 H2. by apply hmm_predict_jobs.
  - intros self X y batch n1 n2 s HX Hy H1 H2 Hr Hshape Hall.
    destruct (knn_predict_single_mode fastdtw argpartition randbelow
                cpu_count process_state shape self X y Hr batch n1 s)
      as (l1 & Hl1 & Hp1); [done|done|done|done|by right|done|].
    destruct (knn_predict_single_mode fastdtw argpartition randbelow
                cpu_count process_state shape self X y Hr batch n2 s)
      as (l2 & Hl2 & Hp2); [done|done|done|done|by right|done|].
    exists l1. split; [done|]. rewrite Hp2. f_equal.
    by apply (single_mode_functional fastdtw argpartition self X y batch).
Qed.

Lemma predict_parallel_serial_witness :
  HMMClassifier.predict const_forward log_stub 1 fitted_cab [(); (); ()]
    HMMClassifier.Uniform true true 1 =
  HMMClassifier.predict const_forward log_stub 1 fitted_cab [(); (); ()]
    HMMClassifier.Uniform true true 4 ∧
  ∃ labels,
    fst <$> DTWKNN.predict abs_distance argsort counting_randbelow 1
              workers_at_one frame_shape three_refs [5; 0; 9]%Z 1 0%nat
    = Ok labels ∧
    fst <$> DTWKNN.predict abs_distance argsort counting_randbelow 1
              workers_at_one frame_shape three_refs [5; 0; 9]%Z 4 0%nat
    = Ok labels.
Proof.
  pose proof (predict_parallel_serial (obs:=unit) const_forward log_stub
                abs_distance argsort counting_randbelow workers_at_one 1
                frame_shape ltac:(lia)) as [Hh Hk].
  split.
  - apply Hh; lia.
  - apply (Hk three_refs [0; 5; 9]%Z ["a"; "b"; "a"]%string);
      [reflexivity|reflexivity|lia|lia| |reflexivity|].
    + intros s n Hn. by apply counting_randbelow_bound.
    + constructor; [exists "b"%string; vm_compute; reflexivity|].
      constructor; [exists "a"%string; vm_compute; reflexivity|].
      constructor; [exists "a"%string; vm_compute; reflexivity|].
      constructor.
Defined.

End ParallelClaims.

(** ** Saving and loading *)

Section PersistenceFacts.
Import Numpy Py Inputs.

(** The ensemble classifier survives a round trip through [pickle]. *)
Lemma hmm_save_load {hmm blob : Type}
    (pickle_dumps : HMMClassifier.t hmm → blob)
    (pickle_loads : blob → result (HMMClassifier.t hmm))
    (self : HMMClassifier.t hmm) (models : list (HMMClassifier.GMMHMM hmm)) :
  (∀ c, pickle_loads (pickle_dumps c) = Ok c) →
  HMMClassifier._models_ self = Some models →
  (b ← HMMClassifier.save pickle_dumps self;
   HMMClassifier.load pickle_loads b) = Ok self.
Proof.
  intros Hp Hm. unfold HMMClassifier.save, HMMClassifier.load,
    HMMClassifier.models_.
  rewrite Hm. simpl. apply Hp.
Qed.

Lemma strip_nul_nuls (n : nat) :
  DTWKNN.strip_nul (string_of_list_ascii (replicate n DTWKNN.NUL))
  = EmptyString.
Proof.
  induction n as [|n IH]; [done|]. cbn [replicate string_of_list_ascii].
  cbn [DTWKNN.strip_nul]. by rewrite IH.
Qed.

Lemma strip_nul_app_nuls (s : string) (n : nat) :
  DTWKNN.strip_nul
    (s ++ string_of_list_ascii (replicate n DTWKNN.NUL))%string
  = DTWKNN.strip_nul s.
Proof.
  induction s as [|c s IH]; [apply strip_nul_nuls|].
  change (DTWKNN.strip_nul
            (String c (s ++ string_of_list_ascii (replicate n DTWKNN.NUL)))
          = DTWKNN.strip_nul (String c s)).
  cbn [DTWKNN.strip_nul]. by rewrite IH.
Qed.

Lemma strip_nul_pad (w : nat) (s : string) :
  DTWKNN.strip_nul s = s → DTWKNN.strip_nul (DTWKNN.pad w s) = s.
Proof. intros H. unfold DTWKNN.pad. by rewrite strip_nul_app_nuls. Qed.

Lemma create_datasets_up_to_ten {obs : Type} (X : list obs) :
  (length X ≤ 10)%nat →
  ∃ g, DTWKNN.create_datasets 0 X [] = Ok g ∧ g.*2 = X.
Proof.
  intros H.
  do 11 (destruct X as [|? X]; [by eexists|]).
  simpl in H. lia.
Qed.

Lemma h5_int_ok (x : Z) : (0 < x < 2 ^ 64)%Z → DTWKNN.h5_int x = Ok x.
Proof.
  intros Hx. unfold DTWKNN.h5_int.
  rewrite (proj2 (Z.leb_le (- 2 ^ 63) x)) by lia.
  by rewrite (proj2 (Z.ltb_lt x (2 ^ 64))) by lia.
Qed.

(** A non-empty list of ASCII labels becomes an array of byte strings
    of one width. *)
Lemma np_string_ok (y : list string) :
  y ≠ [] → forallb DTWKNN.is_ascii y = true →
  DTWKNN.np_string_ y
  = Ok (DTWKNN.BytesArray
          (DTWKNN.pad (foldr Nat.max 1%nat (String.length <$> y)) <$> y)).
Proof.
  intros Hy Hascii. unfold DTWKNN.np_string_.
  destruct y as [|l y]; [done|]. by rewrite Hascii.
Qed.

(** With at least one and at most ten references, and ASCII labels that
    do not end in a NUL character, the k-NN classifier survives a round
    trip. *)
Lemma knn_save_load_up_to_ten {obs metric : Type}
    (self : DTWKNN.t metric) (X : list obs) (y : list string) :
  DTWKNN._X self = Some X → DTWKNN._y self = Some y →
  (0 < DTWKNN._k self < 2 ^ 64)%Z → (0 < DTWKNN._radius self < 2 ^ 64)%Z →
  (length X ≤ 10)%nat → y ≠ [] →
  Forall (λ l, DTWKNN.is_ascii l = true ∧ DTWKNN.strip_nul l = l) y →
  (f ← DTWKNN.save self; DTWKNN.load f (DTWKNN._metric self)) = Ok self.
Proof.
  intros HX Hy Hk Hr Hlen Hne Hlab. unfold DTWKNN.save, DTWKNN.fitted_data.
  rewrite HX, Hy. simpl. rewrite !h5_int_ok by done. simpl.
  destruct (create_datasets_up_to_ten X Hlen) as (g & -> & Hg). simpl.
  rewrite np_string_ok; [|done|].
  2:{ apply forallb_forall. intros l Hl%list_elem_of_In.
      rewrite Forall_forall in Hlab. by apply Hlab. }
  simpl. unfold DTWKNN.load, DTWKNN.__init__, Py.restricted_integer.
  simpl. destruct (Z.ltb_spec 0 (DTWKNN._k self)); [|lia].
  destruct (Z.ltb_spec 0 (DTWKNN._radius self)); [|lia]. simpl.
  rewrite Hg, <- list_fmap_compose.
  rewrite (list_fmap_ext _ id y); [rewrite list_fmap_id|].
  - destruct self; simpl in *. by subst.
  - intros i l Hl. simpl. apply strip_nul_pad.
    rewrite Forall_forall in Hlab. apply Hlab.
    by eapply list_elem_of_lookup_2.
Qed.

End PersistenceFacts.

Section PersistenceClaims.
Import Numpy Py Inputs.

(** C1, at a k-NN classifier fitted on the eleven references [0..10]
    labelled l0..l10: the saved references are read back in the order of
    their dataset names, 0, 1, 10, 2, ..., 9, while the labels keep their
    order, so the loaded classifier pairs the reference [10] with the
    label l2 and classifies the query [10] differently. *)
Theorem knn_roundtrip_eleven_references :
  ∃ self f loaded,
    knn 1 refs11 labels11 = Ok self ∧
    DTWKNN.save self = Ok f ∧
    DTWKNN.load f tt = Ok loaded ∧
    DTWKNN._X self = Some [0; 1; 2; 3; 4; 5; 6; 7; 8; 9; 10]%Z ∧
    DTWKNN._X loaded = Some [0; 1; 10; 2; 3; 4; 5; 6; 7; 8; 9]%Z ∧
    DTWKNN._y loaded = DTWKNN._y self ∧
    DTWKNN.predict_single abs_distance argsort counting_randbelow 1
      self 10%Z 1 0%nat = Ok ("l10"%string, 1%nat) ∧
    DTWKNN.predict_single abs_distance argsort counting_randbelow 1
      loaded 10%Z 1 0%nat = Ok ("l2"%string, 1%nat).
Proof.
  do 3 eexists.
  split; [vm_compute; reflexivity|].
  split; [vm_compute; reflexivity|].
  split; [vm_compute; reflexivity|].
  repeat split; vm_compute; reflexivity.
Qed.

End PersistenceClaims.

(** ** Freezing and unfreezing parameters *)

Section FreezeClaims.
Import Variants.

(** C9: for both variants, [unfreeze] is [freeze]: it leaves the model in
    the state [freeze] would, so that, the base class's [freeze] never
    removing a parameter from the skipped set, a parameter frozen earlier
    stays frozen and untrained after [unfreeze]. *)
Theorem unfreeze_is_freeze (HMM_freeze : string → HMM → HMM) :
  (∀ v params self,
     unfreeze HMM_freeze v params self = freeze HMM_freeze v params self) ∧
  ((∀ p self, _skip_params self ⊆ _skip_params (HMM_freeze p self)) →
   ∀ v params self c,
     c ∈ _skip_params self →
     c ∈ _skip_params (unfreeze HMM_freeze v params self) ∧
     c ∉ trained_params (unfreeze HMM_freeze v params self)).
Proof.
  split; [done|]. intros Hmono v params self c Hc.
  assert (c ∈ _skip_params (unfreeze HMM_freeze v params self)) as H.
  { unfold unfreeze. by apply Hmono. }
  split; [done|]. unfold trained_params. rewrite elem_of_difference.
  by intros [_ Hn].
Qed.

Lemma base_freeze_grows (p : string) (self : HMM) :
  _skip_params self ⊆ _skip_params (base_freeze p self).
Proof. unfold base_freeze. simpl. apply union_subseteq_l. Qed.

Lemma unfreeze_is_freeze_witness :
  "t"%char ∈ _skip_params
              (unfreeze base_freeze GaussianMixtureHMM (Some "t"%string)
                 Inputs.frozen_transitions) ∧
  "t"%char ∉ trained_params
              (unfreeze base_freeze GaussianMixtureHMM (Some "t"%string)
                 Inputs.frozen_transitions).
Proof.
  apply (proj2 (unfreeze_is_freeze base_freeze) base_freeze_grows).
  unfold Inputs.frozen_transitions, base_freeze, set_of. simpl.
  apply elem_of_union_r, elem_of_union_l, elem_of_singleton. reflexivity.
Defined.

End FreezeClaims.

(** ** The order of the encoder's classes *)

Section EncoderFacts.
Import Py.

Lemma compare_Lt_trans s t u :
  String.compare s t = Lt → String.compare t u = Lt → String.compare s u = Lt.
Proof.
  intros H1%OrderedTypeEx.String_as_OT.cmp_lt.
  intros H2%OrderedTypeEx.String_as_OT.cmp_lt.
  apply OrderedTypeEx.String_as_OT.cmp_lt.
  by apply (OrderedTypeEx.String_as_OT.lt_trans s t u).
Qed.

Lemma compare_Gt_Lt s t : String.compare s t = Gt → String.compare t s = Lt.
Proof. intros H. rewrite String.compare_antisym, H. done. Qed.

Lemma insert_unique_HdRel y x l :
  String.compare y x = Lt →
  HdRel (λ s t, String.compare s t = Lt) y l →
  HdRel (λ s t, String.compare s t = Lt) y (insert_unique x l).
Proof.
  intros Hyx Hhd. destruct l as [|z l]; simpl; [by constructor|].
  inversion Hhd; subst.
  destruct (String.compare x z); by constructor.
Qed.

Lemma insert_unique_sorted x l :
  Sorted (λ s t, String.compare s t = Lt) l →
  Sorted (λ s t, String.compare s t = Lt) (insert_unique x l).
Proof.
  induction 1 as [|y l Hs IH Hhd]; simpl; [by repeat constructor|].
  destruct (String.compare x y) eqn:E.
  - by constructor.
  - constructor; [by constructor|by constructor].
  - constructor; [done|]. apply insert_unique_HdRel; [|done].
    by apply compare_Gt_Lt.
Qed.

(** The encoder's classes are strictly increasing. *)
Lemma unique_strictly_sorted l :
  StronglySorted (λ s t, String.compare s t = Lt) (unique l).
Proof.
  apply Sorted_StronglySorted.
  - intros s t u. apply compare_Lt_trans.
  - induction l as [|x l IH]; [constructor|].
    unfold unique in *. cbn [foldr]. by apply insert_unique_sorted.
Qed.

Lemma strictly_sorted_NoDup l :
  StronglySorted (λ s t, String.compare s t = Lt) l → NoDup l.
Proof.
  induction 1 as [|x l Hs IH Hx]; [constructor|].
  constructor; [|done]. intros Hin. rewrite Forall_forall in Hx.
  by apply (compare_Lt_neq x x (Hx x Hin)).
Qed.

Lemma strictly_sorted_lookup l i j s t :
  StronglySorted (λ s t, String.compare s t = Lt) l →
  (i < j)%nat → l !! i = Some s → l !! j = Some t → String.compare s t = Lt.
Proof.
  intros Hs. revert i j. induction Hs as [|x l Hs IH Hx]; intros i j Hij.
  - by rewrite lookup_nil.
  - destruct i as [|i], j as [|j]; simpl; try lia.
    + intros [= <-] Ht. rewrite Forall_forall in Hx. apply Hx.
      by eapply list_elem_of_lookup_2.
    + apply IH. lia.
Qed.

End EncoderFacts.

(** ** Start probabilities, error order and patterns of the topologies *)

Section TopologyDetails.
Import Numpy Topology Inputs.


Lemma close_one_bound (x : Q) :
  close x 1 ↔ Qabs (x - 1) <= 1001 # 100000000.
Proof.
  unfold close.
  assert (atol + rtol * Qabs 1 == 1001 # 100000000) as -> by reflexivity.
  done.
Qed.

(** X1: [check_start_probs] returns its argument exactly when the
    argument has length [n] and its sum differs from one by at most
    [1.001e-5], the default tolerance of [np.isclose] at one; a wrong
    length is reported with the shape message whatever the sum, and a
    wrong sum with the sum message. *)
Theorem check_start_probs_decides n initial :
  (check_start_probs n initial = Ok initial ↔
     length initial = n ∧ Qabs (sum initial - 1) <= 1001 # 100000000) ∧
  (length initial ≠ n →
     check_start_probs n initial =
     Raise (ValueError "Initial state distribution must be of shape (n_states,)")) ∧
  (length initial = n → ¬ Qabs (sum initial - 1) <= 1001 # 100000000 →
     check_start_probs n initial =
     Raise (ValueError "Initial state distribution must sum to one")).
Proof.
  unfold check_start_probs.
  destruct (Nat.eqb_spec (length initial) n) as [Hl|Hl]; simpl.
  - destruct (isclose (sum initial) 1) eqn:E; simpl.
    + apply isclose_spec, close_one_bound in E.
      split; [done|]. split; [done|]. by intros _ [].
    + split; [|split; [done|done]].
      split; [done|]. intros [_ Hc]. apply close_one_bound, isclose_spec in Hc.
      congruence.
  - split; [|split; [done|done]]. split; [done|]. by intros [? _].
Qed.



(** X2: for every [n >= 1] the uniform initial distribution and every
    random one (drawn with a sampler whose samples have the requested
    length and sum to one within tolerance) pass [check_start_probs]; the
    random one is the sampler's single draw for the all-ones parameter. *)
Theorem generated_start_probs_validate {rng}
    (dirichlet : rng → vector → vector * rng) (n : nat) :
  (∀ s alpha, alpha ≠ [] →
     length (dirichlet s alpha).1 = length alpha ∧
     close (sum (dirichlet s alpha).1) 1) →
  (1 ≤ n)%nat →
  check_start_probs n (uniform_start_probs n) = Ok (uniform_start_probs n) ∧
  ∀ s, random_start_probs dirichlet n s =
         ((dirichlet s (ones n)).1, (dirichlet s (ones n)).2) ∧
       check_start_probs n (random_start_probs dirichlet n s).1
       = Ok (random_start_probs dirichlet n s).1.
Proof.
  intros Hd Hn. split.
  - unfold check_start_probs, uniform_start_probs, vdiv_scalar, ones.
    rewrite length_fmap, length_replicate, Nat.eqb_refl. simpl.
    rewrite fmap_replicate.
    assert (isclose (sum (replicate n (1 / Qnat n))) 1 = true) as ->; [|done].
    apply isclose_spec, uniform_block_sum. lia.
  - intros s. unfold random_start_probs. cbn [dirichlet_size].
    assert (ones n ≠ []) as Hne by (unfold ones; destruct n; [lia|done]).
    destruct (Hd s (ones n) Hne) as [Hl Hc].
    destruct (dirichlet s (ones n)) as [v s1]. simpl in *.
    rewrite app_nil_r. split; [done|].
    unfold check_start_probs. unfold ones in Hl.
    rewrite length_replicate in Hl. rewrite Hl, Nat.eqb_refl. simpl.
    apply isclose_spec in Hc. by rewrite Hc.
Qed.

Lemma generated_start_probs_validate_witness :
  check_start_probs 3 (uniform_start_probs 3) = Ok (uniform_start_probs 3) ∧
  ∀ s, random_start_probs flat_dirichlet 3 s =
         ((flat_dirichlet s (ones 3)).1, (flat_dirichlet s (ones 3)).2) ∧
       check_start_probs 3 (random_start_probs flat_dirichlet 3 s).1
       = Ok (random_start_probs flat_dirichlet 3 s).1.
Proof.
  apply (generated_start_probs_validate flat_dirichlet 3).
  - apply flat_dirichlet_simplex.
  - lia.
Defined.



Lemma base_check_errors n T :
  (¬ shape_ok n T →
   base_check_transitions n T =
   Raise (ValueError "Transition matrix must be of shape (n_states, n_states)")) ∧
  (shape_ok n T → ¬ rows_normalised T →
   base_check_transitions n T =
   Raise (ValueError "Transition probabilities out of each state must sum to one")) ∧
  (shape_ok n T → rows_normalised T → base_check_transitions n T = Ok T).
Proof.
  pose proof (base_check_ok n T) as Hok.
  unfold base_check_transitions in *.
  destruct (has_shape T n n) eqn:Es; simpl in *.
  - apply has_shape_spec in Es.
    destruct (allclose (sum_axis1 T) (ones n)); simpl in *.
    + destruct Hok as [Hok _]. destruct (Hok eq_refl) as [_ Hr].
      split; [done|]. split; done.
    + split; [done|]. split; [done|].
      intros Hs Hr. destruct Hok as [_ Hok]. by discriminate Hok.
  - split; [done|]. split; intros Hs%has_shape_spec; congruence.
Qed.

Lemma leftright_check_errors n T :
  shape_ok n T → rows_normalised T →
  (¬ pattern_within_tolerance LeftRight T →
   leftright_check_transitions n T =
   Raise (ValueError "Left-right transition matrix must be upper-triangular")) ∧
  (pattern_within_tolerance LeftRight T →
   leftright_check_transitions n T = Ok T).
Proof.
  intros Hs Hr. pose proof (leftright_check_ok n T) as Hok.
  destruct (base_check_errors n T) as (_ & _ & Hb).
  unfold leftright_check_transitions in *. rewrite (Hb Hs Hr) in *.
  simpl in *. destruct (allclose2 T (triu T 0)); simpl in *.
  - destruct Hok as [Hok _]. destruct (Hok eq_refl) as (_ & _ & Hp).
    split; done.
  - split; [done|]. intros Hp. destruct Hok as [_ Hok]. by discriminate Hok.
Qed.

Lemma linear_check_errors n T :
  shape_ok n T → rows_normalised T → pattern_within_tolerance LeftRight T →
  (¬ pattern_within_tolerance Linear T →
   linear_check_transitions n T =
   Raise (ValueError "Linear transition matrix must only consist of a diagonal and upper diagonal")) ∧
  (pattern_within_tolerance Linear T →
   linear_check_transitions n T = Ok T).
Proof.
  intros Hs Hr Hl. pose proof (linear_check_ok n T) as Hok.
  destruct (leftright_check_errors n T Hs Hr) as (_ & Hb).
  unfold linear_check_transitions in *. rewrite (Hb Hl) in *.
  simpl in *. destruct (allclose2 T _); simpl in *.
  - destruct Hok as [Hok _]. destruct (Hok eq_refl) as (_ & _ & Hp).
    split; done.
  - split; [done|]. intros Hp. destruct Hok as [_ Hok]. by discriminate Hok.
Qed.

(** X3: the checks run in the order of the class hierarchy and the error
    names the first one that fails: the shape message, for every
    topology; then the row-sum message, for every topology; then, for
    the left-right and the linear topology, the upper-triangular message;
    and only then, for the linear topology, its own message.  Hence a
    matrix accepted by the linear validator is accepted by the left-right
    one, and a matrix accepted by the left-right validator by the ergodic
    one. *)
Theorem check_transitions_error_order k n T :
  (¬ shape_ok n T →
   check_transitions k n T =
   Raise (ValueError "Transition matrix must be of shape (n_states, n_states)")) ∧
  (shape_ok n T → ¬ rows_normalised T →
   check_transitions k n T =
   Raise (ValueError "Transition probabilities out of each state must sum to one")) ∧
  (shape_ok n T → rows_normalised T →
   ¬ pattern_within_tolerance LeftRight T → k ≠ Ergodic →
   check_transitions k n T =
   Raise (ValueError "Left-right transition matrix must be upper-triangular")) ∧
  (shape_ok n T → rows_normalised T →
   pattern_within_tolerance LeftRight T →
   ¬ pattern_within_tolerance Linear T →
   check_transitions Linear n T =
   Raise (ValueError "Linear transition matrix must only consist of a diagonal and upper diagonal")) ∧
  (is_ok (check_transitions Linear n T) = true →
   is_ok (check_transitions LeftRight n T) = true) ∧
  (is_ok (check_transitions LeftRight n T) = true →
   is_ok (check_transitions Ergodic n T) = true).
Proof.
  destruct (base_check_errors n T) as (Hshape & Hsum & Hbase).
  split; [|split; [|split; [|split; [|split]]]].
  - intros Hs. unfold check_transitions, linear_check_transitions,
      leftright_check_transitions. rewrite (Hshape Hs). by destruct k.
  - intros Hs Hr. unfold check_transitions, linear_check_transitions,
      leftright_check_transitions. rewrite (Hsum Hs Hr). by destruct k.
  - intros Hs Hr Hp Hk.
    destruct (leftright_check_errors n T Hs Hr) as [Hlr _].
    unfold check_transitions, linear_check_transitions.
    rewrite (Hlr Hp). by destruct k.
  - intros Hs Hr Hl Hp.
    destruct (linear_check_errors n T Hs Hr Hl) as [Hlin _].
    unfold check_transitions. by rewrite (Hlin Hp).
  - rewrite !check_ok_iff. intros (Hs & Hr & Hp).
    split; [done|]. split; [done|].
    intros i j q Hq Ho. apply (Hp i j q Hq). by left.
  - rewrite !check_ok_iff. intros (Hs & Hr & _).
    split; [done|]. split; [done|]. by intros i j q _ [].
Qed.


Lemma forallb_false_elem {A} (f : A → bool) (l : list A) :
  forallb f l = false → ∃ i x, l !! i = Some x ∧ f x = false.
Proof.
  induction l as [|x l IH]; [done|]. simpl.
  destruct (f x) eqn:E; simpl.
  - intros (i & y & Hi & Hy)%IH. by exists (S i), y.
  - intros _. by exists 0%nat, x.
Qed.

Lemma all_positive_entries T :
  all_positive T = true ↔ ∀ i j q, entry T i j = Some q → 0 < q.
Proof.
  unfold all_positive, entry. split.
  - intros H i j q Hq.
    destruct (T !! i) as [r|] eqn:Hr; [simpl in Hq|done].
    rewrite forallb_forall in H.
    specialize (H r ltac:(apply list_elem_of_In; by eapply list_elem_of_lookup_2)).
    rewrite forallb_forall in H.
    specialize (H q ltac:(apply list_elem_of_In; by eapply list_elem_of_lookup_2)).
    apply negb_true_iff, Qle_bool_false in H. done.
  - intros H. apply forallb_forall. intros r Hr%list_elem_of_In.
    apply list_elem_of_lookup in Hr as [i Hi].
    apply forallb_forall. intros q Hq%list_elem_of_In.
    apply list_elem_of_lookup in Hq as [j Hj].
    apply negb_true_iff, Qle_bool_false. apply (H i j). by rewrite Hi.
Qed.

Lemma all_positive_false T :
  all_positive T = false → ∃ i j q, entry T i j = Some q ∧ q <= 0.
Proof.
  unfold all_positive, entry.
  intros (i & r & Hi & (j & q & Hj & Hq)%forallb_false_elem)%forallb_false_elem.
  exists i, j, q. rewrite Hi. simpl. split; [done|].
  apply negb_false_iff in Hq. by apply Qle_bool_iff.
Qed.

(** X4: on a matrix of the right shape with valid row sums, the ergodic
    validator returns the matrix with its warning exactly when some entry
    is zero or negative, and without a warning exactly when every entry
    is positive: a negative entry is no error.  The validators of the
    other topologies never warn. *)
Theorem ergodic_warning_iff n T :
  shape_ok n T → rows_normalised T →
  (check_transitions Ergodic n T = Ok (T, [zero_warning]) ↔
     ∃ i j q, entry T i j = Some q ∧ q <= 0) ∧
  (check_transitions Ergodic n T = Ok (T, []) ↔
     ∀ i j q, entry T i j = Some q → 0 < q) ∧
  (∀ k T' ws, k ≠ Ergodic → check_transitions k n T = Ok (T', ws) → ws = []).
Proof.
  intros Hs Hr. destruct (base_check_errors n T) as (_ & _ & Hb).
  pose proof (all_positive_entries T) as Hpos.
  pose proof (all_positive_false T) as Hneg.
  unfold check_transitions at 1 2. rewrite (Hb Hs Hr). simpl.
  assert (∀ k T' ws, k ≠ Ergodic →
            check_transitions k n T = Ok (T', ws) → ws = []) as Hothers.
  { intros k T' ws Hk. unfold check_transitions. destruct k; [done|..].
    - destruct (leftright_check_transitions n T); simpl; congruence.
    - destruct (linear_check_transitions n T); simpl; congruence. }
  split; [|split; [|done]]; destruct (all_positive T); simpl.
  - split; [done|]. intros (i & j & q & Hq & Hle).
    destruct Hpos as [Hpos _]. specialize (Hpos eq_refl i j q Hq).
    exfalso. by apply (Qlt_not_le _ _ Hpos).
  - split; [intros _; by apply Hneg|done].
  - split; [intros _; by apply Hpos|done].
  - split; [done|]. intros Hall. destruct Hpos as [_ Hpos].
    by discriminate Hpos.
Qed.

Lemma ergodic_warning_iff_witness :
  check_transitions Ergodic 2 with_negative = Ok (with_negative, [zero_warning]).
Proof.
  apply (ergodic_warning_iff 2 with_negative).
  - split; [reflexivity|]. repeat constructor.
  - repeat constructor; vm_compute; discriminate.
  - exists 0%nat, 1%nat, (-1). split; [reflexivity|]. vm_compute. discriminate.
Defined.

Lemma banded_rows_exact k n w T :
  banded_rows n w T →
  (k = Linear → ∀ i, (w i ≤ 2)%nat) →
  pattern_exact k T.
Proof.
  intros [Hl Hr] Hk i j q Hq Ho. unfold entry in Hq.
  destruct (T !! i) as [r|] eqn:Hi; [simpl in Hq|done].
  destruct (Hr i r Hi) as (v & -> & Hv & Hw & _).
  assert (q = 0) as ->; [|done].
  assert ((j < i)%nat → q = 0) as Hlow.
  { intros Hji. rewrite band_lookup_before in Hq by done. congruence. }
  destruct k; simpl in Ho; [done|by apply Hlow|].
  destruct Ho as [?|Ho]; [by apply Hlow|].
  apply (band_lookup_after n i v j); [|done].
  specialize (Hk eq_refl i). lia.
Qed.

(** X5: for every topology and every [n >= 1], a random transition
    matrix (drawn with a sampler whose samples have the requested length
    and sum to one within tolerance) has the shape [(n, n)] and is
    exactly zero outside the topology's pattern: below the diagonal for
    the left-right topology, below the diagonal and above the first
    superdiagonal for the linear one. *)
Theorem random_transitions_exact_pattern {rng}
    (dirichlet : rng → vector → vector * rng) :
  (∀ s alpha, alpha ≠ [] →
     length (dirichlet s alpha).1 = length alpha ∧
     close (sum (dirichlet s alpha).1) 1) →
  ∀ k n s, (1 ≤ n)%nat →
    ∃ T s', random_transitions dirichlet k n s = Ok (T, s') ∧
            shape_ok n T ∧ pattern_exact k T.
Proof.
  intros Hd k n s Hn. destruct k.
  - destruct (random_valid dirichlet Hd Ergodic n s Hn)
      as (T & s' & HT & Hs & _).
    exists T, s'. split; [done|]. split; [done|]. by intros i j q _ [].
  - unfold random_transitions.
    destruct (random_banded dirichlet Hd n (λ i, n - i)%nat s
                (λ _ row, length row)) as (T & s' & Hf & Hb).
    + intros i Hi. lia.
    + intros i row Hi ->. lia.
    + exists T, s'. split; [done|]. split.
      * by apply (banded_rows_valid LeftRight n _ T Hb).
      * by apply (banded_rows_exact LeftRight n _ T Hb).
  - unfold random_transitions.
    destruct (random_banded dirichlet Hd n (λ i, 2 `min` (n - i))%nat s
                (λ i _, i + 2 `min` (n - i))%nat) as (T & s' & Hf & Hb).
    + intros i Hi. lia.
    + done.
    + exists T, s'. split; [done|]. split.
      * apply (banded_rows_valid Linear n _ T Hb). intros _ i. lia.
      * apply (banded_rows_exact Linear n _ T Hb). intros _ i. lia.
Qed.

Lemma random_transitions_exact_pattern_witness :
  ∃ T s', random_transitions flat_dirichlet LeftRight 3 0%nat = Ok (T, s') ∧
          shape_ok 3 T ∧ pattern_exact LeftRight T.
Proof.
  apply (random_transitions_exact_pattern flat_dirichlet
           flat_dirichlet_simplex LeftRight 3 0%nat).
  lia.
Defined.

Lemma sum_abs_bound (g : nat → Q) (c : Q) (l : list nat) :
  (∀ j, j ∈ l → Qabs (g j) <= c) →
  Qabs (sum (g <$> l)) <= Qnat (length l) * c.
Proof.
  induction l as [|j l IH]; intros H.
  - vm_compute. discriminate.
  - rewrite fmap_cons. cbn [sum foldr length]. fold (sum (g <$> l)).
    rewrite Qnat_S.
    eapply Qle_trans; [apply Qabs_triangle|].
    assert (Qabs (g j) <= c) as H1 by (apply H; by left).
    assert (Qabs (sum (g <$> l)) <= Qnat (length l) * c) as H2
      by (apply IH; intros j' Hj'; apply H; by right).
    lra.
Qed.

(** X6: in a matrix accepted by the left-right or by the linear
    validator the last state is absorbing up to the tolerance: its
    self-transition probability differs from one by at most
    [rtol + n * atol]. *)
Theorem last_state_absorbing k n T q :
  k ≠ Ergodic → (1 ≤ n)%nat →
  is_ok (check_transitions k n T) = true →
  entry T (n - 1) (n - 1) = Some q →
  Qabs (q - 1) <= rtol + Qnat n * atol.
Proof.
  intros Hk Hn (Hs & Hr & Hp)%check_ok_iff Hq.
  pose proof (proj2 (has_shape_spec _ _ _) Hs) as E.
  pose proof (table_of_shape T _ _ E) as HT.
  set (f := λ i j : nat, nth j (nth i T []) 0) in HT.
  clearbody f. subst T.
  pose proof (proj1 (rows_normalised_table n n f) Hr) as Hr'.
  pose proof (proj1 (pattern_tol_table k n f) Hp) as Hp'.
  clear Hr Hp. rename Hr' into Hr. rename Hp' into Hp.
  apply entry_table_Some in Hq as (_ & _ & ->).
  specialize (Hr (n - 1)%nat ltac:(lia)).
  assert (seq 0 n = seq 0 (n - 1) ++ [(n - 1)%nat]) as Hseq.
  { replace n with (S (n - 1)) at 1 by lia. by rewrite seq_S. }
  rewrite Hseq, fmap_app, sum_app in Hr. cbn [fmap list_fmap] in Hr.
  cbn [sum foldr] in Hr.
  assert (Qabs (sum (f (n - 1)%nat <$> seq 0 (n - 1)))
          <= Qnat (length (seq 0 (n - 1))) * atol) as Hlow.
  { apply sum_abs_bound. intros j Hj%elem_of_seq.
    apply Hp; [lia|lia|]. destruct k; [done|simpl; lia|simpl; lia]. }
  rewrite length_seq in Hlow. unfold close in Hr.
  assert (Qabs 1 == 1) as E1 by reflexivity. rewrite E1 in Hr.
  assert (Qnat n == Qnat (n - 1) + 1) as ->.
  { rewrite <- Qnat_S. by replace (S (n - 1)) with n by lia. }
  set (a := sum (f (n - 1)%nat <$> seq 0 (n - 1))) in *.
  set (x := f (n - 1)%nat (n - 1)%nat) in *.
  assert (x - 1 == (a + (x + 0) - 1) + - a) as -> by ring.
  eapply Qle_trans; [apply Qabs_triangle|]. rewrite Qabs_opp.
  lra.
Qed.

Lemma last_state_absorbing_witness :
  Qabs ((999999999 # 1000000000) - 1) <= rtol + Qnat 2 * atol.
Proof.
  apply (last_state_absorbing LeftRight 2 almost_triangular).
  - discriminate.
  - lia.
  - reflexivity.
  - reflexivity.
Defined.

End TopologyDetails.

(** ** Fitting and predicting with the ensemble classifier *)

Section EnsembleDetails.
Import Numpy Py HMMClassifier Inputs.

(** X7: [fit] refuses an empty list of models; otherwise it keeps the
    models in the order given, and the encoder's classes are the models'
    labels in strictly increasing order, each once: never more classes
    than models, and as many when the labels are distinct. *)
Theorem fit_encoder {hmm : Type} (self : t hmm) :
  fit self [] =
    Raise (RuntimeError "The classifier must be fitted with at least one HMM") ∧
  ∀ models self', fit self models = Ok self' →
    models_ self' = Ok models ∧
    ∃ cs, classes_ self' = Ok cs ∧
      StronglySorted (λ s t, String.compare s t = Lt) cs ∧ NoDup cs ∧
      (∀ l, l ∈ cs ↔ ∃ m, m ∈ models ∧ label m = l) ∧
      (length cs ≤ length models)%nat ∧
      (NoDup (label <$> models) → length cs = length models).
Proof.
  split; [done|]. intros models self' Hfit.
  apply fit_fitted_with in Hfit as [[Hm He] Hne].
  unfold models_, classes_. rewrite Hm, He. simpl. split; [done|].
  exists (unique (label <$> models)). split; [done|].
  pose proof (unique_strictly_sorted (label <$> models)) as Hs.
  split; [done|]. split; [by apply strictly_sorted_NoDup|]. split; [|split].
  - intros l. rewrite elem_of_unique, list_elem_of_fmap.
    split; intros (m & H1 & H2); exists m; done.
  - pose proof (length_unique (label <$> models)) as Hl.
    by rewrite length_fmap in Hl.
  - intros Hnd. by rewrite length_unique_NoDup, length_fmap.
Qed.

Lemma fit_encoder_witness :
  models_ fitted_cab = Ok models_cab ∧
  ∃ cs, classes_ fitted_cab = Ok cs ∧
    StronglySorted (λ s t, String.compare s t = Lt) cs ∧ NoDup cs ∧
    (∀ l, l ∈ cs ↔ ∃ m, m ∈ models_cab ∧ label m = l) ∧
    (length cs ≤ length models_cab)%nat ∧
    (NoDup (label <$> models_cab) → length cs = length models_cab).
Proof.
  apply (proj2 (fit_encoder (__init__ (hmm:=Q))) models_cab fitted_cab).
  reflexivity.
Defined.

(** X8: on a classifier fitted with models of distinct labels, [predict]
    on a single sequence, with an accepted prior and number of jobs,
    always returns: the class index is a position among the models, the
    original label is the class at that position and is the label of one
    of the models, and the scores are the models' unnormalised
    log-posteriors in the order of the models. *)
Theorem predict_single_total {obs hmm : Type}
    (forward : hmm → obs → Q) (log : Q → Q) (cpu_count : nat)
    (self : t hmm) models pr x rs n_jobs :
  fitted_with self models → models ≠ [] →
  NoDup (label <$> models) →
  check_prior models pr = Ok () →
  (pr = Frequency → sum_list (n_seqs_ <$> models) ≠ 0%nat) →
  is_ok (resolve_jobs cpu_count n_jobs) = true →
  let scores := score forward log models pr x <$> models in
  ∃ i l, (i < length models)%nat ∧ l ∈ label <$> models ∧
    unique (label <$> models) !! i = Some l ∧
    predict_single forward log cpu_count self x pr rs false n_jobs
      = Ok (Index i, if rs then Some scores else None) ∧
    predict_single forward log cpu_count self x pr rs true n_jobs
      = Ok (Original l, if rs then Some scores else None).
Proof.
  intros Hfit Hne Hnd Hp Hf Hn scores.
  rewrite !(predict_single_unfold forward log cpu_count self models) by done.
  fold scores.
  destruct (argmax_spec scores) as (i & mx & -> & Hi & _).
  { unfold scores. by destruct models. }
  apply lookup_lt_Some in Hi. unfold scores in Hi.
  rewrite length_fmap in Hi.
  destruct (lookup_lt_is_Some_2 (unique (label <$> models)) i) as [l Hl].
  { by rewrite length_unique_NoDup, length_fmap. }
  exists i, l. split; [done|]. split.
  { apply elem_of_unique. by eapply list_elem_of_lookup_2. }
  split; [done|]. split; [done|]. simpl.
  unfold _output_single, classes_. rewrite (proj2 Hfit). simpl.
  unfold inverse_transform. by rewrite Hl.
Qed.

Lemma predict_single_total_witness :
  ∃ i l, (i < length models_cab)%nat ∧ l ∈ label <$> models_cab ∧
    unique (label <$> models_cab) !! i = Some l ∧
    predict_single const_forward log_stub 1 fitted_cab () Uniform true false 1
      = Ok (Index i,
            Some (score const_forward log_stub models_cab Uniform ()
                    <$> models_cab)) ∧
    predict_single const_forward log_stub 1 fitted_cab () Uniform true true 1
      = Ok (Original l,
            Some (score const_forward log_stub models_cab Uniform ()
                    <$> models_cab)).
Proof.
  apply (predict_single_total const_forward log_stub 1 fitted_cab models_cab
           Uniform () true 1).
  - split; reflexivity.
  - discriminate.
  - apply (@bool_decide_unpack _ (NoDup_dec _)). vm_compute. exact I.
  - reflexivity.
  - discriminate.
  - reflexivity.
Defined.

(** X9: when the models were given to [fit] in strictly increasing label
    order, [predict] returns the label of a model with the highest score,
    and among the models that tie for the highest score the one with the
    least label. *)
Theorem predict_sorted_models_map {obs hmm : Type}
    (forward : hmm → obs → Q) (log : Q → Q) (cpu_count : nat)
    (self : t hmm) models pr x rs n_jobs :
  fitted_with self models → models ≠ [] →
  Sorted (λ s t, String.compare s t = Lt) (label <$> models) →
  check_prior models pr = Ok () →
  (pr = Frequency → sum_list (n_seqs_ <$> models) ≠ 0%nat) →
  is_ok (resolve_jobs cpu_count n_jobs) = true →
  ∃ m, m ∈ models ∧
    predict_single forward log cpu_count self x pr rs true n_jobs =
      Ok (Original (label m),
          if rs then Some (score forward log models pr x <$> models)
          else None) ∧
    (∀ m', m' ∈ models →
       score forward log models pr x m' <= score forward log models pr x m) ∧
    (∀ m', m' ∈ models →
       score forward log models pr x m' == score forward log models pr x m →
       m' = m ∨ String.compare (label m) (label m') = Lt).
Proof.
  intros Hfit Hne Hs Hp Hf Hn.
  assert (StronglySorted (λ s t, String.compare s t = Lt) (label <$> models))
    as Hss.
  { apply Sorted_StronglySorted; [|done]. intros s t u. apply compare_Lt_trans. }
  pose proof (strictly_sorted_NoDup _ Hss) as Hnd.
  destruct (predict_single_sorted forward log cpu_count self models pr x rs
              n_jobs Hfit Hne Hnd Hs Hp Hf Hn)
    as (i & m & Hi & Hpred & Hmax & Hfirst).
  exists m. split; [by eapply list_elem_of_lookup_2|]. split; [done|]. split.
  - intros m' [j Hj]%list_elem_of_lookup. by apply (Hmax j).
  - intros m' [j Hj]%list_elem_of_lookup Heq.
    destruct (Nat.lt_trichotomy j i) as [Hlt|[->|Hgt]].
    + specialize (Hfirst j m' Hlt Hj). rewrite Heq in Hfirst.
      exfalso. by apply (Qlt_irrefl _ Hfirst).
    + left. congruence.
    + right. apply (strictly_sorted_lookup (label <$> models) i j); [done|done|..].
      * by rewrite list_lookup_fmap, Hi.
      * by rewrite list_lookup_fmap, Hj.
Qed.

Lemma predict_sorted_models_map_witness :
  ∃ m, m ∈ models_abc ∧
    predict_single const_forward log_stub 1 fitted_abc () Uniform false true 1
      = Ok (Original (label m), None) ∧
    (∀ m', m' ∈ models_abc →
       score const_forward log_stub models_abc Uniform () m'
       <= score const_forward log_stub models_abc Uniform () m) ∧
    (∀ m', m' ∈ models_abc →
       score const_forward log_stub models_abc Uniform () m'
       == score const_forward log_stub models_abc Uniform () m →
       m' = m ∨ String.compare (label m) (label m') = Lt).
Proof.
  apply (predict_sorted_models_map const_forward log_stub 1 fitted_abc
           models_abc Uniform () false 1).
  - split; reflexivity.
  - discriminate.
  - repeat constructor.
  - reflexivity.
  - discriminate.
  - reflexivity.
Defined.

Lemma mapM_Ok_lookup {A B} (f : A → result B) (l : list A) (r : list B) :
  mapM f l = Ok r →
  ∀ i x, l !! i = Some x → ∃ y, f x = Ok y ∧ r !! i = Some y.
Proof.
  revert r. induction l as [|a l IH]; intros r; [by intros _ i x|].
  cbn [mapM]. destruct (f a) as [b|] eqn:Ea; simpl; [|done].
  destruct (mapM f l) as [r'|] eqn:El; simpl; [|done].
  intros [= <-] [|i] x; simpl.
  - intros [= <-]. by exists b.
  - by apply IH.
Qed.

Lemma stack_Ok (rows : list vector) M : stack rows = Ok M → M = rows.
Proof. destruct rows; [done|]. by intros [= <-]. Qed.

(** The score matrix of a batch, when [predict] computes one, is the list
    of the sequences' score vectors. *)
Lemma batch_scores_Ok {obs hmm : Type}
    (forward : hmm → obs → Q) (log : Q → Q)
    (self : t hmm) (X : list obs) priors (n : nat) M :
  (if (n =? 1)%nat then _chunk_predict forward log self X priors
   else
     chunks ← array_split X n;
     parts ← mapM (λ chunk, _chunk_predict forward log self chunk priors)
               chunks;
     vstack parts) = Ok M →
  (n = 1%nat ∨ (0 < n)%nat ∧ (n ≤ length X)%nat) →
  mapM (λ x, _predict forward log self x priors) X = Ok M.
Proof.
  intros H Hn. destruct (Nat.eqb_spec n 1) as [->|Hne].
  - unfold _chunk_predict in H.
    destruct (mapM _ X) as [rows|]; simpl in H; [|done].
    by apply stack_Ok in H as ->.
  - destruct Hn as [?|[Hpos Hle]]; [done|].
    destruct (array_split_spec X n Hpos) as (chunks & Hc & Hcat & Hl & Hall).
    rewrite Hc in H. simpl in H. unfold _chunk_predict in H.
    rewrite chunked_scores in H.
    + rewrite Hcat in H.
      destruct (mapM _ X) as [rows|]; simpl in H; [|done].
      by apply stack_Ok in H as ->.
    + destruct chunks; [simpl in Hl; lia|done].
    + by apply Hall.
Qed.

(** X10: a batch prediction agrees with the single predictions: it
    returns one label and one row of scores per sequence, and the label
    and the row at each position are those that [predict] returns for
    the sequence at that position alone, whatever the number of jobs. *)
Theorem predict_batch_pointwise {obs hmm : Type}
    (forward : hmm → obs → Q) (log : Q → Q) (cpu_count : nat)
    (self : t hmm) (X : list obs) pr ol n_jobs lbls M :
  predict forward log cpu_count self X pr true ol n_jobs = Ok (lbls, Some M) →
  length lbls = length X ∧ length M = length X ∧
  ∀ i x, X !! i = Some x →
    ∃ l v, predict_single forward log cpu_count self x pr true ol n_jobs
             = Ok (l, Some v) ∧
           lbls !! i = Some l ∧ M !! i = Some v.
Proof.
  unfold predict, predict_single.
  destruct (models_ self) as [models|]; simpl; [|done].
  destruct (check_prior models pr); simpl; [|done].
  destruct (resolve_jobs cpu_count n_jobs) as [jobs|]; simpl; [|done].
  destruct (_get_priors self pr) as [priors|]; simpl; [|done].
  set (n := (jobs `min` length X)%nat).
  destruct (if (n =? 1)%nat then _ else _) as [scores|] eqn:Es; simpl; [|done].
  apply batch_scores_Ok in Es.
  2:{ destruct (Nat.eqb_spec n 1) as [|Hne]; [by left|right].
      destruct (Nat.eqb_spec n 0) as [E0|]; [|lia].
      rewrite E0 in Es. by simpl in Es. }
  destruct (mapM argmax scores) as [labels|] eqn:El; simpl; [|done].
  unfold _output_batch, _output_single.
  destruct (if negb ol then _ else _) as [out|] eqn:Eo; simpl; [|done].
  intros [= <- <-].
  pose proof (mapM_Ok_length _ _ _ Es) as Hls.
  pose proof (mapM_Ok_length _ _ _ El) as Hll.
  assert (length out = length labels) as Hlo.
  { destruct ol; simpl in Eo.
    - destruct (classes_ self); simpl in Eo; [|done].
      by apply mapM_Ok_length in Eo.
    - injection Eo as <-. by rewrite length_fmap. }
  split; [lia|]. split; [done|]. intros i x Hx.
  destruct (mapM_Ok_lookup _ _ _ Es i x Hx) as (v & -> & Hv). simpl.
  destruct (mapM_Ok_lookup _ _ _ El i v Hv) as (k & -> & Ha). simpl.
  destruct ol; simpl in *.
  - destruct (classes_ self) as [classes|]; simpl in *; [|done].
    destruct (mapM_Ok_lookup _ _ _ Eo i k Ha) as (l & -> & Hl). simpl.
    by exists l, v.
  - injection Eo as <-. exists (Index k), v. split; [done|]. split; [|done].
    by rewrite list_lookup_fmap, Ha.
Qed.

Lemma predict_batch_pointwise_witness :
  length [Original "b"; Original "b"]%string = length [(); ()] ∧
  length [[-5 + log_stub (1 / Qnat 3); 0 + log_stub (1 / Qnat 3);
           0 + log_stub (1 / Qnat 3)];
          [-5 + log_stub (1 / Qnat 3); 0 + log_stub (1 / Qnat 3);
           0 + log_stub (1 / Qnat 3)]] = length [(); ()] ∧
  ∀ i x, [(); ()] !! i = Some x →
    ∃ l v, predict_single const_forward log_stub 1 fitted_abc x Uniform
             true true 4 = Ok (l, Some v) ∧
           [Original "b"; Original "b"]%string !! i = Some l ∧
           [[-5 + log_stub (1 / Qnat 3); 0 + log_stub (1 / Qnat 3);
             0 + log_stub (1 / Qnat 3)];
            [-5 + log_stub (1 / Qnat 3); 0 + log_stub (1 / Qnat 3);
             0 + log_stub (1 / Qnat 3)]] !! i = Some v.
Proof.
  apply (predict_batch_pointwise const_forward log_stub 1 fitted_abc
           [(); ()] Uniform true 4).
  reflexivity.
Defined.

Lemma sum_fmap_ext {A} (f g : A → Q) (l : list A) :
  (∀ x, x ∈ l → f x == g x) → sum (f <$> l) == sum (g <$> l).
Proof.
  induction l as [|x l IH]; intros H; [reflexivity|].
  rewrite !fmap_cons. cbn [sum foldr].
  fold (sum (f <$> l)). fold (sum (g <$> l)).
  rewrite (H x) by left. rewrite IH; [reflexivity|].
  intros y Hy. apply H. by right.
Qed.

Lemma Qnat_add a b : Qnat (a + b) == Qnat a + Qnat b.
Proof. unfold Qnat. rewrite Nat2Z.inj_add, inject_Z_plus. reflexivity. Qed.

Lemma sum_shares {A} (w : A → nat) (c : Q) (l : list A) :
  sum ((λ x, Qnat (w x) / c) <$> l) == Qnat (sum_list (w <$> l)) / c.
Proof.
  induction l as [|x l IH].
  - change (0 == 0 / c). unfold Qdiv. ring.
  - rewrite !fmap_cons. cbn [sum foldr sum_list sum_list_with].
    fold (sum ((λ x, Qnat (w x) / c) <$> l)).
    change (sum_list_with id (w <$> l)) with (sum_list (w <$> l)).
    rewrite IH, Qnat_add. unfold id.
    generalize (Qnat (w x)) (Qnat (sum_list (w <$> l))). intros p q.
    unfold Qdiv. ring.
Qed.

Lemma sum_const {A} (c : Q) (l : list A) :
  sum ((λ _, c) <$> l) == Qnat (length l) * c.
Proof.
  induction l as [|x l IH]; [change (0 == 0 * c); ring|].
  rewrite fmap_cons. cbn [sum foldr length].
  fold (sum ((λ _, c) <$> l)). rewrite IH, Qnat_S.
  generalize (Qnat (length l)). intros q. ring.
Qed.

(** X11: with distinct labels, the frequency prior and the uniform prior
    give a probability to the models' labels and to nothing else, each
    model's share of the training sequences or [1/M], and these
    probabilities sum to one. *)
Theorem priors_normalised {hmm : Type} (self : t hmm) models pr d :
  fitted_with self models → models ≠ [] →
  NoDup (label <$> models) →
  pr = Uniform ∨ pr = Frequency ∧ sum_list (n_seqs_ <$> models) ≠ 0%nat →
  _get_priors self pr = Ok d →
  (∀ l, is_Some (d !! l) ↔ l ∈ label <$> models) ∧
  (∀ m, m ∈ models → d !! label m = Some (prior_value models pr m)) ∧
  sum ((λ m, default 0 (d !! label m)) <$> models) == 1.
Proof.
  intros [Hm He] Hne Hnd Hpr. unfold _get_priors, models_. rewrite Hm. simpl.
  assert (∃ v, (∀ m, m ∈ models → v m = Ok (prior_value models pr m)) ∧
               (match pr with
                | Frequency =>
                    dict_of (λ m,
                      if (sum_list (n_seqs_ <$> models) =? 0)%nat
                      then Raise ZeroDivisionError
                      else Ok (Qnat (n_seqs_ m)
                               / Qnat (sum_list (n_seqs_ <$> models))))
                      models ∅
                | Uniform =>
                    dict_of (λ _, Ok (1 / Qnat (length models))) models ∅
                | Explicit p =>
                    classes ← classes_ self;
                    dict_of (λ m,
                      i ← transform classes (label m);
                      of_option (IndexError "list index out of range")
                        (p !! i)) models ∅
                end) = dict_of v models ∅) as (v & Hv & ->).
  { destruct Hpr as [->|[-> Hf]].
    - by eexists.
    - eexists. split; [|done]. intros m _. simpl.
      by destruct (Nat.eqb_spec (sum_list (n_seqs_ <$> models)) 0). }
  destruct (dict_of_spec v (prior_value models pr) models ∅ Hv Hnd)
    as (d' & -> & Hin & Hout).
  intros [= <-]. split; [|split; [done|]].
  - intros l. split.
    + intros Hl. destruct (decide (l ∈ label <$> models)) as [|Hn]; [done|].
      rewrite (Hout l Hn), lookup_empty in Hl. by destruct Hl.
    + intros (m & -> & Hmin)%list_elem_of_fmap. rewrite (Hin m Hmin). by eexists.
  - rewrite (sum_fmap_ext _ (prior_value models pr)).
    2:{ intros m Hmin. by rewrite (Hin m Hmin). }
    destruct Hpr as [->|[-> Hf]].
    + rewrite (sum_fmap_ext _ (λ _, 1 / Qnat (length models)))
        by (intros; reflexivity).
      rewrite sum_const. apply Qnat_inv_sum.
      destruct models; [done|simpl; lia].
    + rewrite (sum_fmap_ext _
        (λ m, Qnat (n_seqs_ m) / Qnat (sum_list (n_seqs_ <$> models))))
        by (intros; reflexivity).
      rewrite sum_shares.
      assert (0 < Qnat (sum_list (n_seqs_ <$> models))) as Hpos
        by (apply Qnat_pos; lia).
      field. intros E. rewrite E in Hpos. by apply (Qlt_irrefl 0).
Qed.

Lemma priors_normalised_witness :
  ∃ d, _get_priors fitted_cab Frequency = Ok d ∧
    sum ((λ m, default 0 (d !! label m)) <$> models_cab) == 1.
Proof.
  eexists. split; [reflexivity|].
  apply (priors_normalised fitted_cab models_cab Frequency).
  - split; reflexivity.
  - discriminate.
  - apply (@bool_decide_unpack _ (NoDup_dec _)). vm_compute. exact I.
  - right. split; [reflexivity|]. vm_compute. discriminate.
  - reflexivity.
Defined.

(** X12: [predict] never returns on an empty batch; on a fitted
    classifier with an accepted prior and number of jobs the number of
    jobs is capped at zero and the error is the one of [np.array_split]
    asked for zero sections. *)
Theorem predict_empty_batch_raises {obs hmm : Type}
    (forward : hmm → obs → Q) (log : Q → Q) (cpu_count : nat)
    (self : t hmm) pr rs ol n_jobs :
  is_ok (predict forward log cpu_count self [] pr rs ol n_jobs) = false ∧
  (∀ models, fitted_with self models → models ≠ [] →
     NoDup (label <$> models) → check_prior models pr = Ok () →
     (pr = Frequency → sum_list (n_seqs_ <$> models) ≠ 0%nat) →
     is_ok (resolve_jobs cpu_count n_jobs) = true →
     predict forward log cpu_count self [] pr rs ol n_jobs
     = Raise (ValueError "number sections must be larger than 0.")).
Proof.
  split.
  - unfold predict.
    destruct (models_ self) as [models|e]; simpl; [|done].
    destruct (check_prior models pr) as [|e]; simpl; [|done].
    destruct (resolve_jobs cpu_count n_jobs) as [jobs|e]; simpl; [|done].
    destruct (_get_priors self pr) as [priors|e]; simpl; [|done].
    by rewrite scores_empty_batch.
  - intros models Hfit Hne Hnd Hp Hf Hn. unfold predict, models_.
    rewrite (proj1 Hfit). simpl. rewrite Hp. simpl.
    destruct (resolve_jobs cpu_count n_jobs) as [jobs|]; [simpl|done].
    destruct (get_priors_spec self models pr Hfit Hnd Hp Hf) as (d & -> & _).
    simpl. by rewrite scores_empty_batch.
Qed.

Lemma predict_empty_batch_raises_witness :
  predict const_forward log_stub 1 fitted_cab [] Uniform true true 1
  = Raise (ValueError "number sections must be larger than 0.").
Proof.
  apply (proj2 (predict_empty_batch_raises const_forward log_stub 1
                  fitted_cab Uniform true true 1) models_cab).
  - split; reflexivity.
  - discriminate.
  - apply (@bool_decide_unpack _ (NoDup_dec _)). vm_compute. exact I.
  - reflexivity.
  - discriminate.
  - reflexivity.
Defined.

End EnsembleDetails.

(** ** Counting in a confusion matrix *)

Section ConfusionFacts.
Import Py.
Local Open Scope nat_scope.
Context `{EqDecision A}.

Lemma sum_list_indicator (x : A) (L : list A) :
  NoDup L →
  sum_list ((λ b, if decide (x = b) then 1 else 0) <$> L)
  = if decide (x ∈ L) then 1 else 0.
Proof.
  induction 1 as [|b L Hb Hnd IH]; [done|].
  rewrite fmap_cons. cbn [sum_list sum_list_with].
  change (sum_list_with id ?l) with (sum_list l). rewrite IH. unfold id.
  destruct (decide (x = b)) as [->|Hne];
    destruct (decide (_ ∈ L)) as [HL|HL];
    destruct (decide (_ ∈ b :: L)) as [Hc|Hc]; try done.
  - exfalso. apply Hc. by left.
  - exfalso. apply Hc. by right.
  - exfalso. by apply elem_of_cons in Hc as [?|?].
Qed.

Lemma sum_list_zero {B} (L : list B) :
  sum_list ((λ _, 0) <$> L) = 0.
Proof. induction L; [done|]. simpl. done. Qed.

Lemma sum_list_fmap_add {B} (f g : B → nat) (L : list B) :
  sum_list ((λ b, f b + g b) <$> L)
  = sum_list (f <$> L) + sum_list (g <$> L).
Proof.
  induction L as [|b L IH]; [done|]. rewrite !fmap_cons.
  cbn [sum_list sum_list_with]. change (sum_list_with id ?l) with (sum_list l) in *.
  rewrite IH. unfold id. lia.
Qed.

Lemma sum_list_fmap_ext {B} (f g : B → nat) (L : list B) :
  (∀ b, b ∈ L → f b = g b) → sum_list (f <$> L) = sum_list (g <$> L).
Proof.
  intros H. f_equal. apply list_fmap_ext. intros i b Hb. apply H.
  by eapply list_elem_of_lookup_2.
Qed.

(** The number of pairs equal to [(a, b)] in a list. *)
Lemma cell_cons (p : A * A) (ps : list (A * A)) (a b : A) :
  length (filter (λ tp, tp = (a, b)) (p :: ps))
  = (if decide (p = (a, b)) then 1 else 0)
    + length (filter (λ tp, tp = (a, b)) ps).
Proof. rewrite filter_cons. by destruct (decide (p = (a, b))). Qed.

Lemma total_cells (ps : list (A * A)) (L : list A) :
  NoDup L →
  sum_list ((λ a, sum_list ((λ b, length (filter (λ tp, tp = (a, b)) ps))
                              <$> L)) <$> L)
  = length (filter (λ tp, tp.1 ∈ L ∧ tp.2 ∈ L) ps).
Proof.
  intros Hnd. induction ps as [|[t p] ps IH].
  - rewrite filter_nil. simpl.
    rewrite (sum_list_fmap_ext _ (λ _, 0)); [apply sum_list_zero|].
    intros a _. apply sum_list_zero.
  - rewrite (sum_list_fmap_ext _
      (λ a, (if decide (t = a) then (if decide (p ∈ L) then 1 else 0) else 0)
            + sum_list ((λ b, length (filter (λ tp, tp = (a, b)) ps)) <$> L))).
    2:{ intros a _.
        rewrite (sum_list_fmap_ext _
          (λ b, (if decide (t = a) then (if decide (p = b) then 1 else 0)
                 else 0)
                + length (filter (λ tp, tp = (a, b)) ps))).
        2:{ intros b _. rewrite cell_cons. f_equal.
            destruct (decide (t = a)) as [->|Hne].
            - destruct (decide (p = b)) as [->|Hne'].
              + by rewrite decide_True.
              + rewrite decide_False; [done|]. by intros [= ?].
            - rewrite decide_False; [done|]. by intros [= ? ?]. }
        rewrite sum_list_fmap_add. f_equal.
        destruct (decide (t = a)).
        - by apply sum_list_indicator.
        - apply sum_list_zero. }
    rewrite sum_list_fmap_add, IH. rewrite filter_cons. simpl.
    destruct (decide (p ∈ L)) as [Hp|Hp].
    + rewrite sum_list_indicator by done.
      destruct (decide (t ∈ L)) as [Ht|Ht].
      * by rewrite decide_True.
      * rewrite decide_False; [done|]. by intros [? _].
    + rewrite (sum_list_fmap_ext _ (λ _, 0)) by (intros b _; by destruct (decide (t = b))).
      rewrite sum_list_zero. rewrite decide_False; [done|]. by intros [_ ?].
Qed.

Lemma diag_cells (ps : list (A * A)) (L : list A) :
  NoDup L →
  sum_list ((λ a, length (filter (λ tp, tp = (a, a)) ps)) <$> L)
  = length (filter (λ tp, tp.1 = tp.2 ∧ tp.1 ∈ L) ps).
Proof.
  intros Hnd. induction ps as [|[t p] ps IH].
  - rewrite filter_nil. simpl. apply sum_list_zero.
  - rewrite (sum_list_fmap_ext _
      (λ a, (if decide (t = a) then (if decide (t = p) then 1 else 0) else 0)
            + length (filter (λ tp, tp = (a, a)) ps))).
    2:{ intros a _. rewrite cell_cons. f_equal.
        destruct (decide (t = a)) as [->|Hne].
        - destruct (decide (a = p)) as [->|Hne'].
          + by rewrite decide_True.
          + rewrite decide_False; [done|]. by intros [= ?].
        - rewrite decide_False; [done|]. by intros [= ? ?]. }
    rewrite sum_list_fmap_add, IH, filter_cons. simpl.
    destruct (decide (t = p)) as [->|Hne].
    + rewrite sum_list_indicator by done.
      destruct (decide (p ∈ L)).
      * by rewrite decide_True.
      * rewrite decide_False; [done|]. by intros [_ ?].
    + rewrite (sum_list_fmap_ext _ (λ _, 0)) by (intros b _; by destruct (decide (t = b))).
      rewrite sum_list_zero. rewrite decide_False; [done|]. by intros [? _].
Qed.

Lemma total_pair_counts (y_true y_pred L : list A) :
  NoDup L →
  total (pair_counts y_true y_pred L)
  = length (filter (λ tp, tp.1 ∈ L ∧ tp.2 ∈ L) (zip y_true y_pred)).
Proof.
  intros Hnd. unfold total, pair_counts.
  rewrite <- list_fmap_compose. by apply total_cells.
Qed.

Lemma omap_fmap_Some {B C} (h : B → C) (l : list B) :
  omap id ((λ b, Some (h b)) <$> l) = h <$> l.
Proof. induction l as [|b l IH]; [done|]. simpl. f_equal. apply IH. Qed.

Lemma diag_of_fmap {C} (g : A → A → C) (L : list A) :
  omap id (imap (λ i row, row !! i) ((λ a, g a <$> L) <$> L))
  = (λ a, g a a) <$> L.
Proof.
  rewrite <- (omap_fmap_Some (λ a, g a a)). f_equal.
  apply list_eq. intros i.
  rewrite list_lookup_imap, !list_lookup_fmap.
  destruct (L !! i) as [a|] eqn:Ha; [simpl|done].
  by rewrite list_lookup_fmap, Ha.
Qed.

Lemma trace_pair_counts (y_true y_pred L : list A) :
  NoDup L →
  trace (pair_counts y_true y_pred L)
  = length (filter (λ tp, tp.1 = tp.2 ∧ tp.1 ∈ L) (zip y_true y_pred)).
Proof.
  intros Hnd. rewrite <- (diag_cells _ L Hnd). unfold trace, pair_counts.
  by rewrite diag_of_fmap.
Qed.

End ConfusionFacts.

(** ** Evaluating the ensemble classifier *)

Section EnsembleEvaluation.
Import Numpy Py HMMClassifier Inputs.

Lemma index_of_lookup_NoDup (C : list string) i s :
  NoDup C → C !! i = Some s → index_of s C = Some i.
Proof.
  intros Hnd. revert i. induction Hnd as [|x C Hx Hnd IH]; intros i; [done|].
  destruct i as [|i]; simpl.
  - intros [= ->]. by rewrite String.eqb_refl.
  - intros Hs. destruct (String.eqb_spec s x) as [->|Hne].
    + exfalso. apply Hx. by eapply list_elem_of_lookup_2.
    + by rewrite (IH i Hs).
Qed.

(** Encoding the classes themselves lists their positions. *)
Lemma transform_classes (C : list string) :
  NoDup C → mapM (transform C) C = Ok (seq 0 (length C)).
Proof.
  intros Hnd.
  rewrite (mapM_Ok_fmap _ (λ s, default 0%nat (index_of s C))).
  - f_equal. apply list_eq. intros i. rewrite list_lookup_fmap.
    destruct (C !! i) as [s|] eqn:Hs; simpl.
    + rewrite (index_of_lookup_NoDup C i s Hnd Hs). simpl.
      symmetry. apply lookup_seq_lt. by eapply lookup_lt_Some.
    + symmetry. apply lookup_seq_ge. by apply lookup_ge_None.
  - intros s [i Hi]%list_elem_of_lookup. unfold transform.
    by rewrite (index_of_lookup_NoDup C i s Hnd Hi).
Qed.

Lemma transform_known (C : list string) (y : list string) :
  (∀ l, l ∈ y → l ∈ C) →
  ∃ y_true, mapM (transform C) y = Ok y_true ∧ length y_true = length y ∧
            ∀ t, t ∈ y_true → (t < length C)%nat.
Proof.
  intros Hy. exists ((λ s, default 0%nat (index_of s C)) <$> y).
  split; [|split].
  - apply mapM_Ok_fmap. intros s Hs. unfold transform.
    destruct (index_of_elem s C (Hy s Hs)) as [i ->]. done.
  - by rewrite length_fmap.
  - intros t (s & -> & Hs)%list_elem_of_fmap.
    destruct (index_of_elem s C (Hy s Hs)) as [i Hi]. rewrite Hi. simpl.
    by apply index_of_Some, lookup_lt_Some in Hi.
Qed.

(** On a fitted classifier with distinct labels and a non-empty batch,
    [predict] scores every sequence under every model and takes the
    argmax of each row. *)
Lemma predict_batch_unfold {obs hmm : Type}
    (forward : hmm → obs → Q) (log : Q → Q) (cpu_count : nat)
    (self : t hmm) models pr (X : list obs) rs ol n_jobs :
  fitted_with self models →
  NoDup (label <$> models) →
  check_prior models pr = Ok () →
  (pr = Frequency → sum_list (n_seqs_ <$> models) ≠ 0%nat) →
  (1 ≤ cpu_count)%nat → (n_jobs = -1 ∨ 0 < n_jobs)%Z → X ≠ [] →
  let rows := (λ x, score forward log models pr x <$> models) <$> X in
  predict forward log cpu_count self X pr rs ol n_jobs =
  labels ← mapM argmax rows; _output_batch self labels rows rs ol.
Proof.
  intros Hfit Hnd Hp Hf Hc Hn HX rows. unfold predict, models_.
  rewrite (proj1 Hfit). simpl. rewrite Hp. simpl.
  destruct (resolve_jobs_pos cpu_count n_jobs Hc Hn) as (jobs & -> & Hj).
  simpl.
  destruct (get_priors_spec self models pr Hfit Hnd Hp Hf) as (d & -> & Hd).
  simpl. rewrite scores_any_jobs by done. unfold _chunk_predict.
  rewrite (mapM_Ok_fmap _ (λ x, score forward log models pr x <$> models)).
  2:{ intros x _. by apply predict_scores. }
  simpl. fold rows. unfold stack.
  destruct rows eqn:E; [|done].
  apply (f_equal length) in E. unfold rows in E.
  rewrite length_fmap in E. by destruct X.
Qed.

Lemma argmax_rows (rows : list vector) (M : nat) :
  (0 < M)%nat → Forall (λ r, length r = M) rows →
  ∃ idx, mapM argmax rows = Ok idx ∧ length idx = length rows ∧
         ∀ i, i ∈ idx → (i < M)%nat.
Proof.
  intros HM. induction 1 as [|r rows Hr Hrows (idx & Hidx & Hl & Hlt)].
  - exists []. split; [done|]. split; [done|]. by intros i ?%elem_of_nil.
  - destruct (argmax_spec r) as (i & m & Hi & Him & _).
    { intros ->. simpl in Hr. lia. }
    exists (i :: idx). cbn [mapM]. rewrite Hi, Hidx. simpl.
    split; [done|]. split; [by rewrite Hl|].
    intros j [->|Hj]%elem_of_cons; [|by apply Hlt].
    apply lookup_lt_Some in Him. lia.
Qed.

Lemma filter_all {B} (P : B → Prop) `{∀ x, Decision (P x)} (l : list B) :
  (∀ x, x ∈ l → P x) → filter P l = l.
Proof.
  induction l as [|x l IH]; intros Hall; [done|].
  rewrite filter_cons_True by (apply Hall; by left). f_equal.
  apply IH. intros y Hy. apply Hall. by right.
Qed.

Lemma filter_ext_in {B} (P Q : B → Prop) `{∀ x, Decision (P x)}
    `{∀ x, Decision (Q x)} (l : list B) :
  (∀ x, x ∈ l → P x ↔ Q x) → filter P l = filter Q l.
Proof.
  induction l as [|x l IH]; intros Hall; [done|].
  rewrite !filter_cons.
  assert (P x ↔ Q x) as Hx by (apply Hall; by left).
  rewrite IH by (intros y Hy; apply Hall; by right).
  destruct (decide (P x)), (decide (Q x)); tauto.
Qed.

Lemma elem_of_zip {B C} (l : list B) (k : list C) b c :
  (b, c) ∈ zip l k → b ∈ l ∧ c ∈ k.
Proof.
  intros H. split.
  - eapply elem_of_zip_l. exact H.
  - eapply elem_of_zip_r. exact H.
Qed.

(** X13: [evaluate] on a non-empty batch with as many labels as
    sequences, all of them labels of the models (the models' labels being
    distinct, and the confusion matrix counting the pairs of true and
    predicted class as documented): the confusion matrix counts every
    sequence once, its trace is the number of sequences whose predicted
    class index is the encoded label, and the accuracy is that number
    divided by the number of sequences. *)
Theorem hmm_evaluate_accuracy {obs hmm : Type}
    (forward : hmm → obs → Q) (log : Q → Q) (cpu_count : nat)
    (confusion_matrix :
       list label_out → list label_out → list label_out →
       result (list (list nat)))
    (self : t hmm) models pr (X : list obs) (y : list string) n_jobs :
  (∀ yt yp L, length yt = length yp → yt ≠ [] → NoDup L →
     (∀ t, t ∈ yt → t ∈ L) →
     confusion_matrix yt yp L = Ok (pair_counts yt yp L)) →
  fitted_with self models → models ≠ [] →
  NoDup (label <$> models) →
  check_prior models pr = Ok () →
  (pr = Frequency → sum_list (n_seqs_ <$> models) ≠ 0%nat) →
  (1 ≤ cpu_count)%nat → (n_jobs = -1 ∨ 0 < n_jobs)%Z →
  X ≠ [] → length X = length y →
  (∀ l, l ∈ y → l ∈ label <$> models) →
  ∃ preds y_true cm,
    predict forward log cpu_count self X pr false false n_jobs
      = Ok (preds, None) ∧
    mapM (transform (unique (label <$> models))) y = Ok y_true ∧
    evaluate forward log cpu_count confusion_matrix self X y pr n_jobs
      = Ok (Finite (Qnat (trace cm) / Qnat (length X)), cm) ∧
    total cm = length X ∧
    trace cm
      = length (filter (λ tp, tp.1 = tp.2) (zip (Index <$> y_true) preds)).
Proof.
  intros Hcm Hfit Hne Hnd Hp Hf Hc Hn HX Hlen Hy.
  set (C := unique (label <$> models)).
  assert (NoDup C) as HC
    by apply strictly_sorted_NoDup, unique_strictly_sorted.
  assert (length C = length models) as HCl
    by (unfold C; by rewrite length_unique_NoDup, length_fmap).
  set (rows := (λ x, score forward log models pr x <$> models) <$> X).
  destruct (argmax_rows rows (length models)) as (idx & Hidx & Hil & Hlt).
  { destruct models; [done|simpl; lia]. }
  { unfold rows. apply Forall_fmap, Forall_forall. intros x _. simpl.
    by rewrite length_fmap. }
  assert (length idx = length X) as Hix
    by (rewrite Hil; unfold rows; by rewrite length_fmap).
  destruct (transform_known C y) as (y_true & Hyt & Hytl & Hytlt).
  { intros l Hl. apply elem_of_unique. by apply Hy. }
  set (L := Index <$> seq 0 (length C)).
  assert (NoDup L) as HL.
  { apply NoDup_fmap_2; [|apply NoDup_seq]. by intros a b [= ->]. }
  assert (∀ p, p ∈ Index <$> y_true → p ∈ L) as Htin.
  { intros p (t & -> & Ht)%list_elem_of_fmap. apply list_elem_of_fmap.
    exists t. split; [done|]. apply elem_of_seq. specialize (Hytlt t Ht). lia. }
  assert (∀ p, p ∈ Index <$> idx → p ∈ L) as Hpin.
  { intros p (t & -> & Ht)%list_elem_of_fmap. apply list_elem_of_fmap.
    exists t. split; [done|]. apply elem_of_seq. specialize (Hlt t Ht). lia. }
  exists (Index <$> idx), y_true,
    (pair_counts (Index <$> y_true) (Index <$> idx) L).
  assert (predict forward log cpu_count self X pr false false n_jobs
          = Ok (Index <$> idx, None)) as Hpred.
  { rewrite (predict_batch_unfold forward log cpu_count self models) by done.
    fold rows. rewrite Hidx. done. }
  assert (total (pair_counts (Index <$> y_true) (Index <$> idx) L)
          = length X) as Htot.
  { rewrite total_pair_counts by done. rewrite filter_all.
    - rewrite length_zip, !length_fmap. lia.
    - intros [t p] [Ht Hp']%elem_of_zip. simpl. split; auto. }
  split; [done|]. split; [done|]. split; [|split; [done|]].
  - unfold evaluate, is_observation_sequences_and_labels.
    rewrite Hlen, Nat.eqb_refl. simpl. rewrite <- Hlen, Hpred. simpl.
    unfold classes_. rewrite (proj2 Hfit). simpl. fold C.
    rewrite Hyt. simpl. rewrite transform_classes by done. simpl. fold L.
    rewrite Hcm; [simpl| | |done|done].
    + rewrite Htot. unfold true_divide.
      destruct (Nat.eqb_spec (length X) 0) as [E|]; [|done].
      by destruct X.
    + rewrite !length_fmap. lia.
    + intros E. apply (f_equal length) in E. rewrite length_fmap in E.
      simpl in E. destruct X; [done|simpl in *; lia].
  - rewrite trace_pair_counts by done. f_equal.
    apply filter_ext_in. intros [t p] [Ht _]%elem_of_zip. simpl.
    split; [by intros [? _]|]. intros ->. split; [done|]. by apply Htin.
Qed.

Lemma hmm_evaluate_accuracy_witness :
  ∃ preds y_true cm,
    predict const_forward log_stub 1 fitted_abc [(); ()] Uniform false false 4
      = Ok (preds, None) ∧
    mapM (transform (unique (label <$> models_abc))) ["b"; "c"]%string
      = Ok y_true ∧
    evaluate const_forward log_stub 1 index_confusion_matrix fitted_abc
      [(); ()] ["b"; "c"]%string Uniform 4
      = Ok (Finite (Qnat (trace cm) / Qnat (length [(); ()])), cm) ∧
    total cm = length [(); ()] ∧
    trace cm
      = length (filter (λ tp, tp.1 = tp.2) (zip (Index <$> y_true) preds)).
Proof.
  apply (hmm_evaluate_accuracy const_forward log_stub 1 index_confusion_matrix
           fitted_abc models_abc Uniform [(); ()] ["b"; "c"]%string 4).
  - reflexivity.
  - split; reflexivity.
  - discriminate.
  - apply (@bool_decide_unpack _ (NoDup_dec _)). vm_compute. exact I.
  - reflexivity.
  - discriminate.
  - lia.
  - lia.
  - discriminate.
  - reflexivity.
  - apply Forall_forall. repeat constructor.
Defined.

End EnsembleEvaluation.

(** ** Predictions and files of the k-NN classifier *)

Section KNNDetails.
Import Numpy Py DTWKNN Inputs.

Lemma mapM_Ok_elem {A B} (f : A → result B) (l : list A) (r : list B) :
  mapM f l = Ok r → ∀ y, y ∈ r → ∃ x, x ∈ l ∧ f x = Ok y.
Proof.
  revert r. induction l as [|a l IH]; intros r.
  - intros [= <-] y Hy. by apply elem_of_nil in Hy.
  - cbn [mapM]. destruct (f a) as [b|] eqn:Ea; simpl; [|done].
    destruct (mapM f l) as [r'|] eqn:El; simpl; [|done].
    intros [= <-] y [->|Hy]%elem_of_cons.
    + exists a. split; [by left|done].
    + destruct (IH r' eq_refl y Hy) as (x & Hx & Hfx).
      exists x. split; [by right|done].
Qed.

Section Classifier.
Context {obs metric rng : Type}.
Context (fastdtw : obs → obs → Z → metric → Q).
Context (argpartition : list Q → nat → list nat).
Context (randbelow : rng → nat → nat * rng).
Context (cpu_count : nat) (process_state : nat → rng).

(** Every modal label is the label of a reference. *)
Lemma find_modes_labels (self : @t obs metric) (y : list string) d modes :
  find_modes argpartition self y d = Ok modes → ∀ l, l ∈ modes → l ∈ y.
Proof.
  unfold find_modes.
  destruct (np_argpartition argpartition d _) as [part|]; simpl; [|done].
  destruct (neighbor_labels _ _) as [nl|] eqn:Enl; simpl; [|done].
  unfold neighbor_labels in Enl.
  destruct (py_max _) as [mx|]; simpl; [|done].
  intros [= <-] l ([l' c] & -> & [_ Hin]%list_elem_of_filter)%list_elem_of_fmap.
  simpl. destruct (Counter_spec nl) as (_ & _ & _ & Hkeys).
  assert (l' ∈ nl) as Hl.
  { apply Hkeys. apply list_elem_of_fmap. by exists (l', c). }
  destruct (mapM_Ok_elem _ _ _ Enl l' Hl) as (i & _ & Hi).
  destruct (y !! i) as [l0|] eqn:Hy; [|done]. injection Hi as ->.
  by eapply list_elem_of_lookup_2.
Qed.

Lemma choice_elem (s s' : rng) modes l :
  choice randbelow s modes = Ok (l, s') → l ∈ modes.
Proof.
  unfold choice. destruct modes as [|m modes]; [done|].
  destruct (randbelow s _) as [i s1].
  destruct ((m :: modes) !! i) as [x|] eqn:Hx; simpl; [|done].
  intros [= <- _]. by eapply list_elem_of_lookup_2.
Qed.

Lemma classify_label (self : @t obs metric) X y o s l s' :
  classify fastdtw argpartition randbelow self X y o s = Ok (l, s') → l ∈ y.
Proof.
  unfold classify.
  destruct (find_modes _ _ _ _) as [modes|] eqn:Em; simpl; [|done].
  intros Hc%choice_elem. by eapply find_modes_labels.
Qed.

Lemma classify_all_labels (self : @t obs metric) X y batch s labels s' :
  classify_all fastdtw argpartition randbelow self X y batch s
    = Ok (labels, s') →
  length labels = length batch ∧ Forall (λ l, l ∈ y) labels.
Proof.
  revert s labels s'. induction batch as [|o batch IH]; intros s labels s'.
  - intros [= <- _]. by split.
  - cbn [classify_all].
    destruct (classify _ _ _ _ _ _ _ _) as [[l s1]|] eqn:Ec; simpl; [|done].
    destruct (classify_all _ _ _ _ _ _ _ _) as [[ls s2]|] eqn:Ea; simpl;
      [|done].
    intros [= <- _]. destruct (IH s1 ls s2 Ea) as [Hl Hin].
    split; [simpl; by rewrite Hl|]. constructor; [|done].
    by eapply classify_label.
Qed.

Lemma workers_labels (self : @t obs metric) X y (tasks : list (nat * list obs))
    (lss : list (list string)) :
  mapM (λ ic, parallel_predict fastdtw argpartition randbelow process_state
                self X y (S ic.1) ic.2) tasks = Ok lss →
  length (concat lss) = length (concat tasks.*2) ∧
  Forall (λ l, l ∈ y) (concat lss).
Proof.
  revert lss. induction tasks as [|[i c] tasks IH]; intros lss.
  - intros [= <-]. by split.
  - cbn [mapM].
    change (parallel_predict fastdtw argpartition randbelow process_state
              self X y (S (i, c).1) (i, c).2)
      with (fst <$> classify_all fastdtw argpartition randbelow self X y c
                      (process_state (S i))).
    destruct (classify_all _ _ _ _ _ _ _ _) as [[ls s1]|] eqn:Ea; simpl;
      [|done].
    destruct (mapM _ tasks) as [lss'|] eqn:Em; simpl; [|done].
    intros [= <-]. destruct (IH lss' eq_refl) as [Hl Hin].
    destruct (classify_all_labels _ _ _ _ _ _ _ Ea) as [Hl1 Hin1].
    simpl. rewrite !length_app, Hl, Hl1. split; [done|].
    by apply Forall_app.
Qed.

End Classifier.

(** A successful batch prediction has one label per query, each the
    label of a reference. *)
Lemma predict_ok_labels {obs metric rng : Type}
    (fastdtw : obs → obs → Z → metric → Q)
    (argpartition : list Q → nat → list nat)
    (randbelow : rng → nat → nat * rng)
    (cpu_count : nat) (process_state : nat → rng)
    (shape : obs → list nat) (self : t metric)
    batch n_jobs s labels s' :
  predict fastdtw argpartition randbelow cpu_count process_state shape
    self batch n_jobs s = Ok (labels, s') →
  ∃ X y, _X self = Some X ∧ _y self = Some y ∧
         length labels = length batch ∧ Forall (λ l, l ∈ y) labels.
Proof.
  unfold predict, fitted_data.
  destruct (_X self) as [X|]; [|done]. destruct (_y self) as [y|]; [|done].
  simpl. intros H. exists X, y. split; [done|]. split; [done|]. revert H.
  destruct (resolve_jobs cpu_count n_jobs) as [jobs|]; simpl; [|done].
  destruct (Z.eqb_spec n_jobs 1).
  - apply classify_all_labels.
  - unfold array_split_sequences.
    destruct (Nat.eq_dec jobs 0%nat) as [->|Hj]; [done|].
    destruct (array_split_spec batch jobs) as (chunks & -> & Hcat & _);
      [lia|]. cbn [mbind result_bind].
    destruct (same_shape shape batch); simpl; [|done].
    destruct (mapM _ _) as [lss|] eqn:Em; simpl; [|done].
    intros [= <- _]. apply workers_labels in Em as [Hl Hin].
    rewrite imap_pair_snd, Hcat in Hl. done.
Qed.

(** X14: before [fit], [predict] raises its RuntimeError on a single
    sequence and on a batch, whatever the other arguments; after [fit], a
    batch prediction that returns has one label per query, and every
    label that [predict] returns, for a batch or for a single sequence,
    is the label of a reference. *)
Theorem knn_predict_labels_from_training {obs metric rng : Type}
    (fastdtw : obs → obs → Z → metric → Q)
    (argpartition : list Q → nat → list nat)
    (randbelow : rng → nat → nat * rng)
    (cpu_count : nat) (process_state : nat → rng)
    (shape : obs → list nat) (self : t metric) :
  (∀ batch o n_jobs s, _X self = None ∨ _y self = None →
     predict fastdtw argpartition randbelow cpu_count process_state shape
       self batch n_jobs s = Raise (RuntimeError predict_not_fitted) ∧
     predict_single fastdtw argpartition randbelow cpu_count
       self o n_jobs s = Raise (RuntimeError predict_not_fitted)) ∧
  (∀ X y batch n_jobs s labels s',
     _X self = Some X → _y self = Some y →
     predict fastdtw argpartition randbelow cpu_count process_state shape
       self batch n_jobs s = Ok (labels, s') →
     length labels = length batch ∧ Forall (λ l, l ∈ y) labels) ∧
  (∀ X y o n_jobs s l s',
     _X self = Some X → _y self = Some y →
     predict_single fastdtw argpartition randbelow cpu_count
       self o n_jobs s = Ok (l, s') →
     l ∈ y).
Proof.
  split; [|split].
  - intros batch o n_jobs s Hnone. unfold predict, predict_single, fitted_data.
    destruct Hnone as [-> | ->]; [done|]. by destruct (_X self).
  - intros X y batch n_jobs s labels s' HX Hy Hp.
    apply predict_ok_labels in Hp as (X0 & y0 & _ & Hy0 & Hl & Hin).
    rewrite Hy in Hy0. injection Hy0 as <-. done.
  - intros X y o n_jobs s l s' HX Hy.
    unfold predict_single, fitted_data. rewrite HX, Hy. simpl.
    destruct (resolve_jobs cpu_count n_jobs); simpl; [|done].
    apply classify_label.
Qed.

Lemma knn_predict_labels_from_training_witness :
  length ["b"; "a"; "a"]%string = length [5; 0; 9]%Z ∧
  Forall (λ l, l ∈ ["a"; "b"; "a"]%string) ["b"; "a"; "a"]%string.
Proof.
  apply (proj1 (proj2 (knn_predict_labels_from_training abs_distance argsort
                         counting_randbelow 1 workers_at_one frame_shape
                         three_refs))
           [0; 5; 9]%Z ["a"; "b"; "a"]%string [5; 0; 9]%Z 4%Z 0%nat
           ["b"; "a"; "a"]%string 0%nat).
  - reflexivity.
  - reflexivity.
  - vm_compute. reflexivity.
Defined.

Lemma str_inj i j : str i = str j → i = j.
Proof.
  unfold str. intros H. apply Unsigned.to_uint_inj.
  apply (f_equal NilEmpty.uint_of_string) in H.
  rewrite !NilEmpty.usu in H. by injection H.
Qed.

Lemma compare_refl_Eq s : String.compare s s = Eq.
Proof.
  pose proof (String.compare_antisym s s) as H.
  destruct (String.compare s s); simpl in H; done.
Qed.

(** Creating a dataset under a fresh name adds it to the group. *)
Lemma create_dataset_fresh {A} (name : string) (data : A) g :
  name ∉ g.*1 →
  ∃ g', create_dataset name data g = Ok g' ∧ g' ≡ₚ (name, data) :: g.
Proof.
  induction g as [|[n' d'] g IH]; intros Hn; simpl.
  - by eexists.
  - rewrite fmap_cons in Hn. apply not_elem_of_cons in Hn as [Hne Hn].
    simpl in Hne. destruct (String.compare name n') eqn:E.
    + by apply String.compare_eq_iff in E.
    + by eexists.
    + destruct (IH Hn) as (g' & -> & Hp). simpl. eexists. split; [done|].
      rewrite Hp. apply Permutation_swap.
Qed.

(** [save] stores the references under the decimal names of their
    positions. *)
Lemma create_datasets_spec {obs : Type} (X : list obs) i g :
  (∀ n, n ∈ g.*1 → ∃ j, (j < i)%nat ∧ n = str j) →
  ∃ g', create_datasets i X g = Ok g' ∧
        g' ≡ₚ g ++ zip (str <$> seq i (length X)) X.
Proof.
  revert i g. induction X as [|x X IH]; intros i g Hg.
  - exists g. split; [done|]. by rewrite app_nil_r.
  - cbn [create_datasets].
    destruct (create_dataset_fresh (str i) x g) as (g1 & -> & Hp).
    { intros (j & Hj & E%str_inj)%Hg. lia. }
    simpl. destruct (IH (S i) g1) as (g' & -> & Hp').
    { intros n Hn. rewrite Hp, fmap_cons in Hn.
      apply elem_of_cons in Hn as [->|Hn]; [exists i; split; [lia|done]|].
      destruct (Hg n Hn) as (j & Hj & ->). exists j. split; [lia|done]. }
    exists g'. split; [done|]. rewrite Hp', Hp.
    cbn [length seq]. by rewrite <- Permutation_middle.
Qed.

Lemma create_datasets_perm {obs : Type} (X : list obs) :
  ∃ g, create_datasets 0 X [] = Ok g ∧
       g.*1 ≡ₚ str <$> seq 0 (length X) ∧ g.*2 ≡ₚ X.
Proof.
  destruct (create_datasets_spec X 0 []) as (g & Hg & Hp).
  { by intros n ?%elem_of_nil. }
  exists g. split; [done|]. rewrite Hp. simpl. split.
  - rewrite fst_zip; [done|]. by rewrite length_fmap, length_seq.
  - rewrite snd_zip; [done|]. by rewrite length_fmap, length_seq.
Qed.

(** X15: a fitted classifier with at least one label, whose labels are
    ASCII and do not end in a NUL character and whose [k] and radius
    are below [2^64], can be saved and loaded again; the loaded
    classifier has the same [k], radius, metric and labels, in the same
    order, and the same references up to their order: none is lost or
    duplicated. With at most ten references it is the saved
    classifier. *)
Theorem knn_save_load_roundtrip {obs metric : Type}
    (self : t metric) (X : list obs) (y : list string) :
  _X self = Some X → _y self = Some y →
  (0 < _k self < 2 ^ 64)%Z → (0 < _radius self < 2 ^ 64)%Z →
  y ≠ [] →
  Forall (λ l, is_ascii l = true ∧ strip_nul l = l) y →
  ∃ f loaded X',
    save self = Ok f ∧ load f (_metric self) = Ok loaded ∧
    _k loaded = _k self ∧ _radius loaded = _radius self ∧
    _metric loaded = _metric self ∧
    _y loaded = Some y ∧ _X loaded = Some X' ∧ X' ≡ₚ X ∧
    ((length X ≤ 10)%nat → loaded = self).
Proof.
  intros HX Hy Hk Hr Hne Hlab.
  destruct (create_datasets_perm X) as (g & Hg & _ & Hperm).
  assert (forallb is_ascii y = true) as Hascii.
  { apply forallb_forall. intros l Hl%list_elem_of_In.
    rewrite Forall_forall in Hlab. by apply Hlab. }
  assert (strip_nul <$>
            (pad (foldr Nat.max 1%nat (String.length <$> y)) <$> y) = y)
    as Hstrip.
  { rewrite <- list_fmap_compose.
    rewrite (list_fmap_ext _ id y); [by rewrite list_fmap_id|].
    intros i l Hl. simpl. apply strip_nul_pad.
    rewrite Forall_forall in Hlab. apply Hlab.
    by eapply list_elem_of_lookup_2. }
  assert (save self = Ok {| params_k := _k self; params_radius := _radius self;
                            data_X := g;
                            data_y := BytesArray
                                        (pad (foldr Nat.max 1%nat
                                                (String.length <$> y)) <$> y) |})
    as Hsave.
  { unfold save, fitted_data. rewrite HX, Hy. simpl.
    rewrite !h5_int_ok by done. simpl. rewrite Hg. simpl.
    by rewrite np_string_ok. }
  eexists. exists {| _k := _k self; _radius := _radius self;
                     _metric := _metric self;
                     _X := Some g.*2; _y := Some y |}, g.*2.
  split; [exact Hsave|]. split.
  { unfold load, __init__, restricted_integer. simpl.
    destruct (Z.ltb_spec 0 (_k self)); [|lia].
    destruct (Z.ltb_spec 0 (_radius self)); [|lia]. simpl.
    by rewrite Hstrip. }
  simpl. do 5 (split; [done|]). split; [exact Hperm|].
  intros Hlen. destruct (create_datasets_up_to_ten X Hlen) as (g0 & Hg0 & HX0).
  rewrite Hg in Hg0. injection Hg0 as <-. rewrite HX0.
  destruct self; simpl in *. by subst.
Qed.

Lemma knn_save_load_roundtrip_witness :
  ∃ f loaded X',
    save three_refs = Ok f ∧ load f (_metric three_refs) = Ok loaded ∧
    _k loaded = _k three_refs ∧ _radius loaded = _radius three_refs ∧
    _metric loaded = _metric three_refs ∧
    _y loaded = Some ["a"; "b"; "a"]%string ∧ _X loaded = Some X' ∧
    X' ≡ₚ [0; 5; 9]%Z ∧
    ((length [0; 5; 9]%Z ≤ 10)%nat → loaded = three_refs).
Proof.
  apply (knn_save_load_roundtrip three_refs [0; 5; 9]%Z ["a"; "b"; "a"]%string).
  - reflexivity.
  - reflexivity.
  - vm_compute. split; reflexivity.
  - vm_compute. split; reflexivity.
  - discriminate.
  - repeat constructor.
Defined.

Lemma string_length_append (s u : string) :
  String.length (s ++ u) = (String.length s + String.length u)%nat.
Proof. induction s as [|c s IH]; [done|]. simpl. by rewrite IH. Qed.

Lemma string_length_of_list (l : list ascii) :
  String.length (string_of_list_ascii l) = length l.
Proof. induction l as [|c l IH]; [done|]. simpl. by rewrite IH. Qed.

Lemma length_pad (w : nat) (s : string) :
  (String.length s ≤ w)%nat → String.length (pad w s) = w.
Proof.
  intros H. unfold pad.
  rewrite string_length_append, string_length_of_list, length_replicate. lia.
Qed.

Lemma foldr_max_bound (b : nat) (l : list nat) :
  (b ≤ foldr Nat.max b l)%nat ∧ ∀ x, x ∈ l → (x ≤ foldr Nat.max b l)%nat.
Proof.
  induction l as [|a l [IH1 IH2]]; simpl.
  - split; [done|]. by intros x ?%elem_of_nil.
  - split; [lia|]. intros x [->|Hx]%elem_of_cons; [lia|].
    specialize (IH2 x Hx). lia.
Qed.

Lemma create_dataset_HdRel {A} (n0 : string) (name : string) (data : A) g g' :
  String.compare n0 name = Lt →
  HdRel (λ s u, String.compare s u = Lt) n0 g.*1 →
  create_dataset name data g = Ok g' →
  HdRel (λ s u, String.compare s u = Lt) n0 g'.*1.
Proof.
  intros Hlt Hhd. destruct g as [|[n' d'] g]; simpl.
  - intros [= <-]. by constructor.
  - inversion Hhd; subst. destruct (String.compare name n').
    + done.
    + intros [= <-]. by constructor.
    + destruct (create_dataset name data g); simpl; [|done].
      intros [= <-]. by constructor.
Qed.

(** A group keeps its members in increasing order of their names. *)
Lemma create_dataset_sorted {A} (name : string) (data : A) g g' :
  Sorted (λ s u, String.compare s u = Lt) g.*1 →
  create_dataset name data g = Ok g' →
  Sorted (λ s u, String.compare s u = Lt) g'.*1.
Proof.
  revert g'. induction g as [|[n' d'] g IH]; intros g' Hs; simpl.
  - intros [= <-]. repeat constructor.
  - rewrite fmap_cons in Hs. apply Sorted_inv in Hs as [Hs Hhd].
    destruct (String.compare name n') eqn:E.
    + done.
    + intros [= <-]. rewrite !fmap_cons. constructor; [by constructor|].
      by constructor.
    + destruct (create_dataset name data g) as [g1|] eqn:Eg; simpl; [|done].
      intros [= <-]. rewrite fmap_cons. constructor; [by apply IH|].
      eapply create_dataset_HdRel; [|done|done]. by apply compare_Gt_Lt.
Qed.

Lemma create_datasets_sorted {obs : Type} (X : list obs) i g g' :
  Sorted (λ s u, String.compare s u = Lt) g.*1 →
  create_datasets i X g = Ok g' →
  Sorted (λ s u, String.compare s u = Lt) g'.*1.
Proof.
  revert i g. induction X as [|x X IH]; intros i g Hs.
  - by intros [= <-].
  - cbn [create_datasets].
    destruct (create_dataset (str i) x g) as [g1|] eqn:E; simpl; [|done].
    apply IH. by eapply create_dataset_sorted.
Qed.

(** X16: [save] raises its RuntimeError before [fit] and, with [k] and
    the radius below [2^64], fails on a label that is not ASCII;
    otherwise, given at least one label, the file holds [k], the
    radius, one dataset per reference under the decimal name of its
    position, kept in increasing order of the names, and the labels as
    an array of byte strings of one common width, at least one, that
    read back as the labels once their trailing NUL characters are
    dropped. *)
Theorem knn_save_layout {obs metric : Type} (self : @t obs metric) :
  (_X self = None ∨ _y self = None →
   save self = Raise (RuntimeError save_not_fitted)) ∧
  (∀ X y, _X self = Some X → _y self = Some y →
     (0 < _k self < 2 ^ 64)%Z → (0 < _radius self < 2 ^ 64)%Z →
     forallb is_ascii y = false →
     save self = Raise (ValueError "'ascii' codec can't encode character")) ∧
  (∀ X y, _X self = Some X → _y self = Some y →
     (0 < _k self < 2 ^ 64)%Z → (0 < _radius self < 2 ^ 64)%Z →
     y ≠ [] → forallb is_ascii y = true →
     ∃ f w ys, save self = Ok f ∧
       params_k f = _k self ∧ params_radius f = _radius self ∧
       (data_X f).*1 ≡ₚ str <$> seq 0 (length X) ∧
       Sorted (λ s u, String.compare s u = Lt) (data_X f).*1 ∧
       (data_X f).*2 ≡ₚ X ∧
       data_y f = BytesArray ys ∧
       (1 ≤ w)%nat ∧ length ys = length y ∧
       Forall (λ b, String.length b = w) ys ∧
       Forall2 (λ l b, strip_nul b = strip_nul l) y ys).
Proof.
  split; [|split].
  - intros Hnone. unfold save, fitted_data.
    destruct Hnone as [-> | ->]; [done|]. by destruct (_X self).
  - intros X y HX Hy Hk Hr Hascii. unfold save, fitted_data.
    rewrite HX, Hy. simpl. rewrite !h5_int_ok by done. simpl.
    destruct (create_datasets_perm X) as (g & -> & _). simpl.
    unfold np_string_. destruct y as [|l y]; [done|]. by rewrite Hascii.
  - intros X y HX Hy Hk Hr Hne Hascii.
    destruct (create_datasets_perm X) as (g & Hg & Hn & Hp).
    set (w := foldr Nat.max 1%nat (String.length <$> y)).
    exists {| params_k := _k self; params_radius := _radius self;
              data_X := g; data_y := BytesArray (pad w <$> y) |}, w,
      (pad w <$> y).
    split.
    { unfold save, fitted_data. rewrite HX, Hy. simpl.
      rewrite !h5_int_ok by done. simpl. rewrite Hg. simpl.
      by rewrite np_string_ok. }
    simpl. split; [done|]. split; [done|]. split; [done|]. split.
    { eapply (create_datasets_sorted X 0 []); [constructor|done]. }
    split; [done|]. split; [done|].
    destruct (foldr_max_bound 1 (String.length <$> y)) as [Hw1 Hw2].
    split; [done|]. split; [by rewrite length_fmap|]. split.
    + apply Forall_fmap, Forall_forall. intros l Hl. simpl.
      apply length_pad. apply Hw2. by apply list_elem_of_fmap_2.
    + apply Forall2_fmap_r, Forall_Forall2_diag, Forall_forall.
      intros l _. unfold pad. apply strip_nul_app_nuls.
Qed.

Lemma knn_save_layout_witness :
  ∃ f w ys, save three_refs = Ok f ∧
    params_k f = _k three_refs ∧ params_radius f = _radius three_refs ∧
    (data_X f).*1 ≡ₚ str <$> seq 0 (length [0; 5; 9]%Z) ∧
    Sorted (λ s u, String.compare s u = Lt) (data_X f).*1 ∧
    (data_X f).*2 ≡ₚ [0; 5; 9]%Z ∧
    data_y f = BytesArray ys ∧
    (1 ≤ w)%nat ∧ length ys = length ["a"; "b"; "a"]%string ∧
    Forall (λ b, String.length b = w) ys ∧
    Forall2 (λ l b, strip_nul b = strip_nul l) ["a"; "b"; "a"]%string ys.
Proof.
  apply (proj2 (proj2 (knn_save_layout three_refs))
           [0; 5; 9]%Z ["a"; "b"; "a"]%string).
  - reflexivity.
  - reflexivity.
  - vm_compute. split; reflexivity.
  - vm_compute. split; reflexivity.
  - discriminate.
  - reflexivity.
Defined.

End KNNDetails.

(** ** Evaluating the k-NN classifier *)

Section KNNEvaluation.
Import Numpy Py DTWKNN Inputs.

(** X17: [evaluate] on a non-empty batch with as many labels as
    sequences, whenever the batch prediction returns (the confusion
    matrix counting the pairs of true and predicted label as documented):
    without [labels], the confusion matrix counts every sequence once,
    its trace is the number of sequences predicted with their own label,
    and the accuracy is that number divided by the number of sequences;
    with [labels], only the sequences whose true and predicted labels
    are both listed are counted, and the accuracy is not finite when
    there is none. *)
Theorem knn_evaluate_accuracy {obs metric rng : Type}
    (fastdtw : obs → obs → Z → metric → Q)
    (argpartition : list Q → nat → list nat)
    (randbelow : rng → nat → nat * rng)
    (cpu_count : nat) (process_state : nat → rng)
    (shape : obs → list nat)
    (confusion_matrix :
       list string → list string → option (list string) →
       result (list (list nat)))
    (self : t metric) (X : list obs) (y : list string) n_jobs s preds s' :
  (∀ yt yp, length yt = length yp → yt ≠ [] →
     confusion_matrix yt yp None
     = Ok (pair_counts yt yp (unique (yt ++ yp)))) →
  (∀ yt yp L, length yt = length yp → NoDup L →
     (∃ l, l ∈ L ∧ l ∈ yt) →
     confusion_matrix yt yp (Some L) = Ok (pair_counts yt yp L)) →
  X ≠ [] → length X = length y →
  predict fastdtw argpartition randbelow cpu_count process_state shape
    self X n_jobs s = Ok (preds, s') →
  (∃ cm,
     evaluate fastdtw argpartition randbelow cpu_count process_state shape
       confusion_matrix self X y None n_jobs s
     = Ok (Finite (Qnat (trace cm) / Qnat (length X)), cm, s') ∧
     total cm = length X ∧
     trace cm = length (filter (λ tp, tp.1 = tp.2) (zip y preds))) ∧
  (∀ L, NoDup L → (∃ l, l ∈ L ∧ l ∈ y) →
     ∃ cm,
       evaluate fastdtw argpartition randbelow cpu_count process_state shape
         confusion_matrix self X y (Some L) n_jobs s
       = Ok (true_divide (trace cm) (total cm), cm, s') ∧
       total cm
       = length (filter (λ tp, tp.1 ∈ L ∧ tp.2 ∈ L) (zip y preds)) ∧
       trace cm
       = length (filter (λ tp, tp.1 = tp.2 ∧ tp.1 ∈ L) (zip y preds))).
Proof.
  intros Hnone Hsome HX Hlen Hpred.
  destruct (predict_ok_labels _ _ _ _ _ _ _ _ _ _ _ _ Hpred)
    as (Xr & yr & _ & _ & Hpl & _).
  assert (length y = length preds) as Hyp by lia.
  assert (y ≠ []) as Hy.
  { intros ->. destruct X; [done|simpl in Hlen; lia]. }
  assert (∀ labels,
    evaluate fastdtw argpartition randbelow cpu_count process_state shape
      confusion_matrix self X y labels n_jobs s
    = cm ← confusion_matrix y preds labels;
      Ok (true_divide (trace cm) (total cm), cm, s')) as Hev.
  { intros labels. unfold evaluate, observation_sequences_and_labels.
    rewrite Hlen, Nat.eqb_refl. simpl. by rewrite Hpred. }
  split.
  - set (L := unique (y ++ preds)).
    assert (NoDup L) as HL
      by apply strictly_sorted_NoDup, unique_strictly_sorted.
    exists (pair_counts y preds L).
    assert (total (pair_counts y preds L) = length X) as Htot.
    { rewrite total_pair_counts by done. rewrite filter_all.
      - rewrite length_zip. lia.
      - intros [t p] [Ht Hp']%elem_of_zip. simpl.
        split; apply elem_of_unique, elem_of_app; auto. }
    split; [|split; [done|]].
    + rewrite Hev, (Hnone y preds Hyp Hy). simpl. fold L.
      rewrite Htot. unfold true_divide.
      destruct (Nat.eqb_spec (length X) 0) as [E|]; [|done]. by destruct X.
    + rewrite trace_pair_counts by done. f_equal.
      apply filter_ext_in. intros [t p] [Ht _]%elem_of_zip. simpl.
      split; [by intros [? _]|]. intros ->. split; [done|].
      apply elem_of_unique, elem_of_app. auto.
  - intros L HL Hin. exists (pair_counts y preds L).
    split; [|split].
    + by rewrite Hev, (Hsome y preds L Hyp HL Hin).
    + by apply total_pair_counts.
    + by apply trace_pair_counts.
Qed.

Lemma knn_evaluate_accuracy_witness :
  ∃ cm,
    evaluate abs_distance argsort counting_randbelow 1 workers_at_one
      frame_shape label_confusion_matrix three_refs [5; 0; 9]%Z ["b"; "b"; "a"]%string
      None 4 0%nat
    = Ok (Finite (Qnat (trace cm) / Qnat (length [5; 0; 9]%Z)), cm, 0%nat) ∧
    total cm = length [5; 0; 9]%Z ∧
    trace cm = length (filter (λ tp, tp.1 = tp.2)
                         (zip ["b"; "b"; "a"]%string ["b"; "a"; "a"]%string)).
Proof.
  apply (proj1 (knn_evaluate_accuracy abs_distance argsort counting_randbelow
                  1 workers_at_one frame_shape label_confusion_matrix
                  three_refs
                  [5; 0; 9]%Z ["b"; "b"; "a"]%string 4 0%nat
                  ["b"; "a"; "a"]%string 0%nat
                  ltac:(done) ltac:(done) ltac:(done) ltac:(done)
                  ltac:(vm_compute; reflexivity))).
Defined.

End KNNEvaluation.

(** ** When the k-NN classifier returns *)

Section KNNTotality.
Import Numpy Py DTWKNN Inputs.

Section Totality.
Context {obs metric rng : Type}.
Context (fastdtw : obs → obs → Z → metric → Q).
Context (argpartition : list Q → nat → list nat).
Context (randbelow : rng → nat → nat * rng).
Context (cpu_count : nat) (process_state : nat → rng).
Context (shape : obs → list nat).
Context (self : @t obs metric) (X : list obs) (y : list string).

Hypothesis argpartition_partitions :
  ∀ d k, (k < length d)%nat → partitioned d k (argpartition d k).
Hypothesis randbelow_bound :
  ∀ s n, (0 < n)%nat → ((randbelow s n).1 < n)%nat.
Hypothesis same_length : length X = length y.
Hypothesis neighbors_in_range :
  (0 < Z.to_nat (_k self) < length X)%nat.
Hypothesis neighbors_index : (_k self < 2 ^ 63)%Z.

Lemma knn_classify_total o s :
  ∃ l s', classify fastdtw argpartition randbelow self X y o s = Ok (l, s').
Proof using argpartition_partitions randbelow_bound same_length
  neighbors_in_range neighbors_index.
  unfold classify.
  set (d := (λ x, distance fastdtw self o x) <$> X).
  assert (length d = length X) as Hd by apply length_fmap.
  destruct (find_modes_spec argpartition self y d)
    as (nl & modes & _ & _ & _ & _ & -> & _ & Hne & _);
    [apply argpartition_partitions; lia|lia|lia|done|lia|].
  simpl. destruct (choice_spec randbelow s modes Hne) as (l & _ & ->).
  { apply randbelow_bound. destruct modes; [done|simpl; lia]. }
  by eexists _, _.
Qed.

Lemma knn_classify_all_total batch s :
  ∃ labels s',
    classify_all fastdtw argpartition randbelow self X y batch s
    = Ok (labels, s').
Proof using argpartition_partitions randbelow_bound same_length
  neighbors_in_range neighbors_index.
  revert s. induction batch as [|o batch IH]; intros s; [by eexists _, _|].
  cbn [classify_all]. destruct (knn_classify_total o s) as (l & s1 & ->). simpl.
  destruct (IH s1) as (ls & s2 & ->). simpl. by eexists _, _.
Qed.

Lemma knn_workers_total (tasks : list (nat * list obs)) :
  ∃ lss,
    mapM (λ ic, parallel_predict fastdtw argpartition randbelow
                  process_state self X y (S ic.1) ic.2) tasks = Ok lss.
Proof using argpartition_partitions randbelow_bound same_length
  neighbors_in_range neighbors_index.
  induction tasks as [|[i c] tasks (lss & IH)]; [by eexists|].
  cbn [mapM].
  change (parallel_predict fastdtw argpartition randbelow process_state
            self X y (S (i, c).1) (i, c).2)
    with (fst <$> classify_all fastdtw argpartition randbelow self X y c
                    (process_state (S i))).
  destruct (knn_classify_all_total c (process_state (S i))) as (ls & s' & ->).
  simpl. rewrite IH. simpl. by eexists.
Qed.

Lemma knn_batch_total batch n_jobs s :
  _X self = Some X → _y self = Some y →
  (1 ≤ cpu_count)%nat → (n_jobs = -1 ∨ 0 < n_jobs)%Z →
  (n_jobs = 1%Z ∨ same_shape shape batch = true) →
  ∃ labels s',
    predict fastdtw argpartition randbelow cpu_count process_state shape
      self batch n_jobs s = Ok (labels, s').
Proof using argpartition_partitions randbelow_bound same_length
  neighbors_in_range neighbors_index.
  intros HX Hy Hc Hn Hshape. unfold predict, fitted_data.
  rewrite HX, Hy. simpl.
  destruct (resolve_jobs_pos cpu_count n_jobs Hc Hn) as (jobs & -> & Hj).
  simpl. destruct (Z.eqb_spec n_jobs 1).
  - apply knn_classify_all_total.
  - destruct Hshape as [|Hshape]; [done|]. unfold array_split_sequences.
    destruct (array_split_spec batch jobs) as (chunks & -> & _); [lia|].
    cbn [mbind result_bind]. rewrite Hshape. simpl.
    destruct (knn_workers_total (imap pair chunks)) as (lss & ->).
    simpl. by eexists _, _.
Qed.

End Totality.

(** X19: on a fitted classifier with as many labels as references and a
    number of neighbours below the number of references (and below
    [2^63]), the selection meeting the contract of [np.argpartition]
    and the generator drawing below its bound: [predict] returns on
    every batch with one job, and with any admissible number of jobs
    on every batch of sequences of one shape, one label per query, each
    the label of a reference; with more than one job a batch of
    sequences that differ in shape raises the ValueError of
    [np.array_split]. *)
Theorem knn_predict_total {obs metric rng : Type}
    (fastdtw : obs → obs → Z → metric → Q)
    (argpartition : list Q → nat → list nat)
    (randbelow : rng → nat → nat * rng)
    (cpu_count : nat) (process_state : nat → rng)
    (shape : obs → list nat)
    (self : t metric) (X : list obs) (y : list string) :
  (∀ d k, (k < length d)%nat → partitioned d k (argpartition d k)) →
  (∀ s n, (0 < n)%nat → ((randbelow s n).1 < n)%nat) →
  _X self = Some X → _y self = Some y → length X = length y →
  (0 < Z.to_nat (_k self) < length X)%nat → (_k self < 2 ^ 63)%Z →
  (1 ≤ cpu_count)%nat →
  (∀ batch n_jobs s,
     (n_jobs = -1 ∨ 0 < n_jobs)%Z →
     n_jobs = 1%Z ∨ same_shape shape batch = true →
     ∃ labels s',
       predict fastdtw argpartition randbelow cpu_count process_state shape
         self batch n_jobs s = Ok (labels, s') ∧
       length labels = length batch ∧ Forall (λ l, l ∈ y) labels) ∧
  (∀ batch n_jobs s,
     (n_jobs = -1 ∨ 1 < n_jobs)%Z →
     same_shape shape batch = false →
     predict fastdtw argpartition randbelow cpu_count process_state shape
       self batch n_jobs s
     = Raise (ValueError "setting an array element with a sequence. The requested array has an inhomogeneous shape")).
Proof.
  intros Hpart Hrand HX Hy Hlen Hk Hk63 Hc. split.
  - intros batch n_jobs s Hn Hshape.
    destruct (knn_batch_total fastdtw argpartition randbelow cpu_count
                process_state shape self X y Hpart Hrand Hlen Hk Hk63
                batch n_jobs s HX Hy Hc Hn Hshape) as (labels & s' & Hp).
    exists labels, s'. split; [done|].
    destruct (predict_ok_labels _ _ _ _ _ _ _ _ _ _ _ _ Hp)
      as (X0 & y0 & _ & Hy0 & Hl & Hin).
    rewrite Hy in Hy0. by injection Hy0 as <-.
  - intros batch n_jobs s Hn Hshape.
    by apply (knn_predict_ragged fastdtw argpartition randbelow cpu_count
                process_state shape self X y).
Qed.

Lemma knn_predict_total_witness :
  (∃ labels s',
     predict sum_distance argsort counting_randbelow 1 workers_at_one
       frames_shape frames_refs [[1]; [4; 4]]%Z 1 0%nat = Ok (labels, s') ∧
     length labels = length [[1]; [4; 4]]%Z ∧
     Forall (λ l, l ∈ ["a"; "b"; "a"]%string) labels) ∧
  (∃ labels s',
     predict sum_distance argsort counting_randbelow 1 workers_at_one
       frames_shape frames_refs [[1]; [8]]%Z 4 0%nat = Ok (labels, s') ∧
     length labels = length [[1]; [8]]%Z ∧
     Forall (λ l, l ∈ ["a"; "b"; "a"]%string) labels) ∧
  predict sum_distance argsort counting_randbelow 1 workers_at_one
    frames_shape frames_refs [[1]; [4; 4]]%Z 4 0%nat
  = Raise (ValueError "setting an array element with a sequence. The requested array has an inhomogeneous shape").
Proof.
  pose proof (knn_predict_total sum_distance argsort counting_randbelow 1
                workers_at_one frames_shape frames_refs
                [[0]; [2; 3]; [9]]%Z ["a"; "b"; "a"]%string) as H.
  destruct H as [Hok Hraise].
  - intros d k _. apply argsort_partitioned.
  - intros s n Hn. by apply counting_randbelow_bound.
  - reflexivity.
  - reflexivity.
  - reflexivity.
  - vm_compute. lia.
  - reflexivity.
  - lia.
  - split; [|split].
    + apply Hok; [lia|by left].
    + apply Hok; [lia|by right].
    + apply Hraise; [lia|reflexivity].
Defined.

(** With one neighbour there is a single modal label: the label of the
    selected reference, which is nearest to the query. *)
Lemma one_neighbor_single_mode {obs metric : Type}
    (fastdtw : obs → obs → Z → metric → Q)
    (argpartition : list Q → nat → list nat)
    (self : t metric) (X : list obs) (y : list string) (o : obs) :
  (∀ d k, (k < length d)%nat → partitioned d k (argpartition d k)) →
  length X = length y → _k self = 1%Z → (1 < length X)%nat →
  ∃ j l, y !! j = Some l ∧
    single_mode fastdtw argpartition self X y o l ∧
    ∀ j', (j' < length X)%nat →
      nth j ((λ x, distance fastdtw self o x) <$> X) 0
      <= nth j' ((λ x, distance fastdtw self o x) <$> X) 0.
Proof.
  intros Hpart Hlen Hk HN.
  set (d := (λ x, distance fastdtw self o x) <$> X).
  assert (length d = length X) as Hd by apply length_fmap.
  assert (Z.to_nat (_k self) = 1%nat) as Hk1 by (rewrite Hk; done).
  pose proof (Hpart d 1%nat ltac:(lia)) as Hp.
  destruct (find_modes_spec argpartition self y d)
    as (nl & modes & _ & _ & _ & Hf2 & Hfm & Hnd & Hne & Hm);
    [by rewrite Hk1|lia|lia|rewrite Hk; done|lia|].
  rewrite Hk1 in Hf2.
  destruct (selection_spec d 1%nat _ Hp) as (Hl & _ & Hsel); [lia|].
  destruct (take 1%nat (argpartition d 1%nat)) as [|j [|? ?]] eqn:Et;
    [done| |done].
  inversion Hf2 as [|? l ? nl' Hj Hrest]; subst. inversion Hrest; subst.
  exists j, l. split; [done|]. split.
  - unfold single_mode. fold d. rewrite Hfm. f_equal.
    apply NoDup_all_eq; [done|done|].
    intros t [Ht _]%Hm. by apply list_elem_of_singleton in Ht.
  - intros j' Hj'. destruct (Hsel j ltac:(by left)) as [_ Hmin].
    destruct (decide (j' = j)) as [->|Hne']; [apply Qle_refl|].
    apply Hmin; [lia|]. by intros ?%list_elem_of_singleton.
Qed.

(** X20: with one neighbour and at least two references the prediction
    does not depend on chance: for any two generator states and any two
    admissible numbers of jobs (more than one job needing a batch of
    sequences of one shape) [predict] returns the same labels, each the
    label of a reference that is nearest to its query. *)
Theorem knn_one_neighbor_deterministic {obs metric rng : Type}
    (fastdtw : obs → obs → Z → metric → Q)
    (argpartition : list Q → nat → list nat)
    (randbelow : rng → nat → nat * rng)
    (cpu_count : nat) (process_state : nat → rng)
    (shape : obs → list nat)
    (self : t metric) (X : list obs) (y : list string)
    (batch : list obs) (n1 n2 : Z) (s1 s2 : rng) :
  (∀ d k, (k < length d)%nat → partitioned d k (argpartition d k)) →
  (∀ s n, (0 < n)%nat → ((randbelow s n).1 < n)%nat) →
  _X self = Some X → _y self = Some y → length X = length y →
  _k self = 1%Z → (1 < length X)%nat →
  (1 ≤ cpu_count)%nat →
  (n1 = -1 ∨ 0 < n1)%Z → (n2 = -1 ∨ 0 < n2)%Z →
  n1 = 1%Z ∨ same_shape shape batch = true →
  n2 = 1%Z ∨ same_shape shape batch = true →
  ∃ labels,
    fst <$> predict fastdtw argpartition randbelow cpu_count process_state
              shape self batch n1 s1 = Ok labels ∧
    fst <$> predict fastdtw argpartition randbelow cpu_count process_state
              shape self batch n2 s2 = Ok labels ∧
    Forall2 (λ o l, ∃ j, y !! j = Some l ∧
               ∀ j', (j' < length X)%nat →
                 nth j ((λ x, distance fastdtw self o x) <$> X) 0
                 <= nth j' ((λ x, distance fastdtw self o x) <$> X) 0)
      batch labels.
Proof.
  intros Hpart Hrand HX Hy Hlen Hk HN Hc H1 H2 Hs1 Hs2.
  assert (Forall (λ o, ∃ l, single_mode fastdtw argpartition self X y o l)
            batch) as Hall.
  { apply Forall_forall. intros o _.
    destruct (one_neighbor_single_mode fastdtw argpartition self X y o)
      as (j & l & _ & Hs & _); [done..|]. by exists l. }
  destruct (knn_predict_single_mode fastdtw argpartition randbelow
              cpu_count process_state shape self X y Hrand batch n1 s1)
    as (l1 & Hl1 & Hp1); [done..|].
  destruct (knn_predict_single_mode fastdtw argpartition randbelow
              cpu_count process_state shape self X y Hrand batch n2 s2)
    as (l2 & Hl2 & Hp2); [done..|].
  assert (l2 = l1) as ->
    by by apply (single_mode_functional fastdtw argpartition self X y batch).
  exists l1. split; [done|]. split; [done|].
  eapply Forall2_impl; [exact Hl1|]. intros o l Hs.
  destruct (one_neighbor_single_mode fastdtw argpartition self X y o)
    as (j & l' & Hj & Hs' & Hmin); [done..|].
  unfold single_mode in Hs, Hs'. rewrite Hs in Hs'. injection Hs' as <-.
  by exists j.
Qed.

Lemma knn_one_neighbor_deterministic_witness :
  ∃ labels,
    fst <$> predict abs_distance argsort counting_randbelow 1 workers_at_one
              frame_shape three_refs [5; 0; 9]%Z 1 0%nat = Ok labels ∧
    fst <$> predict abs_distance argsort counting_randbelow 1 workers_at_one
              frame_shape three_refs [5; 0; 9]%Z 4 7%nat = Ok labels ∧
    Forall2 (λ o l, ∃ j, ["a"; "b"; "a"]%string !! j = Some l ∧
               ∀ j', (j' < length [0; 5; 9]%Z)%nat →
                 nth j ((λ x, distance abs_distance three_refs o x)
                          <$> [0; 5; 9]%Z) 0
                 <= nth j' ((λ x, distance abs_distance three_refs o x)
                              <$> [0; 5; 9]%Z) 0)
      [5; 0; 9]%Z labels.
Proof.
  apply (knn_one_neighbor_deterministic abs_distance argsort
           counting_randbelow 1 workers_at_one frame_shape three_refs).
  - intros d k _. apply argsort_partitioned.
  - intros s n Hn. by apply counting_randbelow_bound.
  - reflexivity.
  - reflexivity.
  - reflexivity.
  - reflexivity.
  - simpl. lia.
  - lia.
  - lia.
  - lia.
  - by left.
  - by right.
Defined.

End KNNTotality.

(** ** Models that share a label *)

Section DuplicateLabels.
Import Numpy Py HMMClassifier Inputs.

Lemma insert_unique_mem x l :
  StronglySorted (λ s t, String.compare s t = Lt) l →
  x ∈ l → insert_unique x l = l.
Proof.
  induction 1 as [|y l Hs IH Hy]; intros Hx; [by apply elem_of_nil in Hx|].
  simpl. destruct (String.compare x y) eqn:E.
  - done.
  - exfalso. apply elem_of_cons in Hx as [->|Hx].
    + exact (compare_Lt_neq y y E eq_refl).
    + rewrite Forall_forall in Hy. specialize (Hy x Hx).
      exact (compare_Lt_neq x x (compare_Lt_trans x y x E Hy) eq_refl).
  - f_equal. apply IH. apply elem_of_cons in Hx as [->|Hx]; [|done].
    by rewrite compare_refl_Eq in E.
Qed.

(** Labels that repeat leave fewer classes than models. *)
Lemma length_unique_lt l :
  ¬ NoDup l → (length (unique l) < length l)%nat.
Proof.
  induction l as [|x l IH]; intros Hnd; [by destruct Hnd; constructor|].
  unfold unique in *. cbn [foldr length]. fold (unique l).
  destruct (decide (x ∈ l)) as [Hx|Hx].
  - rewrite insert_unique_mem.
    + pose proof (length_unique l). lia.
    + apply unique_strictly_sorted.
    + by apply elem_of_unique.
  - pose proof (length_insert_unique x (unique l)).
    assert (length (unique l) < length l)%nat; [|lia].
    apply IH. intros Hl. apply Hnd. by constructor.
Qed.

Lemma dict_of_const {hmm : Type} (c : Q) (ms : list (GMMHMM hmm)) d :
  ∃ d', dict_of (λ _, Ok c) ms d = Ok d' ∧
        (∀ m, m ∈ ms → d' !! label m = Some c) ∧
        (∀ k, d !! k = Some c → d' !! k = Some c).
Proof.
  revert d. induction ms as [|m ms IH]; intros d.
  - exists d. split; [done|]. split; [|done]. by intros m ?%elem_of_nil.
  - cbn [dict_of]. simpl.
    destruct (IH (<[label m := c]> d)) as (d' & Hd & Hin & Hkeep).
    exists d'. split; [done|]. split.
    + intros m' [->|Hm']%elem_of_cons; [|by apply Hin].
      apply Hkeep. apply lookup_insert_eq.
    + intros k Hk. apply Hkeep.
      destruct (decide (k = label m)) as [->|Hne].
      * apply lookup_insert_eq.
      * by rewrite lookup_insert_ne.
Qed.

(** X18: [fit] accepts models that share a label, and then the encoder
    has fewer classes than there are models: with the uniform prior,
    when the last model scores strictly highest, [predict] returns the
    last position as class index, and with [original_labels] it raises
    the encoder's error, the position lying beyond the classes. *)
Theorem duplicate_labels_decode_error {obs hmm : Type}
    (forward : hmm → obs → Q) (log : Q → Q) (cpu_count : nat)
    (self0 self : t hmm) ms m_last x rs n_jobs :
  fit self0 (ms ++ [m_last]) = Ok self →
  ¬ NoDup (label <$> ms ++ [m_last]) →
  is_ok (resolve_jobs cpu_count n_jobs) = true →
  (∀ m, m ∈ ms →
     score forward log (ms ++ [m_last]) Uniform x m
     < score forward log (ms ++ [m_last]) Uniform x m_last) →
  let scores := score forward log (ms ++ [m_last]) Uniform x
                  <$> ms ++ [m_last] in
  predict_single forward log cpu_count self x Uniform rs false n_jobs
    = Ok (Index (length ms), if rs then Some scores else None) ∧
  predict_single forward log cpu_count self x Uniform rs true n_jobs
    = Raise unseen.
Proof.
  intros Hfit Hdup Hn Hbest scores.
  set (models := ms ++ [m_last]) in *.
  apply fit_fitted_with in Hfit as [[Hm He] Hne].
  assert (∀ ol,
    predict_single forward log cpu_count self x Uniform rs ol n_jobs
    = i ← argmax scores; _output_single self i scores rs ol) as Hunf.
  { intros ol. unfold predict_single, models_. rewrite Hm. simpl.
    destruct (resolve_jobs cpu_count n_jobs) as [j|]; [simpl|done].
    unfold _get_priors, models_. rewrite Hm. simpl.
    destruct (dict_of_const (1 / Qnat (length models)) models ∅)
      as (d & -> & Hd & _).
    simpl. unfold _predict, models_. rewrite Hm. simpl.
    rewrite (mapM_Ok_fmap _ (score forward log models Uniform x)); [done|].
    intros m Hin. by rewrite (Hd m Hin). }
  destruct (argmax_spec scores) as (i & mx & Hi & Hmx & Hmax & Hfirst).
  { unfold scores, models. by destruct ms. }
  assert (scores !! length ms
          = Some (score forward log models Uniform x m_last)) as Hlast.
  { unfold scores, models. rewrite list_lookup_fmap.
    rewrite lookup_app_r by lia. by rewrite Nat.sub_diag. }
  assert (i = length ms) as ->.
  { destruct (Nat.lt_trichotomy i (length ms)) as [Hlt|[->|Hgt]]; [|done|].
    - exfalso. destruct (lookup_lt_is_Some_2 ms i Hlt) as [m Hmi].
      assert (scores !! i = Some (score forward log models Uniform x m))
        as Hsi.
      { unfold scores, models. rewrite list_lookup_fmap.
        by rewrite lookup_app_l, Hmi by done. }
      rewrite Hsi in Hmx. injection Hmx as <-.
      pose proof (Hmax _ _ Hlast) as Hle.
      pose proof (Hbest m ltac:(by eapply list_elem_of_lookup_2)) as Hlt'.
      by apply (Qlt_not_le _ _ Hlt').
    - apply lookup_lt_Some in Hmx. unfold scores, models in Hmx.
      rewrite length_fmap, length_app in Hmx. simpl in Hmx. lia. }
  rewrite !Hunf, Hi. simpl. split; [done|].
  unfold _output_single, classes_. rewrite He. simpl.
  unfold inverse_transform.
  rewrite (lookup_ge_None_2 (unique (label <$> models))); [done|].
  pose proof (length_unique_lt (label <$> models) Hdup) as Hlt.
  unfold models in Hlt. rewrite length_fmap, length_app in Hlt.
  simpl in Hlt. unfold models. lia.
Qed.

Lemma duplicate_labels_decode_error_witness :
  predict_single const_forward log_stub 1
    {| _models_ := Some models_aa;
       _encoder_ := Some (unique (label <$> models_aa)) |}
    () Uniform false false 1 = Ok (Index 1, None) ∧
  predict_single const_forward log_stub 1
    {| _models_ := Some models_aa;
       _encoder_ := Some (unique (label <$> models_aa)) |}
    () Uniform false true 1 = Raise unseen.
Proof.
  apply (duplicate_labels_decode_error const_forward log_stub 1 __init__ _
           [model "a" (-5)] (model "a" 0) () false 1).
  - reflexivity.
  - intros Hnd. apply NoDup_cons in Hnd as [Hnot _]. apply Hnot. by left.
  - reflexivity.
  - intros m ->%list_elem_of_singleton.
    vm_compute. reflexivity.
Defined.

End DuplicateLabels.

(** ** Batches and explicit priors in the ensemble classifier *)

Section EnsembleBatches.
Import Numpy Py HMMClassifier Inputs.

(** X21: on a classifier fitted with models of distinct labels,
    [predict] on a non-empty batch, with an accepted prior and any
    admissible number of jobs, always returns: one class index per
    sequence, each a position among the models; with [original_labels]
    the classes at these positions, each the label of one of the models;
    and as scores the models' unnormalised log-posteriors, one row per
    sequence. *)
Theorem predict_batch_total {obs hmm : Type}
    (forward : hmm → obs → Q) (log : Q → Q) (cpu_count : nat)
    (self : t hmm) models pr (X : list obs) rs n_jobs :
  fitted_with self models → models ≠ [] →
  NoDup (label <$> models) →
  check_prior models pr = Ok () →
  (pr = Frequency → sum_list (n_seqs_ <$> models) ≠ 0%nat) →
  (1 ≤ cpu_count)%nat → (n_jobs = -1 ∨ 0 < n_jobs)%Z → X ≠ [] →
  let rows := (λ x, score forward log models pr x <$> models) <$> X in
  ∃ idx lbls,
    length idx = length X ∧
    Forall2 (λ i l, (i < length models)%nat ∧
                    unique (label <$> models) !! i = Some l ∧
                    l ∈ label <$> models) idx lbls ∧
    predict forward log cpu_count self X pr rs false n_jobs
      = Ok (Index <$> idx, if rs then Some rows else None) ∧
    predict forward log cpu_count self X pr rs true n_jobs
      = Ok (Original <$> lbls, if rs then Some rows else None).
Proof.
  intros Hfit Hne Hnd Hp Hf Hc Hn HX rows.
  set (C := unique (label <$> models)).
  assert (length C = length models) as HCl
    by (unfold C; by rewrite length_unique_NoDup, length_fmap).
  destruct (argmax_rows rows (length models)) as (idx & Hidx & Hil & Hlt).
  { destruct models; [done|simpl; lia]. }
  { unfold rows. apply Forall_fmap, Forall_forall. intros x _. simpl.
    by rewrite length_fmap. }
  exists idx, ((λ i, nth i C ""%string) <$> idx).
  assert (∀ i, i ∈ idx → C !! i = Some (nth i C ""%string)) as Hnth.
  { intros i Hi. specialize (Hlt i Hi).
    destruct (lookup_lt_is_Some_2 C i ltac:(lia)) as [l Hl].
    rewrite Hl. f_equal. symmetry. by apply nth_lookup_Some. }
  split; [rewrite Hil; unfold rows; by rewrite length_fmap|]. split.
  { apply Forall2_fmap_r, Forall_Forall2_diag, Forall_forall. intros i Hi.
    split; [by apply Hlt|]. split; [by apply Hnth|].
    apply elem_of_unique. eapply list_elem_of_lookup_2. by apply Hnth. }
  rewrite !(predict_batch_unfold forward log cpu_count self models) by done.
  fold rows. rewrite Hidx. simpl. split; [done|].
  unfold _output_batch, classes_. rewrite (proj2 Hfit). simpl. fold C.
  rewrite (mapM_Ok_fmap _ (λ i, Original (nth i C ""%string))).
  - simpl. by rewrite <- list_fmap_compose.
  - intros i Hi. unfold inverse_transform. by rewrite (Hnth i Hi).
Qed.

Lemma predict_batch_total_witness :
  ∃ idx lbls,
    length idx = length [(); ()] ∧
    Forall2 (λ i l, (i < length models_cab)%nat ∧
                    unique (label <$> models_cab) !! i = Some l ∧
                    l ∈ label <$> models_cab) idx lbls ∧
    predict const_forward log_stub 1 fitted_cab [(); ()] Uniform false false 4
      = Ok (Index <$> idx, None) ∧
    predict const_forward log_stub 1 fitted_cab [(); ()] Uniform false true 4
      = Ok (Original <$> lbls, None).
Proof.
  apply (predict_batch_total const_forward log_stub 1 fitted_cab models_cab
           Uniform [(); ()] false 4).
  - split; reflexivity.
  - discriminate.
  - apply (@bool_decide_unpack _ (NoDup_dec _)). vm_compute. exact I.
  - reflexivity.
  - discriminate.
  - lia.
  - lia.
  - discriminate.
Defined.

Lemma forallb_Forall_range (p : list Q) :
  forallb (λ x, Qle_bool 0 x && Qle_bool x 1) p = true ↔
  Forall (λ q, 0 <= q ∧ q <= 1) p.
Proof.
  rewrite forallb_forall, Forall_forall. split.
  - intros H q Hq%list_elem_of_In. specialize (H q Hq).
    apply andb_true_iff in H as [H1 H2]. split; by apply Qle_bool_iff.
  - intros H q Hq%list_elem_of_In. destruct (H q Hq) as [H1 H2].
    apply andb_true_iff. split; by apply Qle_bool_iff.
Qed.

(** X22: an explicit prior is checked before anything is scored and
    before the number of jobs is validated: [predict], on a single
    sequence or on a batch, raises the AssertionError of the first check
    that fails (one prior per model, every prior between zero and one,
    the sum within [1.001e-5] of one), and an explicit prior that passes
    the three checks is accepted. *)
Theorem explicit_prior_errors {obs hmm : Type}
    (forward : hmm → obs → Q) (log : Q → Q) (cpu_count : nat)
    (self : t hmm) models (p : list Q) :
  _models_ self = Some models →
  let refused msg :=
    ∀ (x : obs) (X : list obs) rs ol n_jobs,
      predict_single forward log cpu_count self x (Explicit p) rs ol n_jobs
        = Raise (AssertionError msg) ∧
      predict forward log cpu_count self X (Explicit p) rs ol n_jobs
        = Raise (AssertionError msg) in
  (length p ≠ length models →
   refused "There must be a class prior for each HMM or class"%string) ∧
  (length p = length models → ¬ Forall (λ q, 0 <= q ∧ q <= 1) p →
   refused "Class priors must each be between zero and one"%string) ∧
  (length p = length models → Forall (λ q, 0 <= q ∧ q <= 1) p →
   ¬ Qabs (sum p - 1) <= 1001 # 100000000 →
   refused "Class priors must form a probability distribution by summing to one"%string) ∧
  (length p = length models → Forall (λ q, 0 <= q ∧ q <= 1) p →
   Qabs (sum p - 1) <= 1001 # 100000000 →
   check_prior models (Explicit p) = Ok ()).
Proof.
  intros Hm refused.
  assert (∀ msg, check_prior models (Explicit p) = Raise (AssertionError msg)
                 → refused msg) as Href.
  { intros msg Hc x X rs ol n_jobs.
    unfold predict_single, predict, models_. rewrite Hm.
    cbn [of_option mbind result_bind]. by rewrite Hc. }
  pose proof (forallb_Forall_range p) as Hrange.
  unfold check_prior in *.
  destruct (Nat.eqb_spec (length p) (length models)) as [Hl|Hl]; simpl in *.
  2:{ split; [intros _; by apply Href|]. split; [done|]. split; done. }
  split; [done|].
  destruct (forallb _ p); simpl in *.
  2:{ split; [intros _ _; by apply Href|].
      split; intros _ Hall; apply Hrange in Hall; done. }
  split; [intros _ Hnot; destruct Hnot; by apply Hrange|].
  destruct (isclose (sum p) 1) eqn:E; simpl.
  - apply isclose_spec, close_one_bound in E. split; done.
  - split; [intros _ _ _; by apply Href|]. intros _ _ Hc.
    apply close_one_bound, isclose_spec in Hc. congruence.
Qed.

Lemma explicit_prior_errors_witness :
  predict_single const_forward log_stub 1 fitted_cab ()
    (Explicit [1 # 2; 1 # 2]) true true 1
    = Raise (AssertionError
               "There must be a class prior for each HMM or class") ∧
  predict const_forward log_stub 1 fitted_cab [(); ()]
    (Explicit [1 # 2; 1 # 2]) true true 1
    = Raise (AssertionError
               "There must be a class prior for each HMM or class").
Proof.
  apply (proj1 (explicit_prior_errors const_forward log_stub 1 fitted_cab
                  models_cab [1 # 2; 1 # 2] eq_refl)).
  discriminate.
Defined.

End EnsembleBatches.

(** ** The uniform prior

    With the uniform prior every score is the model's log-likelihood
    plus the same constant, so the prediction is the maximum-likelihood
    model. *)
Section UniformPrior.
Import Numpy Py HMMClassifier Inputs.

Lemma Qle_bool_shift (a b c : Q) : Qle_bool (a + c) (b + c) = Qle_bool a b.
Proof.
  destruct (Qle_bool a b) eqn:E.
  - apply Qle_bool_iff. apply Qle_bool_iff in E. lra.
  - apply Qle_bool_false. apply Qle_bool_false in E. lra.
Qed.

Lemma argmax_from_shift (c : Q) (l : list Q) best_i best i :
  argmax_from best_i (best + c) i ((λ v, v + c) <$> l)
  = argmax_from best_i best i l.
Proof.
  revert best_i best i. induction l as [|x l IH]; intros best_i best i; [done|].
  rewrite fmap_cons. cbn [argmax_from]. rewrite Qle_bool_shift.
  destruct (Qle_bool x best); apply IH.
Qed.

(** Adding a constant to every score does not move the argmax. *)
Lemma argmax_shift (c : Q) (l : list Q) :
  argmax ((λ v, v + c) <$> l) = argmax l.
Proof.
  destruct l as [|x l]; [done|]. rewrite fmap_cons. cbn [argmax].
  by rewrite argmax_from_shift.
Qed.

(** X23: called with [prior='uniform'], [predict] on a single sequence
    ignores the prior: the predicted class is the position that
    [argmax] picks on the bare forward log-likelihoods, that is a model
    whose log-likelihood no other model exceeds, and the first such
    model in the order of [models_]. *)
Theorem uniform_prior_maximum_likelihood {obs hmm : Type}
    (forward : hmm → obs → Q) (log : Q → Q) (cpu_count : nat)
    (self : t hmm) models x n_jobs :
  fitted_with self models → models ≠ [] →
  NoDup (label <$> models) →
  is_ok (resolve_jobs cpu_count n_jobs) = true →
  ∃ i m, models !! i = Some m ∧
    predict_single forward log cpu_count self x Uniform false false n_jobs
      = Ok (Index i, None) ∧
    argmax ((λ m, forward (fitted m) x) <$> models) = Ok i ∧
    (∀ m', m' ∈ models → forward (fitted m') x <= forward (fitted m) x) ∧
    (∀ j m', (j < i)%nat → models !! j = Some m' →
       forward (fitted m') x < forward (fitted m) x).
Proof.
  intros Hfit Hne Hnd Hn.
  rewrite (predict_single_unfold forward log cpu_count self models Uniform)
    by done.
  set (c := log (1 / Qnat (length models))).
  assert (score forward log models Uniform x <$> models
          = (λ v, v + c) <$> ((λ m, forward (fitted m) x) <$> models)) as ->.
  { by rewrite <- list_fmap_compose. }
  rewrite argmax_shift.
  destruct (argmax_spec ((λ m, forward (fitted m) x) <$> models))
    as (i & mx & Hi & Hmx & Hmax & Hfirst); [by destruct models|].
  rewrite list_lookup_fmap in Hmx.
  destruct (models !! i) as [m|] eqn:Hm; [|done]. injection Hmx as <-.
  exists i, m. rewrite Hi. simpl. split; [done|]. split; [done|].
  split; [done|]. split.
  - intros m' [j Hj]%list_elem_of_lookup. apply (Hmax j).
    by rewrite list_lookup_fmap, Hj.
  - intros j m' Hlt Hj. apply (Hfirst j); [done|].
    by rewrite list_lookup_fmap, Hj.
Qed.

Lemma uniform_prior_maximum_likelihood_witness :
  ∃ i m, models_cab !! i = Some m ∧
    predict_single const_forward log_stub 1 fitted_cab () Uniform
      false false 1 = Ok (Index i, None) ∧
    argmax ((λ m, const_forward (fitted m) ()) <$> models_cab) = Ok i ∧
    (∀ m', m' ∈ models_cab →
       const_forward (fitted m') () <= const_forward (fitted m) ()) ∧
    (∀ j m', (j < i)%nat → models_cab !! j = Some m' →
       const_forward (fitted m') () < const_forward (fitted m) ()).
Proof.
  apply (uniform_prior_maximum_likelihood const_forward log_stub 1 fitted_cab
           models_cab () 1).
  - split; reflexivity.
  - discriminate.
  - apply (@bool_decide_unpack _ (NoDup_dec _)). vm_compute. exact I.
  - reflexivity.
Defined.

End UniformPrior.
